(** * Cross-reference validator of the letter edition (scripts/lint_verweise.py)

    A shallow embedding of the validator: the parsed XML trees, the
    letter -> page -> lines location map built from the transcription and the
    tradition documents, the commentary registries, and the checks that
    append to the shared list of violations. The loader ([parse_xml], which
    ends the process on a missing or malformed file) and the command line are
    outside: a run starts from the parsed trees and their paths. *)

From stdpp Require Import base option list strings gmap fin_maps fin_sets.
From Stdlib Require Import DecimalString.

Open Scope string_scope.
Open Scope list_scope.

#[local] Set Warnings "-clear-no-such-hyp".

(** ** Parsed documents

    An element of an lxml tree: tag, attributes, the line it was read at and
    its children in document order. Comments and processing instructions take
    no branch of any test of the script and are left out. *)

Local Unset Elimination Schemes.
Inductive elem : Type :=
  Elem (tag : string) (attrib : list (string * string))
       (sourceline : option nat) (children : list elem).
Local Set Elimination Schemes.

Definition tag (e : elem) : string := let 'Elem t _ _ _ := e in t.
Definition attrib (e : elem) : list (string * string) := let 'Elem _ a _ _ := e in a.
Definition sourceline (e : elem) : option nat := let 'Elem _ _ l _ := e in l.
Definition children (e : elem) : list elem := let 'Elem _ _ _ c := e in c.

Global Instance elem_eq_dec : EqDecision elem.
Proof.
  refine (fix go (x y : elem) {struct x} : Decision (x = y) :=
            match x, y with
            | Elem t a l cs, Elem t' a' l' cs' =>
                cast_if_and4 (decide (t = t')) (decide (a = a')) (decide (l = l'))
                             (@list_eq_dec _ go cs cs')
            end); congruence.
Defined.

(** [elem.get(key)]: the value of the attribute, [None] when it is absent. *)
Fixpoint assoc (key : string) (l : list (string * string)) : option string :=
  match l with
  | [] => None
  | (k, v) :: l' => if String.eqb k key then Some v else assoc key l'
  end.

Definition get (e : elem) (key : string) : option string := assoc key (attrib e).

(** Python truth value of the result of [get]: [None] and the empty string
    are false. The script writes [if ref], [if not kid], [if page_id]. *)
Definition truthy (o : option string) : bool :=
  match o with
  | Some (String _ _) => true
  | _ => false
  end.

(** The value behind a passed truth test. *)
Definition truthy_val (o : option string) : option string :=
  if truthy o then o else None.

(** [elem.iter()]: the element itself, then its descendants, in document order. *)
Fixpoint iter (e : elem) : list elem :=
  match e with
  | Elem _ _ _ cs =>
      e :: (fix iter_all (l : list elem) : list elem :=
              match l with
              | [] => []
              | c :: l' => iter c ++ iter_all l'
              end) cs
  end.

(** The proper descendants, in document order. *)
Definition descendants (e : elem) : list elem := flat_map iter (children e).

(** [root.findall(".//t")]: every proper descendant with tag [t]. *)
Definition findall (t : string) (root : elem) : list elem :=
  filter (λ e, tag e = t) (descendants root).

(** [root.find(".//t")]: the first of them, if any. *)
Definition find (t : string) (root : elem) : option elem := head (findall t root).

(** ** Violations *)

Inductive line_no : Type :=
  | Line (n : nat)
  | Unknown.

(** [get_line_number]: the source line, or "Unknown" when it is missing or 0. *)
Definition get_line_number (e : elem) : line_no :=
  match sourceline e with
  | Some (S n) => Line (S n)
  | _ => Unknown
  end.

(** The messages of the script, with the values their f-strings interpolate.
    A value that may be [None] at the point of the message is an option. *)
Inductive message : Type :=
  | InvalidIntlinkLetter (letter_id : option string)
  | NoPagesIntlink (letter_id : string)
  | InvalidIntlinkPage (page_id letter_id : string)
  | InvalidIntlinkLine (line_id letter_id page_id : string)
  | IntlinkLineNoPage (line_id letter_id : string)
  | KommentarMissingId
  | DuplicateKommentarLocal (kid : string)
  | DuplicateKommentarGlobal (kid : string)
  | KommentarMissingLemma (kid : string)
  | SubsectionMissingId
  | DuplicateSubsectionLocal (sid : string)
  | DuplicateSubsectionGlobal (sid : string)
  | SubsectionMissingLemma (sid : string)
  | InvalidLinkRef (refval : string)
  | InvalidLinkSubref (subrefval : string)
  | InvalidSenderRef (ref : string) (letter_id : option string)
  | InvalidReceiverRef (ref : string) (letter_id : option string)
  | InvalidLocationRef (r : string) (letter_id : option string)
  | InvalidLetterReference (letter_id : string)
  | InvalidHandRefBrief (ref : string) (letter_id : option string)
  | InvalidEditRef (ref : string) (letter_id : option string)
  | InvalidLetterTradition (letter_id : string)
  | InvalidAppRef (ref : string) (letter_id : option string)
  | InvalidHandRefTrad (ref : string) (letter_id : option string)
  | InvalidMarginalLetter (letter_id : option string)
  | NoPagesMarginal (letter_id : option string)
  | InvalidMarginalPage (letter_id page_id : option string)
  | InvalidMarginalLine (letter_id page_id line_id : option string).

Record error : Type := Error { file : string; line : line_no; msg : message }.

Global Instance line_no_eq_dec : EqDecision line_no.
Proof. solve_decision. Defined.
Global Instance message_eq_dec : EqDecision message.
Proof. solve_decision. Defined.
Global Instance error_eq_dec : EqDecision error.
Proof. solve_decision. Defined.

(** ** Location map: letter -> page -> set of lines

    The script keeps it in a [defaultdict] of [defaultdict(set)]: reading
    [m[l][p]] on a missing key yields (and stores) the empty value. Keys and
    lines are only ever stored behind a truth test, so they are strings. *)

Abbreviation LocMap := (gmap string (gmap string (gset string))).

Definition pages_of (m : LocMap) (l : string) : gmap string (gset string) :=
  default ∅ (m !! l).

Definition lines_of (m : LocMap) (l p : string) : gset string :=
  default ∅ (pages_of m l !! p).

(** [m[l][p].add(x)] *)
Definition add_line (l p x : string) (m : LocMap) : LocMap :=
  <[l := <[p := {[x]} ∪ lines_of m l p]> (pages_of m l)]> m.

(** [m[l][p].update(s)] *)
Definition update_lines (l p : string) (s : gset string) (m : LocMap) : LocMap :=
  <[l := <[p := lines_of m l p ∪ s]> (pages_of m l)]> m.

(** [k in m] and [x in s] for a value that may be [None]. *)
Definition lookup_opt {V} (o : option string) (m : gmap string V) : option V :=
  match o with
  | Some k => m !! k
  | None => None
  end.

Definition mem_opt (o : option string) (s : gset string) : bool :=
  match o with
  | Some x => bool_decide (x ∈ s)
  | None => false
  end.

Record scan_state : Type := Scan {
  current_letter : option string;
  current_page : option string;
  letter_pages : LocMap
}.

(** One turn of the loop of [build_letter_page_line_map_brief]. *)
Definition brief_step (st : scan_state) (e : elem) : scan_state :=
  if decide (tag e = "letterText") then
    Scan (get e "letter") (current_page st) (letter_pages st)
  else if decide (tag e = "page") then
    let page_index := get e "index" in
    if truthy page_index then Scan (current_letter st) page_index (letter_pages st)
    else st
  else if decide (tag e = "line") then
    let line_index := get e "index" in
    match truthy_val (current_letter st), truthy_val (current_page st),
          truthy_val line_index with
    | Some l, Some p, Some x =>
        Scan (current_letter st) (current_page st) (add_line l p x (letter_pages st))
    | _, _, _ => st
    end
  else st.

Definition brief_scan (doc_elem : elem) : scan_state :=
  foldl brief_step (Scan None None ∅) (iter doc_elem).

Definition build_letter_page_line_map_brief (doc_root : elem) : LocMap :=
  let doc_elem := default doc_root (find "document" doc_root) in
  letter_pages (brief_scan doc_elem).

(** One turn of the inner loop of [build_letter_page_line_map_trad]; the
    state is the current page and the map. *)
Definition trad_step (letter_id : string) (st : option string * LocMap) (e : elem)
  : option string * LocMap :=
  if decide (tag e = "page") then
    let pidx := get e "index" in
    if truthy pidx then (pidx, st.2) else st
  else if decide (tag e = "line") then
    let lidx := get e "index" in
    match truthy_val st.1, truthy_val lidx with
    | Some p, Some x => (st.1, add_line letter_id p x st.2)
    | _, _ => st
    end
  else st.

(** The body of the outer loop: a block without a letter is skipped; the
    block's own element is left out of the scan. *)
Definition trad_block (m : LocMap) (letter_trad : elem) : LocMap :=
  match truthy_val (get letter_trad "letter") with
  | Some letter_id => (foldl (trad_step letter_id) (None, m) (descendants letter_trad)).2
  | None => m
  end.

Definition build_letter_page_line_map_trad (trad_root : elem) : LocMap :=
  foldl trad_block ∅ (findall "letterTradition" trad_root).

(** [merge_page_line_maps]: every line set of [map_b] is added to [map_a]. *)
Definition merge_page_line_maps (map_a map_b : LocMap) : LocMap :=
  map_fold (λ letter_id pages_dict acc,
              map_fold (λ page_id line_set acc',
                          update_lines letter_id page_id line_set acc')
                       acc pages_dict)
           map_a map_b.

(** ** The shared list of violations

    Every check is a loop over elements in document order whose body appends
    to the one list [errors]; [for_each] is that loop. *)
Definition for_each {A} (l : list A) (body : A → list error) (errors : list error)
  : list error :=
  foldl (λ errors x, errors ++ body x) errors l.

(** ** Internal links *)

(** The body of the loop of [validate_intlinks]: the violations one
    [intlink] appends. *)
Definition intlink_body (file_path : string) (letter_pages : LocMap)
    (letter_refs : gset (option string)) (intlink : elem) : list error :=
  let line_no := get_line_number intlink in
  let letter_id := get intlink "letter" in
  let page_id := get intlink "page" in
  let line_id := get intlink "line" in
  match truthy_val letter_id with
  | None => [Error file_path line_no (InvalidIntlinkLetter letter_id)]
  | Some l =>
      if bool_decide (letter_id ∉ letter_refs)
      then [Error file_path line_no (InvalidIntlinkLetter letter_id)]
      else
        match letter_pages !! l with
        | None => [Error file_path line_no (NoPagesIntlink l)]
        | Some pages =>
            match truthy_val page_id with
            | Some p =>
                match pages !! p with
                | None => [Error file_path line_no (InvalidIntlinkPage p l)]
                | Some lines =>
                    match truthy_val line_id with
                    | Some x =>
                        if bool_decide (x ∉ lines)
                        then [Error file_path line_no (InvalidIntlinkLine x l p)]
                        else []
                    | None => []
                    end
                end
            | None =>
                match truthy_val line_id with
                | Some x => [Error file_path line_no (IntlinkLineNoPage x l)]
                | None => []
                end
            end
        end
  end.

Definition validate_intlinks (xml_root : elem) (file_path : string)
    (letter_pages : LocMap) (letter_refs : gset (option string))
    (errors : list error) : list error :=
  for_each (findall "intlink" xml_root)
           (intlink_body file_path letter_pages letter_refs) errors.

(** ** Commentary entries and subsections *)

(** State of one loop of [gather_commentaries_and_subsections]: the
    violations, the identifiers seen in this file, the global pool. *)
Record gather_state : Type := Gather {
  g_errors : list error;
  g_local : gset string;
  g_global : gset string
}.

(** [kom.find(".//lemma") is None] *)
Definition lemma_missing (e : elem) : bool :=
  match find "lemma" e with
  | None => true
  | Some _ => false
  end.

(** The two loops of [gather_commentaries_and_subsections] run the same
    body, once on [kommentar] and once on [subsection]; they differ in the
    four messages. *)
Record entry_kind : Type := EntryKind {
  missing_id : message;
  duplicate_local : string → message;
  duplicate_global : string → message;
  missing_lemma : string → message
}.

Definition kommentar_kind : entry_kind :=
  EntryKind KommentarMissingId DuplicateKommentarLocal
            DuplicateKommentarGlobal KommentarMissingLemma.

Definition subsection_kind : entry_kind :=
  EntryKind SubsectionMissingId DuplicateSubsectionLocal
            DuplicateSubsectionGlobal SubsectionMissingLemma.

(** One turn of such a loop. *)
Definition entry_step (kind : entry_kind) (file_path : string) (st : gather_state)
    (e : elem) : gather_state :=
  let ln := get_line_number e in
  match truthy_val (get e "id") with
  | None => Gather (g_errors st ++ [Error file_path ln (missing_id kind)])
                   (g_local st) (g_global st)
  | Some id =>
      (* local duplicates *)
      let '(errors1, local) :=
        if bool_decide (id ∈ g_local st)
        then (g_errors st ++ [Error file_path ln (duplicate_local kind id)], g_local st)
        else (g_errors st, {[id]} ∪ g_local st) in
      (* global duplicates *)
      let '(errors2, global) :=
        if bool_decide (id ∈ g_global st)
        then (errors1 ++ [Error file_path ln (duplicate_global kind id)], g_global st)
        else (errors1, {[id]} ∪ g_global st) in
      (* must have a lemma *)
      let errors3 :=
        if lemma_missing e
        then errors2 ++ [Error file_path ln (missing_lemma kind id)]
        else errors2 in
      Gather errors3 local global
  end.

Definition kommentar_step : string → gather_state → elem → gather_state :=
  entry_step kommentar_kind.

Definition subsection_step : string → gather_state → elem → gather_state :=
  entry_step subsection_kind.

(** What the validator carries from register to register: the violations
    and the two global pools. *)
Record registry : Type := Registry {
  r_errors : list error;
  global_kommentar_ids : gset string;
  global_subsection_ids : gset string
}.

Definition gather_commentaries_and_subsections (xml_root : elem) (file_path : string)
    (reg : registry) : registry :=
  let k := foldl (kommentar_step file_path)
                 (Gather (r_errors reg) ∅ (global_kommentar_ids reg))
                 (findall "kommentar" xml_root) in
  let s := foldl (subsection_step file_path)
                 (Gather (g_errors k) ∅ (global_subsection_ids reg))
                 (findall "subsection" xml_root) in
  Registry (g_errors s) (g_global k) (g_global s).

(** ** Commentary links *)

Definition link_ref_check (file_path : string) (kommentar_ids subsection_ids : gset string)
    (link_elem : elem) : list error :=
  match truthy_val (get link_elem "ref") with
  | Some refval =>
      if bool_decide (refval ∉ kommentar_ids) && bool_decide (refval ∉ subsection_ids)
      then [Error file_path (get_line_number link_elem) (InvalidLinkRef refval)]
      else []
  | None => []
  end.

Definition link_subref_check (file_path : string) (subsection_ids : gset string)
    (link_elem : elem) : list error :=
  match truthy_val (get link_elem "subref") with
  | Some subrefval =>
      if bool_decide (subrefval ∉ subsection_ids)
      then [Error file_path (get_line_number link_elem) (InvalidLinkSubref subrefval)]
      else []
  | None => []
  end.

Definition link_body (file_path : string) (kommentar_ids subsection_ids : gset string)
    (link_elem : elem) : list error :=
  link_ref_check file_path kommentar_ids subsection_ids link_elem
  ++ link_subref_check file_path subsection_ids link_elem.

Definition validate_links_for_commentary (xml_root : elem) (file_path : string)
    (kommentar_ids subsection_ids : gset string) (errors : list error) : list error :=
  for_each (findall "link" xml_root)
           (link_body file_path kommentar_ids subsection_ids) errors.

(** ** The main validator *)

(** [ref = e.get(attr)] followed by [if ref and ref not in refs: errors.append(...)];
    the violation carries the line of [e]. *)
Definition ref_check (file_path : string) (refs : gset (option string))
    (attr : string) (mk : string → message) (e : elem) : list error :=
  match truthy_val (get e attr) with
  | Some ref =>
      if bool_decide (Some ref ∉ refs)
      then [Error file_path (get_line_number e) (mk ref)]
      else []
  | None => []
  end.

(** [{e.get(attr) for e in root.findall(".//t")}] *)
Definition attr_set (t attr : string) (root : elem) : gset (option string) :=
  list_to_set ((λ e, get e attr) <$> findall t root).

(** The parsed inputs: six documents with their paths, and the registers. *)
Record inputs : Type := Inputs {
  meta_file : string;        meta_xml : elem;
  references_file : string;  references_xml : elem;
  briefe_file : string;      briefe_xml : elem;
  edits_file : string;       edits_xml : elem;
  traditions_file : string;  traditions_xml : elem;
  marginalien_file : string; marginalien_xml : elem;
  register_trees : list (string * elem)
}.

(** Step 5, body of the loop over [letterDesc]: senders, receivers, and the
    first [location]. *)
Definition letterDesc_body (meta_file : string) (person_refs location_refs : gset (option string))
    (letter : elem) (errors : list error) : list error :=
  let letter_id := get letter "letter" in
  let errors :=
    for_each (findall "sender" letter)
      (ref_check meta_file person_refs "ref" (λ ref, InvalidSenderRef ref letter_id)) errors in
  let errors :=
    for_each (findall "receiver" letter)
      (ref_check meta_file person_refs "ref" (λ ref, InvalidReceiverRef ref letter_id)) errors in
  match find "location" letter with
  | Some loc_elem =>
      errors ++ ref_check meta_file location_refs "ref"
                          (λ r, InvalidLocationRef r letter_id) loc_elem
  | None => errors
  end.

(** Step 6, body of the loop over [letterText]. *)
Definition letterText_body (briefe_file : string) (letter_refs hand_refs edit_refs : gset (option string))
    (letter_text : elem) (errors : list error) : list error :=
  let letter_id := get letter_text "letter" in
  let errors :=
    errors ++ ref_check briefe_file letter_refs "letter" InvalidLetterReference letter_text in
  let errors :=
    for_each (findall "hand" letter_text)
      (ref_check briefe_file hand_refs "ref" (λ ref, InvalidHandRefBrief ref letter_id)) errors in
  for_each (findall "edit" letter_text)
    (ref_check briefe_file edit_refs "ref" (λ ref, InvalidEditRef ref letter_id)) errors.

(** Step 7, body of the loop over [letterTradition]. *)
Definition letterTradition_body (traditions_file : string)
    (letter_refs app_refs hand_refs : gset (option string))
    (tradition : elem) (errors : list error) : list error :=
  let letter_id := get tradition "letter" in
  let errors :=
    errors ++ ref_check traditions_file letter_refs "letter" InvalidLetterTradition tradition in
  let errors :=
    for_each (findall "app" tradition)
      (ref_check traditions_file app_refs "ref" (λ ref, InvalidAppRef ref letter_id)) errors in
  for_each (findall "hand" tradition)
    (ref_check traditions_file hand_refs "ref" (λ ref, InvalidHandRefTrad ref letter_id)) errors.

(** Step 10, body of the loop over [marginal]: no truth test, the three
    values are looked up as they are. *)
Definition marginal_body (marginalien_file : string) (letter_pages : LocMap)
    (letter_refs : gset (option string)) (marginal_elem : elem) : list error :=
  let letter_id := get marginal_elem "letter" in
  let page_id := get marginal_elem "page" in
  let line_id := get marginal_elem "line" in
  let ln := get_line_number marginal_elem in
  if bool_decide (letter_id ∉ letter_refs)
  then [Error marginalien_file ln (InvalidMarginalLetter letter_id)]
  else
    match lookup_opt letter_id letter_pages with
    | None => [Error marginalien_file ln (NoPagesMarginal letter_id)]
    | Some pages =>
        match lookup_opt page_id pages with
        | None => [Error marginalien_file ln (InvalidMarginalPage letter_id page_id)]
        | Some lines =>
            if mem_opt line_id lines then []
            else [Error marginalien_file ln (InvalidMarginalLine letter_id page_id line_id)]
        end
    end.

(** Step 4: the registers in the order given. *)
Definition gather_registers (register_trees : list (string * elem)) (reg : registry)
  : registry :=
  foldl (λ reg r, gather_commentaries_and_subsections r.2 r.1 reg) reg register_trees.

(** Step 8. *)
Definition merged_letter_pages (inp : inputs) : LocMap :=
  merge_page_line_maps (build_letter_page_line_map_brief (briefe_xml inp))
                       (build_letter_page_line_map_trad (traditions_xml inp)).

(** Steps 3 to 11 of [validate_references]: the violations, in the order of
    detection. *)
Definition collect_errors (inp : inputs) : list error :=
  let person_refs := attr_set "personDef" "index" (references_xml inp) in
  let location_refs := attr_set "locationDef" "index" (references_xml inp) in
  let hand_refs := attr_set "handDef" "index" (references_xml inp) in
  let app_refs := attr_set "appDef" "index" (references_xml inp) in
  let edit_refs := attr_set "editreason" "index" (edits_xml inp) in
  let letter_refs := attr_set "letterDesc" "letter" (meta_xml inp) in
  let errors := [] in
  (* 4 *)
  let reg := gather_registers (register_trees inp) (Registry errors ∅ ∅) in
  let errors := r_errors reg in
  let kommentar_ids := global_kommentar_ids reg in
  let subsection_ids := global_subsection_ids reg in
  (* 5 *)
  let errors :=
    foldl (λ errors letter,
             letterDesc_body (meta_file inp) person_refs location_refs letter errors)
          errors (findall "letterDesc" (meta_xml inp)) in
  (* 6 *)
  let errors :=
    foldl (λ errors letter_text,
             letterText_body (briefe_file inp) letter_refs hand_refs edit_refs
                             letter_text errors)
          errors (findall "letterText" (briefe_xml inp)) in
  (* 7 *)
  let errors :=
    foldl (λ errors tradition,
             letterTradition_body (traditions_file inp) letter_refs app_refs hand_refs
                                  tradition errors)
          errors (findall "letterTradition" (traditions_xml inp)) in
  (* 8 *)
  let letter_pages := merged_letter_pages inp in
  (* 9 *)
  let errors :=
    validate_intlinks (traditions_xml inp) (traditions_file inp) letter_pages letter_refs errors in
  let errors :=
    validate_intlinks (marginalien_xml inp) (marginalien_file inp) letter_pages letter_refs errors in
  let errors :=
    foldl (λ errors r, validate_intlinks r.2 r.1 letter_pages letter_refs errors)
          errors (register_trees inp) in
  (* 10 *)
  let errors :=
    for_each (findall "marginal" (marginalien_xml inp))
             (marginal_body (marginalien_file inp) letter_pages letter_refs) errors in
  (* 11 *)
  let validate_links_in_tree root path errors :=
    validate_links_for_commentary root path kommentar_ids subsection_ids errors in
  let errors := validate_links_in_tree (meta_xml inp) (meta_file inp) errors in
  let errors := validate_links_in_tree (references_xml inp) (references_file inp) errors in
  let errors := validate_links_in_tree (briefe_xml inp) (briefe_file inp) errors in
  let errors := validate_links_in_tree (edits_xml inp) (edits_file inp) errors in
  let errors := validate_links_in_tree (traditions_xml inp) (traditions_file inp) errors in
  let errors := validate_links_in_tree (marginalien_xml inp) (marginalien_file inp) errors in
  foldl (λ errors r, validate_links_in_tree r.2 r.1 errors) errors (register_trees inp).

(** *** The report *)

(** [f"{x}"] for a value that may be [None]. *)
Definition fmt (o : option string) : string :=
  match o with
  | Some s => s
  | None => "None"
  end.

Definition fmt_line (l : line_no) : string :=
  match l with
  | Line n => NilZero.string_of_uint (Nat.to_uint n)
  | Unknown => "Unknown"
  end.

Definition render_message (m : message) : string :=
  match m with
  | InvalidIntlinkLetter l => "Invalid intlink letter=" +:+ fmt l
  | NoPagesIntlink l => "No pages known for letter=" +:+ l +:+ " in intlink"
  | InvalidIntlinkPage p l => "Invalid page=" +:+ p +:+ " for letter=" +:+ l +:+ " in intlink"
  | InvalidIntlinkLine x l p =>
      "Invalid line=" +:+ x +:+ " for letter=" +:+ l +:+ ", page=" +:+ p +:+ " in intlink"
  | IntlinkLineNoPage x l =>
      "intlink has line=" +:+ x +:+ " but no page=? for letter=" +:+ l
  | KommentarMissingId => "<kommentar> missing @id"
  | DuplicateKommentarLocal kid => "Duplicate <kommentar id='" +:+ kid +:+ "'> in this file"
  | DuplicateKommentarGlobal kid =>
      "Duplicate <kommentar id='" +:+ kid +:+ "'> across multiple registers"
  | KommentarMissingLemma kid => "<kommentar id='" +:+ kid +:+ "'> missing <lemma> child"
  | SubsectionMissingId => "<subsection> missing @id"
  | DuplicateSubsectionLocal sid => "Duplicate <subsection id='" +:+ sid +:+ "'> in this file"
  | DuplicateSubsectionGlobal sid =>
      "Duplicate <subsection id='" +:+ sid +:+ "'> across multiple registers"
  | SubsectionMissingLemma sid => "<subsection id='" +:+ sid +:+ "'> missing <lemma> child"
  | InvalidLinkRef r => "Invalid <link ref='" +:+ r +:+ "'> (not in komentar/subsection IDs)"
  | InvalidLinkSubref r => "Invalid <link subref='" +:+ r +:+ "'> (not in <subsection> IDs)"
  | InvalidSenderRef r l => "Invalid sender ref: " +:+ r +:+ " in letter=" +:+ fmt l
  | InvalidReceiverRef r l => "Invalid receiver ref: " +:+ r +:+ " in letter=" +:+ fmt l
  | InvalidLocationRef r l => "Invalid location ref: " +:+ r +:+ " in letter=" +:+ fmt l
  | InvalidLetterReference l => "Invalid letter reference: " +:+ l +:+ " in briefe.xml"
  | InvalidHandRefBrief r l => "Invalid hand ref: " +:+ r +:+ " in letter " +:+ fmt l
  | InvalidEditRef r l => "Invalid edit ref: " +:+ r +:+ " in letter " +:+ fmt l
  | InvalidLetterTradition l => "Invalid letterTradition reference: " +:+ l
  | InvalidAppRef r l => "Invalid app ref: " +:+ r +:+ " in letterTradition " +:+ fmt l
  | InvalidHandRefTrad r l => "Invalid hand ref: " +:+ r +:+ " in letterTradition " +:+ fmt l
  | InvalidMarginalLetter l =>
      "Invalid marginal letter reference: " +:+ fmt l +:+ " (not in meta.xml)"
  | NoPagesMarginal l =>
      "No pages/lines known for letter=" +:+ fmt l +:+ " in briefe/traditions"
  | InvalidMarginalPage l p =>
      "Invalid page reference: letter=" +:+ fmt l +:+ ", page=" +:+ fmt p
  | InvalidMarginalLine l p x =>
      "Invalid line reference: letter=" +:+ fmt l +:+ ", page=" +:+ fmt p
      +:+ ", line=" +:+ fmt x
  end.

Definition render_error (err : error) : string :=
  "::error file=" +:+ file err +:+ ",line=" +:+ fmt_line (line err) +:+ "::"
  +:+ render_message (msg err).

(** [validate_references]: the strings passed to [print], one per call and in
    order, and the exit status. A string that holds a line feed (taken from
    an attribute value) is one call and more than one line of the output. *)
Definition validate_references (inp : inputs) : list string * nat :=
  match collect_errors inp with
  | [] => (["All references are valid."], 0)
  | errors => (render_error <$> errors, 1)
  end.

(** ** Notions used in the statements *)

(** Two entries of the location map under one (letter, page), joined: the
    entry exists when one of them does, and holds the lines of both. *)
Definition join_lines (o1 o2 : option (gset string)) : option (gset string) :=
  union_with (λ s1 s2, Some (s1 ∪ s2)) o1 o2.

(** The messages of the registry loops, as opposed to those of the checks. *)
Definition registry_message (m : message) : bool :=
  match m with
  | KommentarMissingId | DuplicateKommentarLocal _ | DuplicateKommentarGlobal _
  | KommentarMissingLemma _ | SubsectionMissingId | DuplicateSubsectionLocal _
  | DuplicateSubsectionGlobal _ | SubsectionMissingLemma _ => true
  | _ => false
  end.

(** A list of violations that all come from the checks. *)
Definition checks_only (errors : list error) : Prop :=
  Forall (λ err, registry_message (msg err) = false) errors.

(** No letter, page or line of the map is the empty string. *)
Definition no_empty_keys (m : LocMap) : Prop :=
  m !! "" = None
  ∧ ∀ l, pages_of m l !! "" = None ∧ ∀ p, "" ∉ lines_of m l p.

(** [d] lies in the subtree below [e], at any depth. *)
Inductive in_subtree : elem → elem → Prop :=
  | in_subtree_child d e : d ∈ children e → in_subtree d e
  | in_subtree_deeper d c e : c ∈ children e → in_subtree d c → in_subtree d e.

(** How many violations of a list carry the message [m]. *)
Definition count_msg (m : message) (errors : list error) : nat :=
  length (filter (λ err, msg err = m) errors).

(** The attribute [attr] of [e] carries the non-empty value [v]. *)
Definition has_value (e : elem) (attr v : string) : Prop :=
  get e attr = Some v ∧ v ≠ "".

(** The attribute [attr] of [e] is absent or empty: what the truth tests of
    the script take as missing. *)
Definition no_value (e : elem) (attr : string) : Prop :=
  get e attr = None ∨ get e attr = Some "".

(** The identifier under which the registry takes an entry: its non-empty
    [id]; an entry without one is reported as missing its id. *)
Definition entry_id (e : elem) : option string := truthy_val (get e "id").

(** What one entry appends, given the identifiers seen in this file and the
    global pool at that point. *)
Definition entry_new (kind : entry_kind) (file_path : string)
    (local global : gset string) (e : elem) : list error :=
  let ln := get_line_number e in
  match entry_id e with
  | None => [Error file_path ln (missing_id kind)]
  | Some id =>
      (if bool_decide (id ∈ local)
       then [Error file_path ln (duplicate_local kind id)] else [])
      ++ (if bool_decide (id ∈ global)
          then [Error file_path ln (duplicate_global kind id)] else [])
      ++ (if lemma_missing e
          then [Error file_path ln (missing_lemma kind id)] else [])
  end.

(** An identifier set after an entry went through the loop. *)
Definition with_entry (ids : gset string) (e : elem) : gset string :=
  match entry_id e with
  | Some id => {[id]} ∪ ids
  | None => ids
  end.

(** What a run of entries appends. *)
Fixpoint entry_loop_new (kind : entry_kind) (file_path : string)
    (local global : gset string) (l : list elem) : list error :=
  match l with
  | [] => []
  | e :: l' =>
      entry_new kind file_path local global e
      ++ entry_loop_new kind file_path (with_entry local e) (with_entry global e) l'
  end.

(** The identifiers of a run of entries. *)
Definition ids_of (l : list elem) : gset string := list_to_set (omap entry_id l).

(** How many entries of a run carry the identifier [id]. *)
Definition occurrences (id : string) (l : list elem) : nat :=
  length (filter (λ e, entry_id e = Some id) l).

(** A message that the loop of this kind never produces. *)
Definition foreign (kind : entry_kind) (m : message) : Prop :=
  m ≠ missing_id kind
  ∧ ∀ id, m ≠ duplicate_local kind id ∧ m ≠ duplicate_global kind id
          ∧ m ≠ missing_lemma kind id.

(** The four messages of a kind are told apart, and name their identifier. *)
Record kind_ok (kind : entry_kind) : Prop := KindOk {
  global_not_missing_id : ∀ id, duplicate_global kind id ≠ missing_id kind;
  global_not_local : ∀ id id', duplicate_global kind id ≠ duplicate_local kind id';
  global_not_lemma : ∀ id id', duplicate_global kind id ≠ missing_lemma kind id';
  global_inj : ∀ id id', duplicate_global kind id = duplicate_global kind id' → id = id'
}.

(** The identifiers of the entries with tag [t] of all the registers. *)
Definition all_ids (t : string) (register_trees : list (string * elem)) : gset string :=
  ⋃ ((λ r, ids_of (findall t r.2)) <$> register_trees).

(** *** The violations of a run, element by element

    What each body appends for one element, and the whole list as the
    concatenation of these over the traversals, in the order of the steps. *)

Definition letterDesc_errors (meta_file : string)
    (person_refs location_refs : gset (option string)) (letter : elem) : list error :=
  let letter_id := get letter "letter" in
  flat_map (ref_check meta_file person_refs "ref" (λ ref, InvalidSenderRef ref letter_id))
           (findall "sender" letter)
  ++ flat_map (ref_check meta_file person_refs "ref"
                         (λ ref, InvalidReceiverRef ref letter_id))
              (findall "receiver" letter)
  ++ match find "location" letter with
     | Some loc_elem =>
         ref_check meta_file location_refs "ref" (λ r, InvalidLocationRef r letter_id)
                   loc_elem
     | None => []
     end.

Definition letterText_errors (briefe_file : string)
    (letter_refs hand_refs edit_refs : gset (option string)) (letter_text : elem)
  : list error :=
  let letter_id := get letter_text "letter" in
  ref_check briefe_file letter_refs "letter" InvalidLetterReference letter_text
  ++ flat_map (ref_check briefe_file hand_refs "ref"
                         (λ ref, InvalidHandRefBrief ref letter_id))
              (findall "hand" letter_text)
  ++ flat_map (ref_check briefe_file edit_refs "ref" (λ ref, InvalidEditRef ref letter_id))
              (findall "edit" letter_text).

Definition letterTradition_errors (traditions_file : string)
    (letter_refs app_refs hand_refs : gset (option string)) (tradition : elem)
  : list error :=
  let letter_id := get tradition "letter" in
  ref_check traditions_file letter_refs "letter" InvalidLetterTradition tradition
  ++ flat_map (ref_check traditions_file app_refs "ref"
                         (λ ref, InvalidAppRef ref letter_id))
              (findall "app" tradition)
  ++ flat_map (ref_check traditions_file hand_refs "ref"
                         (λ ref, InvalidHandRefTrad ref letter_id))
              (findall "hand" tradition).

Definition intlink_errors (letter_pages : LocMap) (letter_refs : gset (option string))
    (file_path : string) (root : elem) : list error :=
  flat_map (intlink_body file_path letter_pages letter_refs) (findall "intlink" root).

Definition link_errors (kommentar_ids subsection_ids : gset string)
    (file_path : string) (root : elem) : list error :=
  flat_map (link_body file_path kommentar_ids subsection_ids) (findall "link" root).

(** What the registers append, in the order given: for each, its entries and
    then its subsections, each run against the pools left by the registers
    before it. *)
Fixpoint registers_new (kommentar_ids subsection_ids : gset string)
    (register_trees : list (string * elem)) : list error :=
  match register_trees with
  | [] => []
  | r :: rest =>
      entry_loop_new kommentar_kind r.1 ∅ kommentar_ids (findall "kommentar" r.2)
      ++ entry_loop_new subsection_kind r.1 ∅ subsection_ids (findall "subsection" r.2)
      ++ registers_new (kommentar_ids ∪ ids_of (findall "kommentar" r.2))
                       (subsection_ids ∪ ids_of (findall "subsection" r.2)) rest
  end.

Definition traversal_errors (inp : inputs) : list error :=
  let person_refs := attr_set "personDef" "index" (references_xml inp) in
  let location_refs := attr_set "locationDef" "index" (references_xml inp) in
  let hand_refs := attr_set "handDef" "index" (references_xml inp) in
  let app_refs := attr_set "appDef" "index" (references_xml inp) in
  let edit_refs := attr_set "editreason" "index" (edits_xml inp) in
  let letter_refs := attr_set "letterDesc" "letter" (meta_xml inp) in
  let reg := gather_registers (register_trees inp) (Registry [] ∅ ∅) in
  let letter_pages := merged_letter_pages inp in
  let intlinks := intlink_errors letter_pages letter_refs in
  let links := link_errors (global_kommentar_ids reg) (global_subsection_ids reg) in
  registers_new ∅ ∅ (register_trees inp)
  ++ flat_map (letterDesc_errors (meta_file inp) person_refs location_refs)
              (findall "letterDesc" (meta_xml inp))
  ++ flat_map (letterText_errors (briefe_file inp) letter_refs hand_refs edit_refs)
              (findall "letterText" (briefe_xml inp))
  ++ flat_map (letterTradition_errors (traditions_file inp) letter_refs app_refs hand_refs)
              (findall "letterTradition" (traditions_xml inp))
  ++ intlinks (traditions_file inp) (traditions_xml inp)
  ++ intlinks (marginalien_file inp) (marginalien_xml inp)
  ++ flat_map (λ r, intlinks r.1 r.2) (register_trees inp)
  ++ flat_map (marginal_body (marginalien_file inp) letter_pages letter_refs)
              (findall "marginal" (marginalien_xml inp))
  ++ links (meta_file inp) (meta_xml inp)
  ++ links (references_file inp) (references_xml inp)
  ++ links (briefe_file inp) (briefe_xml inp)
  ++ links (edits_file inp) (edits_xml inp)
  ++ links (traditions_file inp) (traditions_xml inp)
  ++ links (marginalien_file inp) (marginalien_xml inp)
  ++ flat_map (λ r, links r.1 r.2) (register_trees inp).

(** The report printed for a list of violations, with the exit status. *)
Definition report (errors : list error) : list string * nat :=
  match errors with
  | [] => (["All references are valid."], 0)
  | _ => (render_error <$> errors, 1)
  end.

(** ** Sample documents *)

Definition leaf (t : string) (a : list (string * string)) (n : nat) : elem :=
  Elem t a (Some n) [].

Definition empty_doc : elem := Elem "opus" [] (Some 1) [].

(** Metadata with the one letter L1. *)
Definition meta_L1 : elem :=
  Elem "opus" [] (Some 1) [leaf "letterDesc" [("letter", "L1")] 2].

(** Transcription: letter L1, page 3, line 5. *)
Definition briefe_L1 : elem :=
  Elem "opus" [] (Some 1)
    [Elem "document" [] (Some 2)
       [Elem "letterText" [("letter", "L1")] (Some 3)
          [leaf "page" [("index", "3")] 4; leaf "line" [("index", "5")] 5]]].

Definition inputs_with (meta briefe trad marg : elem) (regs : list (string * elem))
  : inputs :=
  Inputs "meta.xml" meta "references.xml" empty_doc "briefe.xml" briefe
         "edits.xml" empty_doc "traditions.xml" trad "marginalien.xml" marg regs.

(** An internal link to L1 whose page attribute is present and empty. *)
Definition intlink_empty_page : elem :=
  leaf "intlink" [("letter", "L1"); ("page", "")] 2.

Definition inputs_intlink_empty_page : inputs :=
  inputs_with meta_L1 briefe_L1 (Elem "opus" [] (Some 1) [intlink_empty_page])
              empty_doc [].

(** An internal link to L1 with a line and no page. *)
Definition intlink_line_only : elem :=
  leaf "intlink" [("letter", "L1"); ("line", "5")] 2.

(** A marginal note on L1 whose page attribute is present and empty. *)
Definition marginal_empty_page : elem :=
  leaf "marginal" [("letter", "L1"); ("page", ""); ("line", "5")] 2.

(** Two registers that each hold the entry K1 once. *)
Definition register_K1 : elem :=
  Elem "register" [] (Some 1)
    [Elem "kommentar" [("id", "K1")] (Some 2) [leaf "lemma" [] 3]].

(** A register that holds the entry K1 twice. *)
Definition register_K1_twice : elem :=
  Elem "register" [] (Some 1)
    [Elem "kommentar" [("id", "K1")] (Some 2) [leaf "lemma" [] 3];
     Elem "kommentar" [("id", "K1")] (Some 4) [leaf "lemma" [] 5]].

Definition register_K1_twice_errors : list error :=
  [Error "r.xml" (Line 4) (DuplicateKommentarLocal "K1");
   Error "r.xml" (Line 4) (DuplicateKommentarGlobal "K1")].

(** A register that holds the subsection S1 twice. *)
Definition register_S1_twice : elem :=
  Elem "register" [] (Some 1)
    [Elem "subsection" [("id", "S1")] (Some 2) [leaf "lemma" [] 3];
     Elem "subsection" [("id", "S1")] (Some 4) [leaf "lemma" [] 5]].

(** An entry K2 whose subtree holds no lemma, and a register with it. *)
Definition kommentar_K2 : elem :=
  Elem "kommentar" [("id", "K2")] (Some 2) [Elem "title" [] (Some 3) [leaf "b" [] 3]].

Definition register_K2 : elem := Elem "register" [] (Some 1) [kommentar_K2].

(** An entry whose id attribute is present and empty, without a lemma, and
    a link whose ref is that empty value. *)
Definition kommentar_empty_id : elem := leaf "kommentar" [("id", "")] 2.

Definition register_empty_id : elem :=
  Elem "register" [] (Some 1) [kommentar_empty_id; leaf "link" [("ref", "")] 3].

(** Metadata whose letter L1 has a first location without ref and a second
    location with an unknown ref. *)
Definition location_second : elem := leaf "location" [("ref", "BAD")] 4.

Definition letterDesc_two_locations : elem :=
  Elem "letterDesc" [("letter", "L1")] (Some 2) [leaf "location" [] 3; location_second].

Definition meta_two_locations : elem := Elem "opus" [] (Some 1) [letterDesc_two_locations].

(** A transcription whose hand element lies outside any letter-text block. *)
Definition hand_outside : elem := leaf "hand" [("ref", "H9")] 3.

Definition briefe_hand_outside : elem :=
  Elem "opus" [] (Some 1) [Elem "document" [] (Some 2) [hand_outside]].

Definition inputs_hand_outside : inputs :=
  inputs_with meta_L1 briefe_hand_outside empty_doc empty_doc [].

(** A second location and a hand outside any letter-text block, both with a
    ref that nothing defines. *)
Definition inputs_unread_refs : inputs :=
  inputs_with meta_two_locations briefe_hand_outside empty_doc empty_doc [].

(** A run on the register whose entry K2 has no lemma. *)
Definition inputs_K2 : inputs :=
  inputs_with empty_doc empty_doc empty_doc empty_doc [("r.xml", register_K2)].

(** A transcription whose letter L1 holds a hand with an unknown ref. *)
Definition hand_inside : elem := leaf "hand" [("ref", "H9")] 4.

Definition letterText_L1_hand : elem :=
  Elem "letterText" [("letter", "L1")] (Some 3) [hand_inside].

Definition inputs_hand_inside : inputs :=
  inputs_with meta_L1
    (Elem "opus" [] (Some 1) [Elem "document" [] (Some 2) [letterText_L1_hand]])
    empty_doc empty_doc [].

(** A marginal note that refers to the unknown letter L2. *)
Definition marginal_L2 : elem :=
  leaf "marginal" [("letter", "L2"); ("page", "3"); ("line", "5")] 2.




(** The sender P9 where the persons are P1 and P2. *)
Definition inputs_sender_P9 : inputs :=
  Inputs "meta.xml"
         (Elem "opus" [] (Some 1)
            [Elem "letterDesc" [("letter", "L1")] (Some 2)
               [leaf "sender" [("ref", "P9")] 3]])
         "references.xml"
         (Elem "opus" [] (Some 1)
            [leaf "personDef" [("index", "P1")] 2; leaf "personDef" [("index", "P2")] 3])
         "briefe.xml" empty_doc "edits.xml" empty_doc
         "traditions.xml" empty_doc "marginalien.xml" empty_doc [].

(** Line 7 of page 3 of L1 is known from the tradition only; a link of the
    tradition document points to it. *)
Definition inputs_link_to_tradition_line : inputs :=
  inputs_with meta_L1 briefe_L1
    (Elem "opus" [] (Some 1)
       [Elem "letterTradition" [("letter", "L1")] (Some 2)
          [leaf "page" [("index", "3")] 3; leaf "line" [("index", "7")] 4;
           leaf "intlink" [("letter", "L1"); ("page", "3"); ("line", "7")] 5]])
    empty_doc [].

Definition kommentar_K1_first : elem :=
  Elem "kommentar" [("id", "K1")] (Some 2) [leaf "lemma" [] 3].

Definition kommentar_K1_again : elem :=
  Elem "kommentar" [("id", "K1")] (Some 4) [leaf "lemma" [] 5].

(** ** Notions used in the further properties *)

(** The letter-text block that a run of elements saw last. *)
Definition last_letterText (es : list elem) : option elem :=
  last (filter (λ e, tag e = "letterText") es).

(** The index that a page marker sets: its non-empty [index]. *)
Definition page_index (e : elem) : option string :=
  if decide (tag e = "page") then truthy_val (get e "index") else None.

(** The page index that a run of elements set last. *)
Definition last_page (es : list elem) : option string := last (omap page_index es).

(** The line marker [ln] with the non-empty index [x], met after the run [pre]
    of a scan [es]. *)
Definition line_after (es pre : list elem) (ln : elem) (x : string) : Prop :=
  (∃ post, es = pre ++ ln :: post) ∧ tag ln = "line" ∧ has_value ln "index" x.

(** No entry of the map is empty: every letter in it has a page, every page
    a line. *)
Definition no_empty_entries (m : LocMap) : Prop :=
  map_Forall (λ _ (pd : gmap string (gset string)),
                pd ≠ ∅ ∧ map_Forall (λ _ (s : gset string), s ≠ ∅) pd) m.

(** The same, read through the lookups the checks make. *)
Definition entries_have_lines (m : LocMap) : Prop :=
  (∀ l, is_Some (m !! l) → ∃ p, is_Some (pages_of m l !! p))
  ∧ (∀ l p, is_Some (pages_of m l !! p) → ∃ x, x ∈ lines_of m l p).

(** Sample maps: the transcription holds line 5, the tradition line 7, both
    on page 3 of L1. *)
Definition map_L1_3_5 : LocMap := {["L1" := {["3" := {["5"]}]}]}.
Definition map_L1_3_7 : LocMap := {["L1" := {["3" := {["7"]}]}]}.

(** The place an internal link points to exists in the map [lp], for the
    letter [l]: with a page, that page has a recorded line, and the link's
    line, if it has one, is recorded on it; without a page the link has no
    line and the letter has a recorded line. *)
Definition intlink_target (lp : LocMap) (intlink : elem) (l : string) : Prop :=
  (∃ p, has_value intlink "page" p
        ∧ ((∃ x, has_value intlink "line" x ∧ x ∈ lines_of lp l p)
           ∨ (no_value intlink "line" ∧ ∃ x, x ∈ lines_of lp l p)))
  ∨ (no_value intlink "page" ∧ no_value intlink "line"
     ∧ ∃ p x, x ∈ lines_of lp l p).

(** A marginal note that points to line 5 of page 3 of L1. *)
Definition marginal_L1_3_5 : elem :=
  leaf "marginal" [("letter", "L1"); ("page", "3"); ("line", "5")] 2.

(** How many entries with tag [t] of all the registers carry [id]. *)
Definition total_occurrences (t id : string) (register_trees : list (string * elem))
  : nat :=
  sum_list ((λ r, occurrences id (findall t r.2)) <$> register_trees).

(** How many of them repeat an entry of their own register. *)
Definition repeated_occurrences (t id : string) (register_trees : list (string * elem))
  : nat :=
  sum_list ((λ r, pred (occurrences id (findall t r.2))) <$> register_trees).

(** The local duplicate message of a kind is told apart from the other
    three, and names its identifier. *)
Record kind_local_ok (kind : entry_kind) : Prop := KindLocalOk {
  local_not_missing_id : ∀ id, duplicate_local kind id ≠ missing_id kind;
  local_not_global : ∀ id id', duplicate_local kind id ≠ duplicate_global kind id';
  local_not_lemma : ∀ id id', duplicate_local kind id ≠ missing_lemma kind id';
  local_inj : ∀ id id', duplicate_local kind id = duplicate_local kind id' → id = id'
}.

(** The entries with tag [t] of all the registers, in the order the run
    meets them. *)
Definition all_entries (t : string) (register_trees : list (string * elem)) : list elem :=
  flat_map (λ r, findall t r.2) register_trees.

(** A lemma lies somewhere below the entry. *)
Definition has_lemma (e : elem) : Prop := ∃ d, in_subtree d e ∧ tag d = "lemma".

(** A run of entries the registry has nothing to say about, given a pool
    already filled: each has a non-empty id and a lemma, and the ids are
    pairwise distinct and new to the pool. *)
Definition clean_entries (pool : gset string) (l : list elem) : Prop :=
  Forall (λ e, is_Some (entry_id e) ∧ has_lemma e) l
  ∧ NoDup (omap entry_id l)
  ∧ ∀ id, id ∈ omap entry_id l → id ∉ pool.

(** Two registers, one with the entry K1 and one with the entry K2, in
    both orders. *)
Definition registers_K1_K2 : list (string * elem) :=
  [("a.xml", register_K1); ("b.xml", register_K2)].

Definition registers_K2_K1 : list (string * elem) :=
  [("b.xml", register_K2); ("a.xml", register_K1)].

(** What a run checks against: the merged map, the six identifier sets and
    the registers. *)
Record indices : Type := Indices {
  ix_pages : LocMap;
  ix_letters : gset (option string);
  ix_persons : gset (option string);
  ix_locations : gset (option string);
  ix_hands : gset (option string);
  ix_apps : gset (option string);
  ix_edits : gset (option string);
  ix_registers : list (string * elem)
}.

Definition run_indices (inp : inputs) : indices :=
  Indices (merged_letter_pages inp)
          (attr_set "letterDesc" "letter" (meta_xml inp))
          (attr_set "personDef" "index" (references_xml inp))
          (attr_set "locationDef" "index" (references_xml inp))
          (attr_set "handDef" "index" (references_xml inp))
          (attr_set "appDef" "index" (references_xml inp))
          (attr_set "editreason" "index" (edits_xml inp))
          (register_trees inp).

(** A reference attribute that resolves: it has no non-empty value, or its
    value is in the identifier set. *)
Definition resolves (refs : gset (option string)) (attr : string) (e : elem) : Prop :=
  ∀ v, has_value e attr v → Some v ∈ refs.

(** A link whose targets exist in the registers. *)
Definition link_ok (regs : list (string * elem)) (link_elem : elem) : Prop :=
  (∀ v, has_value link_elem "ref" v →
        v ∈ all_ids "kommentar" regs ∨ v ∈ all_ids "subsection" regs)
  ∧ (∀ v, has_value link_elem "subref" v → v ∈ all_ids "subsection" regs).

(** An internal link whose letter is known and whose place was recorded. *)
Definition intlink_ok (ix : indices) (intlink : elem) : Prop :=
  ∃ l, has_value intlink "letter" l ∧ Some l ∈ ix_letters ix
       ∧ intlink_target (ix_pages ix) intlink l.

(** A marginal note whose letter is known and whose line was recorded. *)
Definition marginal_ok (ix : indices) (marginal_elem : elem) : Prop :=
  get marginal_elem "letter" ∈ ix_letters ix
  ∧ ∃ l p x, get marginal_elem "letter" = Some l
             ∧ get marginal_elem "page" = Some p
             ∧ get marginal_elem "line" = Some x
             ∧ x ∈ lines_of (ix_pages ix) l p.

(** The documents searched for internal links (step 9), with their file names. *)
Definition intlink_documents (inp : inputs) : list (string * elem) :=
  [(traditions_file inp, traditions_xml inp);
   (marginalien_file inp, marginalien_xml inp)] ++ register_trees inp.

(** The documents searched for links to the commentary (step 11). *)
Definition link_documents (inp : inputs) : list (string * elem) :=
  [(meta_file inp, meta_xml inp);
   (references_file inp, references_xml inp);
   (briefe_file inp, briefe_xml inp);
   (edits_file inp, edits_xml inp);
   (traditions_file inp, traditions_xml inp);
   (marginalien_file inp, marginalien_xml inp)] ++ register_trees inp.

(** The documents of a run, free of every defect that the validator looks
    for. *)
Definition valid_corpus (inp : inputs) : Prop :=
  let ix := run_indices inp in
  (clean_entries ∅ (all_entries "kommentar" (register_trees inp))
   ∧ clean_entries ∅ (all_entries "subsection" (register_trees inp)))
  ∧ (∀ d, d ∈ findall "letterDesc" (meta_xml inp) →
       (∀ e, e ∈ findall "sender" d → resolves (ix_persons ix) "ref" e)
       ∧ (∀ e, e ∈ findall "receiver" d → resolves (ix_persons ix) "ref" e)
       ∧ (∀ e, find "location" d = Some e → resolves (ix_locations ix) "ref" e))
  ∧ (∀ t, t ∈ findall "letterText" (briefe_xml inp) →
       resolves (ix_letters ix) "letter" t
       ∧ (∀ e, e ∈ findall "hand" t → resolves (ix_hands ix) "ref" e)
       ∧ (∀ e, e ∈ findall "edit" t → resolves (ix_edits ix) "ref" e))
  ∧ (∀ t, t ∈ findall "letterTradition" (traditions_xml inp) →
       resolves (ix_letters ix) "letter" t
       ∧ (∀ e, e ∈ findall "app" t → resolves (ix_apps ix) "ref" e)
       ∧ (∀ e, e ∈ findall "hand" t → resolves (ix_hands ix) "ref" e))
  ∧ (∀ d e, d ∈ intlink_documents inp → e ∈ findall "intlink" d.2 → intlink_ok ix e)
  ∧ (∀ e, e ∈ findall "marginal" (marginalien_xml inp) → marginal_ok ix e)
  ∧ (∀ d e, d ∈ link_documents inp → e ∈ findall "link" d.2 →
       link_ok (register_trees inp) e).

(** The defect of the entry [e] that the message [m] names, where [local]
    are the identifiers of the entries before it in its register and [global]
    those of all entries before it. *)
Definition entry_defect (kind : entry_kind) (local global : gset string) (e : elem)
    (m : message) : Prop :=
  (entry_id e = None ∧ m = missing_id kind)
  ∨ ∃ id, entry_id e = Some id
          ∧ ((id ∈ local ∧ m = duplicate_local kind id)
             ∨ (id ∈ global ∧ m = duplicate_global kind id)
             ∨ (¬ has_lemma e ∧ m = missing_lemma kind id)).

(** A run on the register that holds K1 twice. *)
Definition inputs_K1_twice : inputs :=
  inputs_with empty_doc empty_doc empty_doc empty_doc [("r.xml", register_K1_twice)].

Definition letterDesc_sender_P9 : elem :=
  Elem "letterDesc" [("letter", "L1")] (Some 2) [leaf "sender" [("ref", "P9")] 3].

(** The tag of the element that a message is about. *)
Definition element_tag (m : message) : string :=
  match m with
  | InvalidIntlinkLetter _ | NoPagesIntlink _ | InvalidIntlinkPage _ _
  | InvalidIntlinkLine _ _ _ | IntlinkLineNoPage _ _ => "intlink"
  | KommentarMissingId | DuplicateKommentarLocal _ | DuplicateKommentarGlobal _
  | KommentarMissingLemma _ => "kommentar"
  | SubsectionMissingId | DuplicateSubsectionLocal _ | DuplicateSubsectionGlobal _
  | SubsectionMissingLemma _ => "subsection"
  | InvalidLinkRef _ | InvalidLinkSubref _ => "link"
  | InvalidSenderRef _ _ => "sender"
  | InvalidReceiverRef _ _ => "receiver"
  | InvalidLocationRef _ _ => "location"
  | InvalidLetterReference _ => "letterText"
  | InvalidHandRefBrief _ _ | InvalidHandRefTrad _ _ => "hand"
  | InvalidEditRef _ _ => "edit"
  | InvalidLetterTradition _ => "letterTradition"
  | InvalidAppRef _ _ => "app"
  | InvalidMarginalLetter _ | NoPagesMarginal _ | InvalidMarginalPage _ _
  | InvalidMarginalLine _ _ _ => "marginal"
  end.

(** The violation [err] points to the element [e] of the document [d]. *)
Definition points_to (err : error) (d : string * elem) (e : elem) : Prop :=
  in_subtree e d.2 ∧ file err = d.1 ∧ line err = get_line_number e
  ∧ tag e = element_tag (msg err).

(** *** The defects of a corpus

    What is wrong with an element, for each violation a run can record
    about it. *)

(** The attribute [attr] of [e] is there, with the value [v], empty or not. *)
Definition present (e : elem) (attr v : string) : Prop := get e attr = Some v.

(** The messages about a reference that does not resolve. *)
Definition reference_message (m : message) : bool :=
  match m with
  | InvalidLinkRef _ | InvalidLinkSubref _ | InvalidSenderRef _ _
  | InvalidReceiverRef _ _ | InvalidLocationRef _ _ | InvalidLetterReference _
  | InvalidHandRefBrief _ _ | InvalidEditRef _ _ | InvalidLetterTradition _
  | InvalidAppRef _ _ | InvalidHandRefTrad _ _ => true
  | _ => false
  end.

(** The reference attributes that a run reads, other than those of the
    links: the element, its attribute, the identifier set the value is
    looked up in, the file and the message of the violation. *)
Inductive reference_read (inp : inputs) :
    elem → string → gset (option string) → string → (string → message) → Prop :=
  | read_sender d e :
      d ∈ findall "letterDesc" (meta_xml inp) → e ∈ findall "sender" d →
      reference_read inp e "ref" (attr_set "personDef" "index" (references_xml inp))
        (meta_file inp) (λ v, InvalidSenderRef v (get d "letter"))
  | read_receiver d e :
      d ∈ findall "letterDesc" (meta_xml inp) → e ∈ findall "receiver" d →
      reference_read inp e "ref" (attr_set "personDef" "index" (references_xml inp))
        (meta_file inp) (λ v, InvalidReceiverRef v (get d "letter"))
  | read_location d e :
      d ∈ findall "letterDesc" (meta_xml inp) → find "location" d = Some e →
      reference_read inp e "ref" (attr_set "locationDef" "index" (references_xml inp))
        (meta_file inp) (λ v, InvalidLocationRef v (get d "letter"))
  | read_letterText t :
      t ∈ findall "letterText" (briefe_xml inp) →
      reference_read inp t "letter" (attr_set "letterDesc" "letter" (meta_xml inp))
        (briefe_file inp) InvalidLetterReference
  | read_hand_brief t e :
      t ∈ findall "letterText" (briefe_xml inp) → e ∈ findall "hand" t →
      reference_read inp e "ref" (attr_set "handDef" "index" (references_xml inp))
        (briefe_file inp) (λ v, InvalidHandRefBrief v (get t "letter"))
  | read_edit t e :
      t ∈ findall "letterText" (briefe_xml inp) → e ∈ findall "edit" t →
      reference_read inp e "ref" (attr_set "editreason" "index" (edits_xml inp))
        (briefe_file inp) (λ v, InvalidEditRef v (get t "letter"))
  | read_letterTradition t :
      t ∈ findall "letterTradition" (traditions_xml inp) →
      reference_read inp t "letter" (attr_set "letterDesc" "letter" (meta_xml inp))
        (traditions_file inp) InvalidLetterTradition
  | read_app t e :
      t ∈ findall "letterTradition" (traditions_xml inp) → e ∈ findall "app" t →
      reference_read inp e "ref" (attr_set "appDef" "index" (references_xml inp))
        (traditions_file inp) (λ v, InvalidAppRef v (get t "letter"))
  | read_hand_trad t e :
      t ∈ findall "letterTradition" (traditions_xml inp) → e ∈ findall "hand" t →
      reference_read inp e "ref" (attr_set "handDef" "index" (references_xml inp))
        (traditions_file inp) (λ v, InvalidHandRefTrad v (get t "letter")).

(** A violation about a reference, and the element it is about: one of the
    attributes read has the value [v] (in the sense of [value]) and [v] is
    not in the identifier set of its kind; for a link, the sets are the ids
    of the entries and subsections of the registers. *)
Definition reference_defect (value : elem → string → string → Prop) (inp : inputs)
    (err : error) : Prop :=
  (∃ e attr refs file_path mk v,
     reference_read inp e attr refs file_path mk ∧ value e attr v ∧ (Some v ∉ refs)
     ∧ err = Error file_path (get_line_number e) (mk v))
  ∨ (∃ d e v,
       d ∈ link_documents inp ∧ e ∈ findall "link" d.2 ∧ value e "ref" v
       ∧ (v ∉ all_ids "kommentar" (register_trees inp))
       ∧ (v ∉ all_ids "subsection" (register_trees inp))
       ∧ err = Error d.1 (get_line_number e) (InvalidLinkRef v))
  ∨ (∃ d e v,
       d ∈ link_documents inp ∧ e ∈ findall "link" d.2 ∧ value e "subref" v
       ∧ (v ∉ all_ids "subsection" (register_trees inp))
       ∧ err = Error d.1 (get_line_number e) (InvalidLinkSubref v)).

(** What is wrong with an internal link, by message. *)
Inductive intlink_defect (ix : indices) (e : elem) : message → Prop :=
  | intlink_no_letter :
      no_value e "letter" → intlink_defect ix e (InvalidIntlinkLetter (get e "letter"))
  | intlink_unknown_letter :
      get e "letter" ∉ ix_letters ix →
      intlink_defect ix e (InvalidIntlinkLetter (get e "letter"))
  | intlink_no_pages l :
      has_value e "letter" l → Some l ∈ ix_letters ix →
      (∀ p x, x ∉ lines_of (ix_pages ix) l p) →
      intlink_defect ix e (NoPagesIntlink l)
  | intlink_unknown_page l p :
      has_value e "letter" l → Some l ∈ ix_letters ix →
      (∃ p' x, x ∈ lines_of (ix_pages ix) l p') →
      has_value e "page" p → (∀ x, x ∉ lines_of (ix_pages ix) l p) →
      intlink_defect ix e (InvalidIntlinkPage p l)
  | intlink_unknown_line l p x :
      has_value e "letter" l → Some l ∈ ix_letters ix →
      has_value e "page" p → (∃ x', x' ∈ lines_of (ix_pages ix) l p) →
      has_value e "line" x → x ∉ lines_of (ix_pages ix) l p →
      intlink_defect ix e (InvalidIntlinkLine x l p)
  | intlink_line_without_page l x :
      has_value e "letter" l → Some l ∈ ix_letters ix →
      (∃ p x', x' ∈ lines_of (ix_pages ix) l p) →
      no_value e "page" → has_value e "line" x →
      intlink_defect ix e (IntlinkLineNoPage x l).

(** What is wrong with a marginal note, by message. *)
Inductive marginal_defect (ix : indices) (e : elem) : message → Prop :=
  | marginal_unknown_letter :
      get e "letter" ∉ ix_letters ix →
      marginal_defect ix e (InvalidMarginalLetter (get e "letter"))
  | marginal_no_pages :
      get e "letter" ∈ ix_letters ix →
      (get e "letter" = None
       ∨ ∃ l, get e "letter" = Some l ∧ ∀ p x, x ∉ lines_of (ix_pages ix) l p) →
      marginal_defect ix e (NoPagesMarginal (get e "letter"))
  | marginal_unknown_page l :
      get e "letter" = Some l → Some l ∈ ix_letters ix →
      (∃ p x, x ∈ lines_of (ix_pages ix) l p) →
      (get e "page" = None
       ∨ ∃ p, get e "page" = Some p ∧ ∀ x, x ∉ lines_of (ix_pages ix) l p) →
      marginal_defect ix e (InvalidMarginalPage (Some l) (get e "page"))
  | marginal_unknown_line l p :
      get e "letter" = Some l → Some l ∈ ix_letters ix →
      get e "page" = Some p → (∃ x, x ∈ lines_of (ix_pages ix) l p) →
      (get e "line" = None
       ∨ ∃ x, get e "line" = Some x ∧ x ∉ lines_of (ix_pages ix) l p) →
      marginal_defect ix e (InvalidMarginalLine (Some l) (Some p) (get e "line")).

(** A violation about an internal link or a marginal note, and the element
    it is about. *)
Definition place_defect (inp : inputs) (err : error) : Prop :=
  (∃ d e m,
     d ∈ intlink_documents inp ∧ e ∈ findall "intlink" d.2
     ∧ intlink_defect (run_indices inp) e m
     ∧ err = Error d.1 (get_line_number e) m)
  ∨ (∃ e m,
       e ∈ findall "marginal" (marginalien_xml inp)
       ∧ marginal_defect (run_indices inp) e m
       ∧ err = Error (marginalien_file inp) (get_line_number e) m).

(** A violation about an entry or a subsection of a register, and the
    element it is about: [pre] are the entries before it in its register,
    [before] the registers before its own. *)
Definition registry_defect (regs : list (string * elem)) (err : error) : Prop :=
  ∃ before r after pre e post m,
    regs = before ++ r :: after
    ∧ ((findall "kommentar" r.2 = pre ++ e :: post
        ∧ entry_defect kommentar_kind (ids_of pre)
                       (all_ids "kommentar" before ∪ ids_of pre) e m)
       ∨ (findall "subsection" r.2 = pre ++ e :: post
          ∧ entry_defect subsection_kind (ids_of pre)
                         (all_ids "subsection" before ∪ ids_of pre) e m))
    ∧ err = Error r.1 (get_line_number e) m.

(** The defects of the corpus of a run. *)
Definition run_defect (inp : inputs) (err : error) : Prop :=
  registry_defect (register_trees inp) err
  ∨ reference_defect has_value inp err
  ∨ place_defect inp err.

(** [e] is an element with tag [t] of a register of the run, reported under
    the file [file_path] and the line [ln]. *)
Definition entry_of (inp : inputs) (t file_path : string) (ln : line_no) (e : elem)
  : Prop :=
  ∃ r, r ∈ register_trees inp ∧ e ∈ findall t r.2
       ∧ file_path = r.1 ∧ ln = get_line_number e.

(** ** The sets as the interpreter holds them

    Python leaves open the order in which a set is iterated: it follows the
    hashes of the elements, which for strings change from one process to the
    next. To state that no such order reaches the output, the run is written
    down once more with every set as the list of its elements in the order
    they were added, and with the order of iteration as a parameter: some
    rearrangement of that list. The script iterates a set in one place,
    [line_set] in [merge_page_line_maps] (inside [update]); everywhere else it
    tests membership or adds an element. The dictionaries stay finite maps:
    their order of iteration is the order of insertion, which the language
    fixes, and the merge does not depend on it. *)

Record hash_order : Type := HashOrder {
  iteration : list string → list string;
  iteration_perm : ∀ s, iteration s ≡ₚ s
}.

(** Two orders of iteration: as added, and the other way round. *)
Definition insertion_order : hash_order := HashOrder (λ s, s) (λ s, reflexivity s).

Definition reversed_order : hash_order := HashOrder reverse reverse_Permutation.

Module Hashed.

Definition pyset (A : Type) : Type := list A.

(** [s.add(x)] *)
Definition add {A} `{EqDecision A} (x : A) (s : pyset A) : pyset A :=
  if decide (x ∈ s) then s else s ++ [x].

(** [s.update(t)]: each element of [t] is added, in the order in which the
    interpreter iterates [t]. *)
Definition update (h : hash_order) (s t : pyset string) : pyset string :=
  foldl (λ acc x, add x acc) s (iteration h t).

(** [{f(e) for e in l}] *)
Definition comprehension {A E} `{EqDecision A} (f : E → A) (l : list E) : pyset A :=
  foldl (λ acc e, add (f e) acc) [] l.

Abbreviation LocMap := (gmap string (gmap string (pyset string))).

Definition pages_of (m : LocMap) (l : string) : gmap string (pyset string) :=
  default ∅ (m !! l).

Definition lines_of (m : LocMap) (l p : string) : pyset string :=
  default [] (pages_of m l !! p).

Definition add_line (l p x : string) (m : LocMap) : LocMap :=
  <[l := <[p := add x (lines_of m l p)]> (pages_of m l)]> m.

Definition update_lines (h : hash_order) (l p : string) (s : pyset string) (m : LocMap)
  : LocMap :=
  <[l := <[p := update h (lines_of m l p) s]> (pages_of m l)]> m.

Definition mem_opt (o : option string) (s : pyset string) : bool :=
  match o with
  | Some x => bool_decide (x ∈ s)
  | None => false
  end.

Record scan_state : Type := Scan {
  current_letter : option string;
  current_page : option string;
  letter_pages : LocMap
}.

Definition brief_step (st : scan_state) (e : elem) : scan_state :=
  if decide (tag e = "letterText") then
    Scan (get e "letter") (current_page st) (letter_pages st)
  else if decide (tag e = "page") then
    let page_index := get e "index" in
    if truthy page_index then Scan (current_letter st) page_index (letter_pages st)
    else st
  else if decide (tag e = "line") then
    let line_index := get e "index" in
    match truthy_val (current_letter st), truthy_val (current_page st),
          truthy_val line_index with
    | Some l, Some p, Some x =>
        Scan (current_letter st) (current_page st) (add_line l p x (letter_pages st))
    | _, _, _ => st
    end
  else st.

Definition brief_scan (doc_elem : elem) : scan_state :=
  foldl brief_step (Scan None None ∅) (iter doc_elem).

Definition build_letter_page_line_map_brief (doc_root : elem) : LocMap :=
  let doc_elem := default doc_root (find "document" doc_root) in
  letter_pages (brief_scan doc_elem).

Definition trad_step (letter_id : string) (st : option string * LocMap) (e : elem)
  : option string * LocMap :=
  if decide (tag e = "page") then
    let pidx := get e "index" in
    if truthy pidx then (pidx, st.2) else st
  else if decide (tag e = "line") then
    let lidx := get e "index" in
    match truthy_val st.1, truthy_val lidx with
    | Some p, Some x => (st.1, add_line letter_id p x st.2)
    | _, _ => st
    end
  else st.

Definition trad_block (m : LocMap) (letter_trad : elem) : LocMap :=
  match truthy_val (get letter_trad "letter") with
  | Some letter_id => (foldl (trad_step letter_id) (None, m) (descendants letter_trad)).2
  | None => m
  end.

Definition build_letter_page_line_map_trad (trad_root : elem) : LocMap :=
  foldl trad_block ∅ (findall "letterTradition" trad_root).

Definition merge_page_line_maps (h : hash_order) (map_a map_b : LocMap) : LocMap :=
  map_fold (λ letter_id pages_dict acc,
              map_fold (λ page_id line_set acc',
                          update_lines h letter_id page_id line_set acc')
                       acc pages_dict)
           map_a map_b.

Definition intlink_body (file_path : string) (letter_pages : LocMap)
    (letter_refs : pyset (option string)) (intlink : elem) : list error :=
  let line_no := get_line_number intlink in
  let letter_id := get intlink "letter" in
  let page_id := get intlink "page" in
  let line_id := get intlink "line" in
  match truthy_val letter_id with
  | None => [Error file_path line_no (InvalidIntlinkLetter letter_id)]
  | Some l =>
      if bool_decide (letter_id ∉ letter_refs)
      then [Error file_path line_no (InvalidIntlinkLetter letter_id)]
      else
        match letter_pages !! l with
        | None => [Error file_path line_no (NoPagesIntlink l)]
        | Some pages =>
            match truthy_val page_id with
            | Some p =>
                match pages !! p with
                | None => [Error file_path line_no (InvalidIntlinkPage p l)]
                | Some lines =>
                    match truthy_val line_id with
                    | Some x =>
                        if bool_decide (x ∉ lines)
                        then [Error file_path line_no (InvalidIntlinkLine x l p)]
                        else []
                    | None => []
                    end
                end
            | None =>
                match truthy_val line_id with
                | Some x => [Error file_path line_no (IntlinkLineNoPage x l)]
                | None => []
                end
            end
        end
  end.

Definition validate_intlinks (xml_root : elem) (file_path : string)
    (letter_pages : LocMap) (letter_refs : pyset (option string))
    (errors : list error) : list error :=
  for_each (findall "intlink" xml_root)
           (intlink_body file_path letter_pages letter_refs) errors.

Record gather_state : Type := Gather {
  g_errors : list error;
  g_local : pyset string;
  g_global : pyset string
}.

Definition entry_step (kind : entry_kind) (file_path : string) (st : gather_state)
    (e : elem) : gather_state :=
  let ln := get_line_number e in
  match truthy_val (get e "id") with
  | None => Gather (g_errors st ++ [Error file_path ln (missing_id kind)])
                   (g_local st) (g_global st)
  | Some id =>
      let '(errors1, local) :=
        if bool_decide (id ∈ g_local st)
        then (g_errors st ++ [Error file_path ln (duplicate_local kind id)], g_local st)
        else (g_errors st, add id (g_local st)) in
      let '(errors2, global) :=
        if bool_decide (id ∈ g_global st)
        then (errors1 ++ [Error file_path ln (duplicate_global kind id)], g_global st)
        else (errors1, add id (g_global st)) in
      let errors3 :=
        if lemma_missing e
        then errors2 ++ [Error file_path ln (missing_lemma kind id)]
        else errors2 in
      Gather errors3 local global
  end.

Record registry : Type := Registry {
  r_errors : list error;
  global_kommentar_ids : pyset string;
  global_subsection_ids : pyset string
}.

Definition gather_commentaries_and_subsections (xml_root : elem) (file_path : string)
    (reg : registry) : registry :=
  let k := foldl (entry_step kommentar_kind file_path)
                 (Gather (r_errors reg) [] (global_kommentar_ids reg))
                 (findall "kommentar" xml_root) in
  let s := foldl (entry_step subsection_kind file_path)
                 (Gather (g_errors k) [] (global_subsection_ids reg))
                 (findall "subsection" xml_root) in
  Registry (g_errors s) (g_global k) (g_global s).

Definition link_ref_check (file_path : string) (kommentar_ids subsection_ids : pyset string)
    (link_elem : elem) : list error :=
  match truthy_val (get link_elem "ref") with
  | Some refval =>
      if bool_decide (refval ∉ kommentar_ids) && bool_decide (refval ∉ subsection_ids)
      then [Error file_path (get_line_number link_elem) (InvalidLinkRef refval)]
      else []
  | None => []
  end.

Definition link_subref_check (file_path : string) (subsection_ids : pyset string)
    (link_elem : elem) : list error :=
  match truthy_val (get link_elem "subref") with
  | Some subrefval =>
      if bool_decide (subrefval ∉ subsection_ids)
      then [Error file_path (get_line_number link_elem) (InvalidLinkSubref subrefval)]
      else []
  | None => []
  end.

Definition link_body (file_path : string) (kommentar_ids subsection_ids : pyset string)
    (link_elem : elem) : list error :=
  link_ref_check file_path kommentar_ids subsection_ids link_elem
  ++ link_subref_check file_path subsection_ids link_elem.

Definition validate_links_for_commentary (xml_root : elem) (file_path : string)
    (kommentar_ids subsection_ids : pyset string) (errors : list error) : list error :=
  for_each (findall "link" xml_root)
           (link_body file_path kommentar_ids subsection_ids) errors.

Definition ref_check (file_path : string) (refs : pyset (option string))
    (attr : string) (mk : string → message) (e : elem) : list error :=
  match truthy_val (get e attr) with
  | Some ref =>
      if bool_decide (Some ref ∉ refs)
      then [Error file_path (get_line_number e) (mk ref)]
      else []
  | None => []
  end.

Definition attr_set (t attr : string) (root : elem) : pyset (option string) :=
  comprehension (λ e, get e attr) (findall t root).

Definition letterDesc_body (meta_file : string)
    (person_refs location_refs : pyset (option string))
    (letter : elem) (errors : list error) : list error :=
  let letter_id := get letter "letter" in
  let errors :=
    for_each (findall "sender" letter)
      (ref_check meta_file person_refs "ref" (λ ref, InvalidSenderRef ref letter_id)) errors in
  let errors :=
    for_each (findall "receiver" letter)
      (ref_check meta_file person_refs "ref" (λ ref, InvalidReceiverRef ref letter_id)) errors in
  match find "location" letter with
  | Some loc_elem =>
      errors ++ ref_check meta_file location_refs "ref"
                          (λ r, InvalidLocationRef r letter_id) loc_elem
  | None => errors
  end.

Definition letterText_body (briefe_file : string)
    (letter_refs hand_refs edit_refs : pyset (option string))
    (letter_text : elem) (errors : list error) : list error :=
  let letter_id := get letter_text "letter" in
  let errors :=
    errors ++ ref_check briefe_file letter_refs "letter" InvalidLetterReference letter_text in
  let errors :=
    for_each (findall "hand" letter_text)
      (ref_check briefe_file hand_refs "ref" (λ ref, InvalidHandRefBrief ref letter_id)) errors in
  for_each (findall "edit" letter_text)
    (ref_check briefe_file edit_refs "ref" (λ ref, InvalidEditRef ref letter_id)) errors.

Definition letterTradition_body (traditions_file : string)
    (letter_refs app_refs hand_refs : pyset (option string))
    (tradition : elem) (errors : list error) : list error :=
  let letter_id := get tradition "letter" in
  let errors :=
    errors ++ ref_check traditions_file letter_refs "letter" InvalidLetterTradition tradition in
  let errors :=
    for_each (findall "app" tradition)
      (ref_check traditions_file app_refs "ref" (λ ref, InvalidAppRef ref letter_id)) errors in
  for_each (findall "hand" tradition)
    (ref_check traditions_file hand_refs "ref" (λ ref, InvalidHandRefTrad ref letter_id)) errors.

Definition marginal_body (marginalien_file : string) (letter_pages : LocMap)
    (letter_refs : pyset (option string)) (marginal_elem : elem) : list error :=
  let letter_id := get marginal_elem "letter" in
  let page_id := get marginal_elem "page" in
  let line_id := get marginal_elem "line" in
  let ln := get_line_number marginal_elem in
  if bool_decide (letter_id ∉ letter_refs)
  then [Error marginalien_file ln (InvalidMarginalLetter letter_id)]
  else
    match lookup_opt letter_id letter_pages with
    | None => [Error marginalien_file ln (NoPagesMarginal letter_id)]
    | Some pages =>
        match lookup_opt page_id pages with
        | None => [Error marginalien_file ln (InvalidMarginalPage letter_id page_id)]
        | Some lines =>
            if mem_opt line_id lines then []
            else [Error marginalien_file ln (InvalidMarginalLine letter_id page_id line_id)]
        end
    end.

Definition gather_registers (register_trees : list (string * elem)) (reg : registry)
  : registry :=
  foldl (λ reg r, gather_commentaries_and_subsections r.2 r.1 reg) reg register_trees.

Definition merged_letter_pages (h : hash_order) (inp : inputs) : LocMap :=
  merge_page_line_maps h (build_letter_page_line_map_brief (briefe_xml inp))
                         (build_letter_page_line_map_trad (traditions_xml inp)).

Definition collect_errors (h : hash_order) (inp : inputs) : list error :=
  let person_refs := attr_set "personDef" "index" (references_xml inp) in
  let location_refs := attr_set "locationDef" "index" (references_xml inp) in
  let hand_refs := attr_set "handDef" "index" (references_xml inp) in
  let app_refs := attr_set "appDef" "index" (references_xml inp) in
  let edit_refs := attr_set "editreason" "index" (edits_xml inp) in
  let letter_refs := attr_set "letterDesc" "letter" (meta_xml inp) in
  let errors := [] in
  (* 4 *)
  let reg := gather_registers (register_trees inp) (Registry errors [] []) in
  let errors := r_errors reg in
  let kommentar_ids := global_kommentar_ids reg in
  let subsection_ids := global_subsection_ids reg in
  (* 5 *)
  let errors :=
    foldl (λ errors letter,
             letterDesc_body (meta_file inp) person_refs location_refs letter errors)
          errors (findall "letterDesc" (meta_xml inp)) in
  (* 6 *)
  let errors :=
    foldl (λ errors letter_text,
             letterText_body (briefe_file inp) letter_refs hand_refs edit_refs
                             letter_text errors)
          errors (findall "letterText" (briefe_xml inp)) in
  (* 7 *)
  let errors :=
    foldl (λ errors tradition,
             letterTradition_body (traditions_file inp) letter_refs app_refs hand_refs
                                  tradition errors)
          errors (findall "letterTradition" (traditions_xml inp)) in
  (* 8 *)
  let letter_pages := merged_letter_pages h inp in
  (* 9 *)
  let errors :=
    validate_intlinks (traditions_xml inp) (traditions_file inp) letter_pages letter_refs errors in
  let errors :=
    validate_intlinks (marginalien_xml inp) (marginalien_file inp) letter_pages letter_refs errors in
  let errors :=
    foldl (λ errors r, validate_intlinks r.2 r.1 letter_pages letter_refs errors)
          errors (register_trees inp) in
  (* 10 *)
  let errors :=
    for_each (findall "marginal" (marginalien_xml inp))
             (marginal_body (marginalien_file inp) letter_pages letter_refs) errors in
  (* 11 *)
  let validate_links_in_tree root path errors :=
    validate_links_for_commentary root path kommentar_ids subsection_ids errors in
  let errors := validate_links_in_tree (meta_xml inp) (meta_file inp) errors in
  let errors := validate_links_in_tree (references_xml inp) (references_file inp) errors in
  let errors := validate_links_in_tree (briefe_xml inp) (briefe_file inp) errors in
  let errors := validate_links_in_tree (edits_xml inp) (edits_file inp) errors in
  let errors := validate_links_in_tree (traditions_xml inp) (traditions_file inp) errors in
  let errors := validate_links_in_tree (marginalien_xml inp) (marginalien_file inp) errors in
  foldl (λ errors r, validate_links_in_tree r.2 r.1 errors) errors (register_trees inp).

Definition validate_references (h : hash_order) (inp : inputs) : list string * nat :=
  match collect_errors h inp with
  | [] => (["All references are valid."], 0)
  | errors => (render_error <$> errors, 1)
  end.

End Hashed.

(** What the script writes to the standard output: each printed string,
    followed by a line feed. *)
Definition stdout (printed : list string) : string :=
  foldr (λ line out, line +:+ String (Ascii.ascii_of_nat 10) out) "" printed.

(** The set that a list of elements stands for, and the same for the line
    sets of a location map and for the states of the loops. *)
Definition set_of {A} `{Countable A} (s : Hashed.pyset A) : gset A := list_to_set s.

Definition map_of (m : Hashed.LocMap) : LocMap :=
  (λ pd : gmap string (Hashed.pyset string), set_of (A:=string) <$> pd) <$> m.

Definition scan_of (st : Hashed.scan_state) : scan_state :=
  Scan (Hashed.current_letter st) (Hashed.current_page st)
       (map_of (Hashed.letter_pages st)).

Definition trad_of (st : option string * Hashed.LocMap) : option string * LocMap :=
  (st.1, map_of st.2).

Definition gather_of (st : Hashed.gather_state) : gather_state :=
  Gather (Hashed.g_errors st) (set_of (Hashed.g_local st)) (set_of (Hashed.g_global st)).

Definition registry_of (reg : Hashed.registry) : registry :=
  Registry (Hashed.r_errors reg) (set_of (Hashed.global_kommentar_ids reg))
           (set_of (Hashed.global_subsection_ids reg)).

(** A tradition whose page 3 of L1 has the lines 7 and 8, on an empty
    transcription. *)
Definition inputs_two_tradition_lines : inputs :=
  inputs_with meta_L1 empty_doc
    (Elem "opus" [] (Some 1)
       [Elem "letterTradition" [("letter", "L1")] (Some 2)
          [leaf "page" [("index", "3")] 3; leaf "line" [("index", "7")] 4;
           leaf "line" [("index", "8")] 5;
           leaf "intlink" [("letter", "L1"); ("page", "3"); ("line", "9")] 6]])
    empty_doc [].

(** How many elements with tag [t] of the registers have no id, or an empty
    one. *)
Definition entries_without_id (t : string) (register_trees : list (string * elem))
  : nat :=
  length (filter (λ e, entry_id e = None) (all_entries t register_trees)).

(** * Properties *)

(** ** Loops that append *)

Lemma for_each_spec {A} (l : list A) (body : A → list error) (errors : list error) :
  for_each l body errors = errors ++ flat_map body l.
Proof.
  unfold for_each. revert errors.
  induction l as [|x l IH]; intros errors; simpl.
  - by rewrite app_nil_r.
  - by rewrite IH, <- app_assoc.
Qed.

(** ** The location map *)

Section location_map.
Implicit Types (m a b : LocMap) (l p x : string) (s : gset string).

Lemma pages_of_insert m l l' pd :
  pages_of (<[l' := pd]> m) l = if decide (l' = l) then pd else pages_of m l.
Proof.
  unfold pages_of. rewrite lookup_insert. by case_decide.
Qed.

Lemma pages_of_update_lines m l p l' p' s :
  pages_of (update_lines l' p' s m) l !! p =
  if decide (l' = l ∧ p' = p) then Some (lines_of m l p ∪ s)
  else pages_of m l !! p.
Proof.
  unfold update_lines. rewrite pages_of_insert.
  destruct (decide (l' = l)) as [->|Hl].
  - rewrite lookup_insert.
    destruct (decide (p' = p)) as [->|Hp].
    + by rewrite decide_True.
    + rewrite decide_False; [done|by intros [? ?]].
  - rewrite decide_False; [done|by intros [? ?]].
Qed.

Lemma pages_of_add_line m l p l' p' x :
  pages_of (add_line l' p' x m) l !! p =
  if decide (l' = l ∧ p' = p) then Some ({[x]} ∪ lines_of m l p)
  else pages_of m l !! p.
Proof.
  unfold add_line. rewrite pages_of_insert.
  destruct (decide (l' = l)) as [->|Hl].
  - rewrite lookup_insert.
    destruct (decide (p' = p)) as [->|Hp].
    + by rewrite decide_True.
    + rewrite decide_False; [done|by intros [? ?]].
  - rewrite decide_False; [done|by intros [? ?]].
Qed.

Lemma join_lines_step (o : option (gset string)) s :
  Some (default ∅ o ∪ s) = join_lines o (Some s).
Proof. destruct o; simpl; [done|]. by rewrite (left_id_L ∅ (∪)). Qed.

(** The inner loop of the merge, over the pages of one letter. *)
Lemma merge_inner acc l0 (pd : gmap string (gset string)) l p :
  pages_of (map_fold (λ page_id line_set acc',
                        update_lines l0 page_id line_set acc') acc pd) l !! p =
  if decide (l0 = l) then join_lines (pages_of acc l !! p) (pd !! p)
  else pages_of acc l !! p.
Proof.
  revert l p.
  apply (map_fold_weak_ind (λ r (pd' : gmap string (gset string)), ∀ l p,
    pages_of r l !! p =
    if decide (l0 = l) then join_lines (pages_of acc l !! p) (pd' !! p)
    else pages_of acc l !! p)).
  - intros l p. rewrite lookup_empty. case_decide; [|done].
    by destruct (pages_of acc l !! p).
  - intros p0 s pd' r Hfresh IH l p.
    rewrite pages_of_update_lines. unfold lines_of.
    rewrite IH. destruct (decide (l0 = l)) as [->|Hl].
    + destruct (decide (p0 = p)) as [->|Hp].
      * rewrite decide_True by done. rewrite lookup_insert_eq, Hfresh.
        rewrite <- join_lines_step. f_equal. f_equal.
        by destruct (pages_of acc l !! p).
      * rewrite decide_False by (by intros [? ?]). by rewrite lookup_insert_ne.
    + by rewrite decide_False by (by intros [? ?]).
Qed.

Lemma merge_lookup a b l p :
  pages_of (merge_page_line_maps a b) l !! p =
  join_lines (pages_of a l !! p) (pages_of b l !! p).
Proof.
  unfold merge_page_line_maps. revert l p.
  apply (map_fold_weak_ind (λ r (b' : LocMap), ∀ l p,
    pages_of r l !! p = join_lines (pages_of a l !! p) (pages_of b' l !! p))).
  - intros l p. unfold pages_of at 3. rewrite lookup_empty. simpl.
    rewrite lookup_empty. by destruct (pages_of a l !! p).
  - intros l0 pd b' r Hfresh IH l p.
    rewrite merge_inner, pages_of_insert, !IH.
    destruct (decide (l0 = l)) as [->|Hl]; [|done].
    unfold pages_of at 2. rewrite Hfresh. simpl. rewrite lookup_empty.
    by destruct (pages_of a l !! p), (pd !! p).
Qed.
Lemma merge_lines a b l p :
  lines_of (merge_page_line_maps a b) l p = lines_of a l p ∪ lines_of b l p.
Proof.
  unfold lines_of. rewrite merge_lookup.
  destruct (pages_of a l !! p), (pages_of b l !! p);
    simpl; by rewrite ?(right_id_L ∅ (∪)), ?(left_id_L ∅ (∪)).
Qed.

End location_map.

(** C4. The merged location map is, per (letter, page), the union of the two
    maps it is built from: a page is known under a letter when one of the two
    maps knows it, and its line set is the union of the two line sets, so no
    recorded (page, line) pair of either scan is lost. In a run the two maps
    are those of the transcription scan and of the tradition scan. *)
Theorem merge_page_line_maps_union (map_a map_b : LocMap) (letter page : string) :
  pages_of (merge_page_line_maps map_a map_b) letter !! page
    = join_lines (pages_of map_a letter !! page) (pages_of map_b letter !! page)
  ∧ lines_of (merge_page_line_maps map_a map_b) letter page
    = lines_of map_a letter page ∪ lines_of map_b letter page
  ∧ (∀ x, x ∈ lines_of map_a letter page ∨ x ∈ lines_of map_b letter page →
          x ∈ lines_of (merge_page_line_maps map_a map_b) letter page)
  ∧ (∀ inp x,
       x ∈ lines_of (merged_letter_pages inp) letter page
       ↔ x ∈ lines_of (build_letter_page_line_map_brief (briefe_xml inp)) letter page
         ∨ x ∈ lines_of (build_letter_page_line_map_trad (traditions_xml inp)) letter page).
Proof.
  split; [apply merge_lookup|]. split; [apply merge_lines|]. split.
  - intros x Hx. rewrite merge_lines. by apply elem_of_union.
  - intros inp x. unfold merged_letter_pages. rewrite merge_lines.
    apply elem_of_union.
Qed.

(** Closed decidable facts about the sample documents, by evaluation. *)
Ltac by_eval := apply (bool_decide_unpack _); vm_compute; exact I.

(** ** Truth tests *)

Lemma truthy_val_Some o v : truthy_val o = Some v ↔ o = Some v ∧ v ≠ "".
Proof.
  unfold truthy_val. destruct o as [[|c s']|]; simpl.
  - split; [done|]. by intros [[= <-] ?].
  - split; [by intros [= <-]|]. by intros [[= <-] _].
  - split; [done|]. by intros [? _].
Qed.

Lemma truthy_val_None o : truthy_val o = None ↔ o = None ∨ o = Some "".
Proof.
  unfold truthy_val. destruct o as [[|c s']|]; simpl.
  - split; auto.
  - split; [done|]. by intros [?|?].
  - split; auto.
Qed.

Lemma has_value_truthy e attr v : has_value e attr v → truthy_val (get e attr) = Some v.
Proof. intros H. by apply truthy_val_Some. Qed.

Lemma no_value_truthy e attr : no_value e attr → truthy_val (get e attr) = None.
Proof. intros H. by apply truthy_val_None. Qed.

(** ** Internal links *)

Lemma validate_intlinks_spec xml_root file_path (lp : LocMap) letter_refs errors :
  validate_intlinks xml_root file_path lp letter_refs errors
  = errors ++ flat_map (intlink_body file_path lp letter_refs) (findall "intlink" xml_root).
Proof. apply for_each_spec. Qed.

Lemma lookup_pages_of (lp : LocMap) l pages :
  lp !! l = Some pages → pages_of lp l = pages.
Proof. unfold pages_of. by intros ->. Qed.

(** ** Commentary entries and subsections *)

Lemma count_msg_app m (a b : list error) :
  count_msg m (a ++ b) = count_msg m a + count_msg m b.
Proof. unfold count_msg. by rewrite filter_app, length_app. Qed.

Lemma count_msg_one m (err : error) :
  count_msg m [err] = if decide (msg err = m) then 1 else 0.
Proof.
  unfold count_msg. rewrite filter_cons, filter_nil.
  by destruct (decide (msg err = m)).
Qed.

Lemma count_msg_cons m (err : error) l :
  count_msg m (err :: l) = (if decide (msg err = m) then 1 else 0) + count_msg m l.
Proof.
  unfold count_msg. rewrite filter_cons. by destruct (decide (msg err = m)).
Qed.

Lemma with_entry_mono ids e : ids ⊆ with_entry ids e.
Proof. unfold with_entry. destruct (entry_id e); set_solver. Qed.

Lemma with_entry_elem ids e id :
  id ∈ with_entry ids e ↔ id ∈ ids ∨ entry_id e = Some id.
Proof.
  unfold with_entry. destruct (entry_id e) as [id'|].
  - rewrite elem_of_union, elem_of_singleton. naive_solver.
  - naive_solver.
Qed.

Section entry_loop.
Variable kind : entry_kind.
Variable file_path : string.

Lemma entry_step_errors st e :
  g_errors (entry_step kind file_path st e)
  = g_errors st ++ entry_new kind file_path (g_local st) (g_global st) e.
Proof.
  unfold entry_step, entry_new, entry_id.
  destruct (truthy_val (get e "id")) as [id|]; [|done].
  destruct (bool_decide (id ∈ g_local st)), (bool_decide (id ∈ g_global st)),
    (lemma_missing e); simpl; by rewrite <- ?app_assoc, ?app_nil_r.
Qed.

Lemma entry_step_local st e :
  g_local (entry_step kind file_path st e) = with_entry (g_local st) e.
Proof.
  unfold entry_step, with_entry, entry_id.
  destruct (truthy_val (get e "id")) as [id|]; [|done].
  destruct (bool_decide_reflect (id ∈ g_local st)) as [Hin|Hin],
    (bool_decide (id ∈ g_global st)); simpl; try done;
    symmetry; apply subseteq_union_1_L; by apply singleton_subseteq_l.
Qed.

Lemma entry_step_global st e :
  g_global (entry_step kind file_path st e) = with_entry (g_global st) e.
Proof.
  unfold entry_step, with_entry, entry_id.
  destruct (truthy_val (get e "id")) as [id|]; [|done].
  destruct (bool_decide (id ∈ g_local st)),
    (bool_decide_reflect (id ∈ g_global st)) as [Hin|Hin]; simpl; try done;
    symmetry; apply subseteq_union_1_L; by apply singleton_subseteq_l.
Qed.

Lemma entry_loop_errors l st :
  g_errors (foldl (entry_step kind file_path) st l)
  = g_errors st ++ entry_loop_new kind file_path (g_local st) (g_global st) l.
Proof.
  revert st. induction l as [|e l IH]; intros st; simpl.
  - by rewrite app_nil_r.
  - by rewrite IH, entry_step_errors, entry_step_local, entry_step_global, <- app_assoc.
Qed.

Lemma entry_loop_global l st :
  g_global (foldl (entry_step kind file_path) st l) = g_global st ∪ ids_of l.
Proof.
  revert st. induction l as [|e l IH]; intros st; simpl.
  - unfold ids_of. simpl. by rewrite (right_id_L ∅ (∪)).
  - rewrite IH, entry_step_global. unfold ids_of, with_entry. simpl.
    destruct (entry_id e); simpl; set_solver.
Qed.

Lemma entry_loop_local l st :
  g_local (foldl (entry_step kind file_path) st l) = g_local st ∪ ids_of l.
Proof.
  revert st. induction l as [|e l IH]; intros st; simpl.
  - unfold ids_of. simpl. by rewrite (right_id_L ∅ (∪)).
  - rewrite IH, entry_step_local. unfold ids_of, with_entry. simpl.
    destruct (entry_id e); simpl; set_solver.
Qed.

Lemma entry_loop_new_app local global l1 l2 :
  entry_loop_new kind file_path local global (l1 ++ l2)
  = entry_loop_new kind file_path local global l1
    ++ entry_loop_new kind file_path (local ∪ ids_of l1) (global ∪ ids_of l1) l2.
Proof.
  revert local global. induction l1 as [|e l1 IH]; intros local global; simpl.
  - unfold ids_of. simpl. by rewrite !(right_id_L ∅ (∪)).
  - rewrite IH, <- app_assoc. do 3 f_equal.
    + unfold ids_of, with_entry. simpl. destruct (entry_id e); simpl; set_solver.
    + unfold ids_of, with_entry. simpl. destruct (entry_id e); simpl; set_solver.
Qed.

End entry_loop.

Lemma elem_of_ids_of id l : id ∈ ids_of l ↔ ∃ e, e ∈ l ∧ entry_id e = Some id.
Proof.
  unfold ids_of. rewrite elem_of_list_to_set, list_elem_of_omap. naive_solver.
Qed.

Lemma occurrences_cons id e l :
  occurrences id (e :: l)
  = (if decide (entry_id e = Some id) then 1 else 0) + occurrences id l.
Proof.
  unfold occurrences. rewrite filter_cons.
  by destruct (decide (entry_id e = Some id)).
Qed.

Lemma occurrences_pos id l : id ∈ ids_of l ↔ 0 < occurrences id l.
Proof.
  rewrite elem_of_ids_of. induction l as [|e l IH].
  - split; [intros (e & He & _); by apply elem_of_nil in He|]. unfold occurrences.
    simpl. lia.
  - rewrite occurrences_cons. split.
    + intros (e' & [->|He']%elem_of_cons & Hid).
      * rewrite decide_True by done. lia.
      * assert (0 < occurrences id l) by (apply IH; eauto). lia.
    + destruct (decide (entry_id e = Some id)) as [Hid|Hid].
      * intros _. exists e. split; [apply list_elem_of_here|done].
      * intros Hpos. destruct IH as [_ IH]. destruct IH as (e' & He' & Hid'); [lia|].
        exists e'. split; [by apply list_elem_of_further|done].
Qed.

Lemma kommentar_kind_ok : kind_ok kommentar_kind.
Proof. split; simpl; congruence. Qed.

Lemma subsection_kind_ok : kind_ok subsection_kind.
Proof. split; simpl; congruence. Qed.

Lemma subsection_foreign_kommentar id :
  foreign subsection_kind (DuplicateKommentarGlobal id).
Proof. split; [done|]. by intros id'. Qed.

Lemma kommentar_foreign_subsection id :
  foreign kommentar_kind (DuplicateSubsectionGlobal id).
Proof. split; [done|]. by intros id'. Qed.

Section entry_count.
Variable kind : entry_kind.
Variable file_path : string.

Lemma count_entry_new_foreign m local global e :
  foreign kind m → count_msg m (entry_new kind file_path local global e) = 0.
Proof.
  intros [Hm Hid]. unfold entry_new.
  destruct (entry_id e) as [id|].
  - destruct (Hid id) as (Hl & Hg & Hle).
    destruct (bool_decide (id ∈ local)), (bool_decide (id ∈ global)), (lemma_missing e);
      simpl; rewrite ?count_msg_cons; simpl;
      rewrite ?decide_False by congruence; done.
  - rewrite count_msg_one. simpl. by rewrite decide_False by congruence.
Qed.

Lemma count_entry_loop_foreign m l local global :
  foreign kind m → count_msg m (entry_loop_new kind file_path local global l) = 0.
Proof.
  intros Hm. revert local global. induction l as [|e l IH]; intros local global; simpl.
  - done.
  - by rewrite count_msg_app, count_entry_new_foreign, IH.
Qed.

Hypothesis ok : kind_ok kind.

Lemma count_entry_new_global id local global e :
  count_msg (duplicate_global kind id) (entry_new kind file_path local global e)
  = if decide (entry_id e = Some id ∧ id ∈ global) then 1 else 0.
Proof.
  destruct ok as [Hmid Hloc Hlem Hinj]. unfold entry_new.
  destruct (entry_id e) as [id'|].
  - rewrite !count_msg_app.
    assert (count_msg (duplicate_global kind id)
              (if bool_decide (id' ∈ local)
               then [Error file_path (get_line_number e) (duplicate_local kind id')]
               else []) = 0) as ->.
    { destruct (bool_decide (id' ∈ local)); [|done].
      rewrite count_msg_one. simpl. rewrite decide_False; [done|].
      intros Heq. by apply (Hloc id id'). }
    assert (count_msg (duplicate_global kind id)
              (if lemma_missing e
               then [Error file_path (get_line_number e) (missing_lemma kind id')]
               else []) = 0) as ->.
    { destruct (lemma_missing e); [|done].
      rewrite count_msg_one. simpl. rewrite decide_False; [done|].
      intros Heq. by apply (Hlem id id'). }
    destruct (bool_decide_reflect (id' ∈ global)) as [Hin|Hin].
    + rewrite count_msg_one. simpl.
      destruct (decide (duplicate_global kind id' = duplicate_global kind id)) as [Heq|Hne].
      * apply Hinj in Heq as ->. by rewrite decide_True.
      * rewrite decide_False; [done|]. intros [Heq _]. by simplify_eq.
    + rewrite decide_False; [done|]. intros [Heq ?]. by simplify_eq.
  - rewrite count_msg_one. simpl.
    rewrite decide_False; [done|]. intros Heq. by apply (Hmid id).
Qed.

(** The global duplicates of one identifier over a run of entries: each
    entry that carries it, but the first when the pool did not hold it. *)
Lemma count_entry_loop_global id l local global :
  count_msg (duplicate_global kind id) (entry_loop_new kind file_path local global l)
  = if decide (id ∈ global) then occurrences id l else pred (occurrences id l).
Proof.
  revert local global. induction l as [|e l IH]; intros local global; simpl.
  - by destruct (decide (id ∈ global)).
  - rewrite count_msg_app, count_entry_new_global, IH, occurrences_cons.
    destruct (decide (entry_id e = Some id)) as [He|He].
    + rewrite (decide_True (P := id ∈ with_entry global e))
        by (apply with_entry_elem; by right).
      destruct (decide (id ∈ global)) as [Hin|Hin].
      * by rewrite decide_True.
      * rewrite decide_False by (by intros [_ ?]). simpl. done.
    + rewrite decide_False by (by intros [? _]). simpl.
      destruct (decide (id ∈ global)) as [Hin|Hin].
      * rewrite decide_True; [done|]. apply with_entry_elem. by left.
      * rewrite decide_False; [done|]. intros [?|?]%with_entry_elem; done.
Qed.

End entry_count.

(** One register: what it appends, and the pools after it. *)
Lemma gather_errors xml_root file_path reg :
  r_errors (gather_commentaries_and_subsections xml_root file_path reg)
  = r_errors reg
    ++ entry_loop_new kommentar_kind file_path ∅ (global_kommentar_ids reg)
                      (findall "kommentar" xml_root)
    ++ entry_loop_new subsection_kind file_path ∅ (global_subsection_ids reg)
                      (findall "subsection" xml_root).
Proof.
  unfold gather_commentaries_and_subsections, kommentar_step, subsection_step. simpl.
  rewrite !entry_loop_errors. simpl. by rewrite <- app_assoc.
Qed.

Lemma gather_kommentar_ids xml_root file_path reg :
  global_kommentar_ids (gather_commentaries_and_subsections xml_root file_path reg)
  = global_kommentar_ids reg ∪ ids_of (findall "kommentar" xml_root).
Proof.
  unfold gather_commentaries_and_subsections, kommentar_step. simpl.
  by rewrite entry_loop_global.
Qed.

Lemma gather_subsection_ids xml_root file_path reg :
  global_subsection_ids (gather_commentaries_and_subsections xml_root file_path reg)
  = global_subsection_ids reg ∪ ids_of (findall "subsection" xml_root).
Proof.
  unfold gather_commentaries_and_subsections, subsection_step. simpl.
  by rewrite entry_loop_global.
Qed.

Lemma gather_registers_cons f root regs reg :
  gather_registers ((f, root) :: regs) reg
  = gather_registers regs (gather_commentaries_and_subsections root f reg).
Proof. done. Qed.

Lemma gather_registers_nil reg : gather_registers [] reg = reg.
Proof. done. Qed.

Lemma gather_registers_kommentar_ids regs reg :
  global_kommentar_ids (gather_registers regs reg)
  = global_kommentar_ids reg ∪ all_ids "kommentar" regs.
Proof.
  unfold gather_registers, all_ids. revert reg.
  induction regs as [|r regs IH]; intros reg; simpl.
  - by rewrite (right_id_L ∅ (∪)).
  - by rewrite IH, gather_kommentar_ids, (assoc_L (∪)).
Qed.

Lemma gather_registers_subsection_ids regs reg :
  global_subsection_ids (gather_registers regs reg)
  = global_subsection_ids reg ∪ all_ids "subsection" regs.
Proof.
  unfold gather_registers, all_ids. revert reg.
  induction regs as [|r regs IH]; intros reg; simpl.
  - by rewrite (right_id_L ∅ (∪)).
  - by rewrite IH, gather_subsection_ids, (assoc_L (∪)).
Qed.

Lemma filter_eq_absent (id : string) (l : list string) :
  id ∉ l → filter (λ x, x = id) l = [].
Proof.
  induction l as [|y l IH]; intros Hnot; [done|].
  rewrite filter_cons. apply not_elem_of_cons in Hnot as [Hne Hnot].
  rewrite decide_False by done. by apply IH.
Qed.

Lemma count_in_pool (id : string) (pool : gset string) :
  id ∈ pool → length (filter (λ x, x = id) (elements pool)) = 1.
Proof.
  intros Hin. apply elem_of_elements in Hin.
  pose proof (NoDup_elements pool) as Hnd.
  induction Hnd as [|x l Hx Hnd IH]; [by apply elem_of_nil in Hin|].
  rewrite filter_cons. destruct (decide (x = id)) as [->|Hne].
  - simpl. by rewrite filter_eq_absent.
  - apply IH. apply elem_of_cons in Hin as [->|?]; done.
Qed.

Lemma link_ref_check_resolves file_path (kommentar_ids subsection_ids : gset string)
    link_elem id :
  get link_elem "ref" = Some id → id ∈ kommentar_ids ∨ id ∈ subsection_ids →
  link_ref_check file_path kommentar_ids subsection_ids link_elem = [].
Proof.
  intros Hget Hin. unfold link_ref_check. rewrite Hget.
  destruct (truthy_val (Some id)) as [id'|] eqn:Ht; [|done].
  apply truthy_val_Some in Ht as [[= <-] _].
  destruct Hin as [Hin|Hin].
  - by rewrite (bool_decide_false (id ∉ kommentar_ids)) by (by intros Hn).
  - rewrite (bool_decide_false (id ∉ subsection_ids)) by (by intros Hn).
    by rewrite andb_false_r.
Qed.

(** ** Trees *)

Lemma iter_unfold e : iter e = e :: descendants e.
Proof.
  by destruct e as [t a l cs].
Qed.

Lemma elem_tree_ind (P : elem → Prop) :
  (∀ t a l cs, Forall P cs → P (Elem t a l cs)) → ∀ e, P e.
Proof.
  intros step. fix IH 1. intros [t a l cs]. apply step.
  induction cs as [|c cs IHcs]; constructor; [apply IH|apply IHcs].
Qed.

Lemma elem_of_flat_map {A B} (f : A → list B) (l : list A) (y : B) :
  y ∈ flat_map f l ↔ ∃ x, x ∈ l ∧ y ∈ f x.
Proof.
  rewrite list_elem_of_In, in_flat_map. split; intros (x & Hx & Hy); exists x;
    by rewrite ?list_elem_of_In in *.
Qed.

(** The traversal reaches every depth: [descendants] is the whole subtree. *)
Lemma elem_of_descendants d e : d ∈ descendants e ↔ in_subtree d e.
Proof.
  split.
  - revert d. induction e as [t a l cs IH] using elem_tree_ind. intros d.
    unfold descendants. simpl. intros (c & Hc & Hd)%elem_of_flat_map.
    rewrite iter_unfold in Hd. apply elem_of_cons in Hd as [->|Hd].
    + by apply in_subtree_child.
    + apply in_subtree_deeper with c; [done|].
      rewrite Forall_forall in IH. by apply IH.
  - induction 1 as [d e Hd|d c e Hc _ IH]; unfold descendants;
      apply elem_of_flat_map.
    + exists d. split; [done|]. rewrite iter_unfold. apply list_elem_of_here.
    + exists c. split; [done|]. rewrite iter_unfold. by apply list_elem_of_further.
Qed.

Lemma elem_of_findall t root e :
  e ∈ findall t root ↔ tag e = t ∧ in_subtree e root.
Proof. unfold findall. by rewrite list_elem_of_filter, elem_of_descendants. Qed.

Lemma find_None t root : find t root = None ↔ ∀ d, in_subtree d root → tag d ≠ t.
Proof.
  unfold find. rewrite head_None. split.
  - intros Hnil d Hd Ht. assert (d ∈ findall t root) as Hin by by apply elem_of_findall.
    rewrite Hnil in Hin. by apply elem_of_nil in Hin.
  - intros Hno. destruct (findall t root) as [|d l] eqn:Hf; [done|].
    assert (d ∈ findall t root) as [Ht Hd]%elem_of_findall
      by (rewrite Hf; apply list_elem_of_here).
    by destruct (Hno d Hd).
Qed.

(** The lemma is looked for in the whole subtree of the entry. *)
Lemma lemma_missing_subtree e :
  lemma_missing e = true ↔ ∀ d, in_subtree d e → tag d ≠ "lemma".
Proof.
  rewrite <- find_None. unfold lemma_missing. by destruct (find "lemma" e).
Qed.

(** ** The registry across and within registers *)

Lemma occurrences_one_in id l : occurrences id l = 1 → id ∈ ids_of l.
Proof. intros H. apply occurrences_pos. lia. Qed.

Section entry_twice.
Variable kind : entry_kind.
Variable file_path : string.

(** An entry whose identifier was met before in the same file: the pool holds
    the identifier since that first entry, so both duplicate tests fire. *)
Lemma entry_new_seen local global e id :
  entry_id e = Some id → id ∈ local → id ∈ global →
  entry_new kind file_path local global e
  = [Error file_path (get_line_number e) (duplicate_local kind id);
     Error file_path (get_line_number e) (duplicate_global kind id)]
    ++ (if lemma_missing e
        then [Error file_path (get_line_number e) (missing_lemma kind id)] else []).
Proof.
  intros Hid Hl Hg. unfold entry_new. rewrite Hid.
  by rewrite !bool_decide_true by done.
Qed.

Lemma entry_loop_new_twice global before e1 mid e2 after id :
  entry_id e1 = Some id → entry_id e2 = Some id →
  entry_loop_new kind file_path ∅ global (before ++ e1 :: mid ++ e2 :: after)
  = entry_loop_new kind file_path ∅ global (before ++ e1 :: mid)
    ++ [Error file_path (get_line_number e2) (duplicate_local kind id);
        Error file_path (get_line_number e2) (duplicate_global kind id)]
    ++ (if lemma_missing e2
        then [Error file_path (get_line_number e2) (missing_lemma kind id)] else [])
    ++ entry_loop_new kind file_path
         (ids_of (before ++ e1 :: mid ++ [e2]))
         (global ∪ ids_of (before ++ e1 :: mid ++ [e2])) after.
Proof.
  intros H1 H2.
  assert (Hseen : id ∈ ids_of (before ++ e1 :: mid)).
  { apply elem_of_ids_of. exists e1. split; [|done].
    apply elem_of_app. right. apply list_elem_of_here. }
  replace (before ++ e1 :: mid ++ e2 :: after)
    with ((before ++ e1 :: mid) ++ e2 :: after)
    by (by rewrite <- app_assoc).
  rewrite entry_loop_new_app. simpl.
  rewrite (entry_new_seen _ _ e2 id) by (done || set_solver).
  rewrite <- !app_assoc. simpl. do 4 f_equal.
  assert (Hids : ids_of (before ++ e1 :: mid ++ [e2])
                 = {[id]} ∪ ids_of (before ++ e1 :: mid)).
  { unfold ids_of. replace (before ++ e1 :: mid ++ [e2])
      with ((before ++ e1 :: mid) ++ [e2]) by (by rewrite <- app_assoc).
    rewrite omap_app, list_to_set_app_L. simpl. fold (entry_id e2). rewrite H2.
    simpl. set_solver. }
  unfold with_entry. rewrite H2, Hids. f_equal; set_solver.
Qed.

End entry_twice.

(** C10. An identifier that an entry of a register carries again after an
    earlier entry of the same register: when the later entry is reached, it
    appends both the violation for a duplicate in this file and the one for a
    duplicate across registers, followed only by its own lemma violation if
    it has no lemma; the same holds for subsections; and the pool holds the
    identifier exactly once. *)
Theorem duplicate_within_one_register (xml_root : elem) (file_path : string)
    (reg : registry) (before mid after : list elem) (e1 e2 : elem) (id : string) :
  entry_id e1 = Some id → entry_id e2 = Some id →
  let reg' := gather_commentaries_and_subsections xml_root file_path reg in
  let ln := get_line_number e2 in
  (findall "kommentar" xml_root = before ++ e1 :: mid ++ e2 :: after →
     (∃ rest,
        r_errors reg'
        = (r_errors reg
           ++ entry_loop_new kommentar_kind file_path ∅ (global_kommentar_ids reg)
                             (before ++ e1 :: mid))
          ++ [Error file_path ln (DuplicateKommentarLocal id);
              Error file_path ln (DuplicateKommentarGlobal id)]
          ++ (if lemma_missing e2
              then [Error file_path ln (KommentarMissingLemma id)] else [])
          ++ rest)
     ∧ length (filter (λ x, x = id) (elements (global_kommentar_ids reg'))) = 1)
  ∧ (findall "subsection" xml_root = before ++ e1 :: mid ++ e2 :: after →
     (∃ rest,
        r_errors reg'
        = (r_errors reg
           ++ entry_loop_new kommentar_kind file_path ∅ (global_kommentar_ids reg)
                             (findall "kommentar" xml_root)
           ++ entry_loop_new subsection_kind file_path ∅ (global_subsection_ids reg)
                             (before ++ e1 :: mid))
          ++ [Error file_path ln (DuplicateSubsectionLocal id);
              Error file_path ln (DuplicateSubsectionGlobal id)]
          ++ (if lemma_missing e2
              then [Error file_path ln (SubsectionMissingLemma id)] else [])
          ++ rest)
     ∧ length (filter (λ x, x = id) (elements (global_subsection_ids reg'))) = 1).
Proof.
  intros H1 H2 reg' ln. subst reg' ln. split; intros Hall.
  - split.
    + rewrite gather_errors, Hall.
      rewrite (entry_loop_new_twice kommentar_kind file_path _ _ _ _ _ _ id H1 H2).
      eexists. rewrite <- !app_assoc. simpl. reflexivity.
    + apply count_in_pool. rewrite gather_kommentar_ids, Hall.
      apply elem_of_union. right. apply elem_of_ids_of. exists e1. split; [|done].
      apply elem_of_app. right. apply list_elem_of_here.
  - split.
    + rewrite gather_errors, Hall.
      rewrite (entry_loop_new_twice subsection_kind file_path _ _ _ _ _ _ id H1 H2).
      eexists. rewrite <- !app_assoc. simpl. reflexivity.
    + apply count_in_pool. rewrite gather_subsection_ids, Hall.
      apply elem_of_union. right. apply elem_of_ids_of. exists e1. split; [|done].
      apply elem_of_app. right. apply list_elem_of_here.
Qed.

(** The register that holds K1 twice: the second entry appends both
    duplicate violations. *)
Lemma duplicate_within_one_register_witness :
  ∃ rest,
    r_errors (gather_commentaries_and_subsections register_K1_twice "r.xml"
                                                  (Registry [] ∅ ∅))
    = register_K1_twice_errors ++ rest.
Proof.
  destruct (duplicate_within_one_register register_K1_twice "r.xml" (Registry [] ∅ ∅)
              [] [] [] kommentar_K1_first kommentar_K1_again "K1" eq_refl eq_refl)
    as [Hk _].
  destruct (Hk eq_refl) as [[rest Hrest] _].
  exists rest. exact Hrest.
Defined.

(** ** The run as a whole *)

Lemma foldl_append {A} (body : A → list error → list error) (new : A → list error)
    (l : list A) (errors : list error) :
  (∀ x errors, body x errors = errors ++ new x) →
  foldl (λ errors x, body x errors) errors l = errors ++ flat_map new l.
Proof.
  intros Hbody. revert errors. induction l as [|x l IH]; intros errors; simpl.
  - by rewrite app_nil_r.
  - by rewrite IH, Hbody, <- app_assoc.
Qed.

Lemma letterDesc_body_spec meta_file person_refs location_refs letter errors :
  letterDesc_body meta_file person_refs location_refs letter errors
  = errors ++ letterDesc_errors meta_file person_refs location_refs letter.
Proof.
  unfold letterDesc_body, letterDesc_errors. rewrite !for_each_spec.
  destruct (find "location" letter); by rewrite <- ?app_assoc, ?app_nil_r.
Qed.

Lemma letterText_body_spec briefe_file letter_refs hand_refs edit_refs letter_text errors :
  letterText_body briefe_file letter_refs hand_refs edit_refs letter_text errors
  = errors ++ letterText_errors briefe_file letter_refs hand_refs edit_refs letter_text.
Proof.
  unfold letterText_body, letterText_errors. rewrite !for_each_spec.
  by rewrite <- !app_assoc.
Qed.

Lemma letterTradition_body_spec traditions_file letter_refs app_refs hand_refs
    tradition errors :
  letterTradition_body traditions_file letter_refs app_refs hand_refs tradition errors
  = errors
    ++ letterTradition_errors traditions_file letter_refs app_refs hand_refs tradition.
Proof.
  unfold letterTradition_body, letterTradition_errors. rewrite !for_each_spec.
  by rewrite <- !app_assoc.
Qed.

Lemma validate_links_spec xml_root file_path (kommentar_ids subsection_ids : gset string)
    errors :
  validate_links_for_commentary xml_root file_path kommentar_ids subsection_ids errors
  = errors ++ link_errors kommentar_ids subsection_ids file_path xml_root.
Proof. apply for_each_spec. Qed.

Lemma gather_registers_errors regs reg :
  r_errors (gather_registers regs reg)
  = r_errors reg
    ++ registers_new (global_kommentar_ids reg) (global_subsection_ids reg) regs.
Proof.
  revert reg. induction regs as [|[f root] regs IH]; intros reg.
  - by rewrite gather_registers_nil, app_nil_r.
  - rewrite gather_registers_cons, IH, gather_errors, gather_kommentar_ids,
      gather_subsection_ids. simpl. by rewrite <- !app_assoc.
Qed.

(** The violations of a run are those of the steps, one after the other,
    each in the order of its traversal. *)
Lemma collect_errors_traversal inp : collect_errors inp = traversal_errors inp.
Proof.
  unfold collect_errors, traversal_errors.
  rewrite (foldl_append (λ r errors, validate_links_for_commentary r.2 r.1 _ _ errors)
             (λ r, link_errors _ _ r.1 r.2))
    by (intros; apply validate_links_spec).
  rewrite !validate_links_spec, for_each_spec.
  rewrite (foldl_append (λ r errors, validate_intlinks r.2 r.1 _ _ errors)
             (λ r, intlink_errors _ _ r.1 r.2))
    by (intros; apply validate_intlinks_spec).
  rewrite !validate_intlinks_spec.
  rewrite (foldl_append (λ x errors, letterTradition_body _ _ _ _ x errors)
             (letterTradition_errors _ _ _ _))
    by (intros; apply letterTradition_body_spec).
  rewrite (foldl_append (λ x errors, letterText_body _ _ _ _ x errors)
             (letterText_errors _ _ _ _))
    by (intros; apply letterText_body_spec).
  rewrite (foldl_append (λ x errors, letterDesc_body _ _ _ x errors)
             (letterDesc_errors _ _ _))
    by (intros; apply letterDesc_body_spec).
  rewrite gather_registers_errors. simpl.
  unfold intlink_errors. by rewrite <- !app_assoc.
Qed.

Lemma validate_references_report inp :
  validate_references inp = report (collect_errors inp).
Proof. unfold validate_references, report. by destruct (collect_errors inp). Qed.

Lemma elem_of_attr_set t attr root (x : option string) :
  x ∈ attr_set t attr root ↔ ∃ e, e ∈ findall t root ∧ get e attr = x.
Proof.
  unfold attr_set. rewrite elem_of_list_to_set, list_elem_of_fmap. naive_solver.
Qed.

(** ** Reference attributes *)

Lemma ref_check_no_value file_path refs attr mk e :
  no_value e attr → ref_check file_path refs attr mk e = [].
Proof. intros H. unfold ref_check. by rewrite (no_value_truthy _ _ H). Qed.

Lemma ref_check_resolved (file_path : string) (refs : gset (option string))
    (attr : string) (mk : string → message) (e : elem) (v : string) :
  has_value e attr v → Some v ∈ refs → ref_check file_path refs attr mk e = [].
Proof.
  intros H Hin. unfold ref_check. rewrite (has_value_truthy _ _ _ H).
  by rewrite bool_decide_false by (by intros Hn).
Qed.

Lemma ref_check_unresolved (file_path : string) (refs : gset (option string))
    (attr : string) (mk : string → message) (e : elem) (v : string) :
  has_value e attr v → Some v ∉ refs →
  ref_check file_path refs attr mk e = [Error file_path (get_line_number e) (mk v)].
Proof.
  intros H Hin. unfold ref_check. rewrite (has_value_truthy _ _ _ H).
  by rewrite bool_decide_true.
Qed.

Lemma value_cases e attr : no_value e attr ∨ ∃ v, has_value e attr v.
Proof.
  unfold no_value, has_value. destruct (get e attr) as [[|c v]|]; eauto.
Qed.

Lemma link_subref_check_spec (file_path : string) (subsection_ids : gset string)
    (link_elem : elem) :
  (no_value link_elem "subref" → link_subref_check file_path subsection_ids link_elem = [])
  ∧ (∀ v, has_value link_elem "subref" v →
       (v ∈ subsection_ids → link_subref_check file_path subsection_ids link_elem = [])
       ∧ (v ∉ subsection_ids →
            link_subref_check file_path subsection_ids link_elem
            = [Error file_path (get_line_number link_elem) (InvalidLinkSubref v)])).
Proof.
  unfold link_subref_check. split.
  - intros H. by rewrite (no_value_truthy _ _ H).
  - intros v H. rewrite (has_value_truthy _ _ _ H). split; intros Hin.
    + by rewrite bool_decide_false by (by intros Hn).
    + by rewrite bool_decide_true.
Qed.

Lemma link_ref_check_spec (file_path : string)
    (kommentar_ids subsection_ids : gset string) (link_elem : elem) :
  (no_value link_elem "ref" →
     link_ref_check file_path kommentar_ids subsection_ids link_elem = [])
  ∧ (∀ v, has_value link_elem "ref" v →
       (v ∈ kommentar_ids ∨ v ∈ subsection_ids →
          link_ref_check file_path kommentar_ids subsection_ids link_elem = [])
       ∧ (v ∉ kommentar_ids → v ∉ subsection_ids →
            link_ref_check file_path kommentar_ids subsection_ids link_elem
            = [Error file_path (get_line_number link_elem) (InvalidLinkRef v)])).
Proof.
  split.
  - intros H. unfold link_ref_check. by rewrite (no_value_truthy _ _ H).
  - intros v H. split.
    + intros Hin. destruct H as [H _]. by apply link_ref_check_resolves with v.
    + intros Hk Hs. unfold link_ref_check. rewrite (has_value_truthy _ _ _ H).
      by rewrite !bool_decide_true.
Qed.

(** ** Hands, edits and apparatus entries *)

Ltac in_segment n :=
  lazymatch n with
  | O => apply elem_of_app; left
  | S ?m => apply elem_of_app; right; in_segment m
  end.

(** C6, as the script has it. The hands and edits are looked for below each
    letter-text block found below the root of the transcription, the apps and
    hands below each letter-tradition block of the tradition document: there,
    a ref with a non-empty value outside the identifier set is reported, with
    the line of the element and the letter of the block. *)
Theorem hand_edit_app_refs_in_blocks (inp : inputs) :
  (∀ letter_text e ref,
     letter_text ∈ findall "letterText" (briefe_xml inp) →
     has_value e "ref" ref →
     (e ∈ findall "hand" letter_text →
      Some ref ∉ attr_set "handDef" "index" (references_xml inp) →
      Error (briefe_file inp) (get_line_number e)
            (InvalidHandRefBrief ref (get letter_text "letter")) ∈ collect_errors inp)
     ∧ (e ∈ findall "edit" letter_text →
        Some ref ∉ attr_set "editreason" "index" (edits_xml inp) →
        Error (briefe_file inp) (get_line_number e)
              (InvalidEditRef ref (get letter_text "letter")) ∈ collect_errors inp))
  ∧ (∀ tradition e ref,
       tradition ∈ findall "letterTradition" (traditions_xml inp) →
       has_value e "ref" ref →
       (e ∈ findall "app" tradition →
        Some ref ∉ attr_set "appDef" "index" (references_xml inp) →
        Error (traditions_file inp) (get_line_number e)
              (InvalidAppRef ref (get tradition "letter")) ∈ collect_errors inp)
       ∧ (e ∈ findall "hand" tradition →
          Some ref ∉ attr_set "handDef" "index" (references_xml inp) →
          Error (traditions_file inp) (get_line_number e)
                (InvalidHandRefTrad ref (get tradition "letter")) ∈ collect_errors inp)).
Proof.
  rewrite collect_errors_traversal. unfold traversal_errors. split.
  - intros letter_text e ref Hlt Hv. split; intros He Hnot.
    + in_segment 2. apply elem_of_flat_map. exists letter_text. split; [done|].
      unfold letterText_errors. in_segment 1. apply elem_of_flat_map.
      exists e. split; [done|].
      rewrite (ref_check_unresolved _ _ _ _ _ ref) by done. apply list_elem_of_here.
    + in_segment 2. apply elem_of_flat_map. exists letter_text. split; [done|].
      unfold letterText_errors. do 2 (apply elem_of_app; right).
      apply elem_of_flat_map. exists e. split; [done|].
      rewrite (ref_check_unresolved _ _ _ _ _ ref) by done. apply list_elem_of_here.
  - intros tradition e ref Hlt Hv. split; intros He Hnot.
    + in_segment 3. apply elem_of_flat_map. exists tradition. split; [done|].
      unfold letterTradition_errors. in_segment 1. apply elem_of_flat_map.
      exists e. split; [done|].
      rewrite (ref_check_unresolved _ _ _ _ _ ref) by done. apply list_elem_of_here.
    + in_segment 3. apply elem_of_flat_map. exists tradition. split; [done|].
      unfold letterTradition_errors. do 2 (apply elem_of_app; right).
      apply elem_of_flat_map. exists e. split; [done|].
      rewrite (ref_check_unresolved _ _ _ _ _ ref) by done. apply list_elem_of_here.
Qed.

(** The hand with the unknown ref H9 below the block of L1 is reported. *)
Lemma hand_edit_app_refs_in_blocks_witness :
  Error "briefe.xml" (Line 4) (InvalidHandRefBrief "H9" (Some "L1"))
  ∈ collect_errors inputs_hand_inside.
Proof.
  destruct (hand_edit_app_refs_in_blocks inputs_hand_inside) as [H _].
  destruct (H letterText_L1_hand hand_inside "H9") as [Hhand _].
  - by_eval.
  - split; [reflexivity|discriminate].
  - apply Hhand; by_eval.
Defined.

(** C6 as stated asks for a violation for every hand anywhere in the
    transcription. Here a hand lies in the document outside any letter-text
    block, its ref H9 is present and no hand identifier, and the run records
    nothing. *)
Lemma hand_outside_block_no_violation :
  hand_outside ∈ findall "hand" (briefe_xml inputs_hand_outside)
  ∧ get hand_outside "ref" = Some "H9"
  ∧ (Some "H9" ∉ attr_set "handDef" "index" (references_xml inputs_hand_outside))
  ∧ collect_errors inputs_hand_outside = [].
Proof.
  split; [by_eval|]. split; [reflexivity|]. split; [by_eval|]. by vm_compute.
Qed.

(** ** Entries without a lemma *)

Section entry_lemma.
Variable kind : entry_kind.
Variable file_path : string.

Lemma entry_new_lemma_missing local global e id :
  entry_id e = Some id → lemma_missing e = true →
  ∃ duplicates,
    entry_new kind file_path local global e
    = duplicates ++ [Error file_path (get_line_number e) (missing_lemma kind id)]
    ∧ ∀ err, err ∈ duplicates →
        msg err = duplicate_local kind id ∨ msg err = duplicate_global kind id.
Proof.
  intros Hid Hmiss. unfold entry_new. rewrite Hid, Hmiss.
  eexists. rewrite app_assoc. split; [reflexivity|].
  intros err [Herr|Herr]%elem_of_app.
  - destruct (bool_decide (id ∈ local)); [|by apply elem_of_nil in Herr].
    apply list_elem_of_singleton in Herr as ->. by left.
  - destruct (bool_decide (id ∈ global)); [|by apply elem_of_nil in Herr].
    apply list_elem_of_singleton in Herr as ->. by right.
Qed.

Lemma entry_loop_new_lemma_missing local global l e id :
  e ∈ l → entry_id e = Some id → lemma_missing e = true →
  Error file_path (get_line_number e) (missing_lemma kind id)
  ∈ entry_loop_new kind file_path local global l.
Proof.
  intros (l1 & l2 & ->)%list_elem_of_split Hid Hmiss.
  rewrite entry_loop_new_app. simpl. apply elem_of_app. right. apply elem_of_app. left.
  destruct (entry_new_lemma_missing (local ∪ ids_of l1) (global ∪ ids_of l1) e id Hid Hmiss)
    as (dups & -> & _).
  apply elem_of_app. right. apply list_elem_of_here.
Qed.

End entry_lemma.

Lemma gather_registers_kommentar_mono regs reg :
  global_kommentar_ids reg ⊆ global_kommentar_ids (gather_registers regs reg).
Proof. rewrite gather_registers_kommentar_ids. set_solver. Qed.

Lemma gather_registers_subsection_mono regs reg :
  global_subsection_ids reg ⊆ global_subsection_ids (gather_registers regs reg).
Proof. rewrite gather_registers_subsection_ids. set_solver. Qed.

(** C7 as stated asks for the missing-lemma violation and the registration
    of every entry whose id attribute is present. Here the id attribute is
    present, with the empty value, and the subtree holds no lemma: the entry
    is reported as missing its id, no missing-lemma violation is raised, and
    the pool stays empty. *)
Lemma empty_id_not_registered :
  let reg := gather_commentaries_and_subsections register_empty_id "r.xml"
                                                 (Registry [] ∅ ∅) in
  kommentar_empty_id ∈ findall "kommentar" register_empty_id
  ∧ get kommentar_empty_id "id" = Some ""
  ∧ (∀ d, in_subtree d kommentar_empty_id → tag d ≠ "lemma")
  ∧ r_errors reg = [Error "r.xml" (Line 2) KommentarMissingId]
  ∧ global_kommentar_ids reg = ∅.
Proof.
  split; [by_eval|]. split; [reflexivity|]. split.
  - apply lemma_missing_subtree. reflexivity.
  - split; by vm_compute.
Qed.

(** ** The scan of the transcription *)

Lemma lines_of_add_line (m : LocMap) (l p x l' p' x' : string) :
  x' ∈ lines_of (add_line l p x m) l' p'
  ↔ (l = l' ∧ p = p' ∧ x = x') ∨ x' ∈ lines_of m l' p'.
Proof.
  unfold lines_of at 1. rewrite pages_of_add_line.
  destruct (decide (l = l' ∧ p = p')) as [[-> ->]|Hne]; simpl.
  - rewrite elem_of_union, elem_of_singleton. naive_solver.
  - fold (lines_of m l' p'). naive_solver.
Qed.



(** The current page is only ever set to a non-empty index. *)
Lemma brief_step_page_truthy st e :
  truthy_val (current_page st) = current_page st →
  truthy_val (current_page (brief_step st e)) = current_page (brief_step st e).
Proof.
  intros Hok. unfold brief_step. repeat case_decide; simpl; try done.
  - destruct (truthy (get e "index")) eqn:Ht; simpl; [|done].
    unfold truthy_val. by rewrite Ht.
  - destruct (truthy_val (current_letter st)) eqn:E1,
      (truthy_val (current_page st)) eqn:E2,
      (truthy_val (get e "index")) eqn:E3; simpl; congruence.
Qed.

Lemma brief_steps_page_truthy es st :
  truthy_val (current_page st) = current_page st →
  truthy_val (current_page (foldl brief_step st es))
  = current_page (foldl brief_step st es).
Proof.
  revert st. induction es as [|e es IH]; intros st Hok; simpl; [done|].
  by apply IH, brief_step_page_truthy.
Qed.

(** Only a page marker with a non-empty index changes the current page. *)
Lemma brief_step_page st e :
  current_page (brief_step st e) ≠ current_page st →
  tag e = "page" ∧ ∃ v, has_value e "index" v ∧ current_page (brief_step st e) = Some v.
Proof.
  unfold brief_step. repeat case_decide; simpl; try done.
  - destruct (truthy_val (get e "index")) as [v|] eqn:Hv.
    + pose proof (proj1 (truthy_val_Some _ _) Hv) as [Hget Hne].
      unfold truthy_val in Hv. destruct (truthy (get e "index")); [|done].
      simpl. intros _. split; [done|]. exists v. by rewrite Hget.
    + unfold truthy_val in Hv. destruct (truthy (get e "index")) eqn:Ht; [|done].
      simpl. intros _. by rewrite Hv in *.
  - by destruct (truthy_val (current_letter st)), (truthy_val (current_page st)),
      (truthy_val (get e "index")).
Qed.

(** Only a letter-text block changes the current letter. *)
Lemma brief_step_letter st e :
  tag e ≠ "letterText" → current_letter (brief_step st e) = current_letter st.
Proof.
  intros Htag. unfold brief_step. repeat case_decide; simpl; try done.
  - by destruct (truthy (get e "index")).
  - by destruct (truthy_val (current_letter st)), (truthy_val (current_page st)),
      (truthy_val (get e "index")).
Qed.

(** Elements that are neither letter-text blocks nor page markers with an
    index leave the current letter and the current page as they are. *)
Lemma brief_steps_keep es st :
  (∀ e, e ∈ es → tag e ≠ "letterText"
                 ∧ ¬ (tag e = "page" ∧ ∃ v, has_value e "index" v)) →
  current_letter (foldl brief_step st es) = current_letter st
  ∧ current_page (foldl brief_step st es) = current_page st.
Proof.
  revert st. induction es as [|e es IH]; intros st Hes; simpl; [done|].
  destruct (Hes e) as [Hlt Hpage]; [apply list_elem_of_here|].
  destruct (IH (brief_step st e)) as [Hl Hp].
  { intros e' He'. apply Hes. by apply list_elem_of_further. }
  rewrite Hl, Hp. split; [by apply brief_step_letter|].
  destruct (decide (current_page (brief_step st e) = current_page st)) as [|Hne]; [done|].
  apply brief_step_page in Hne as (Htag & v & Hv & _). destruct Hpage. eauto.
Qed.

(** A line marker met with a current letter and a current page is recorded. *)
Lemma brief_step_line st e (l p x : string) :
  tag e = "line" → has_value e "index" x →
  current_letter st = Some l → l ≠ "" →
  current_page st = Some p → p ≠ "" →
  x ∈ lines_of (letter_pages (brief_step st e)) l p.
Proof.
  intros Htag Hx Hl Hlne Hp Hpne. unfold brief_step. rewrite Htag.
  rewrite decide_False by done. rewrite decide_False by done.
  rewrite decide_True by done.
  rewrite (has_value_truthy _ _ _ Hx), Hl, Hp.
  rewrite (proj2 (truthy_val_Some (Some l) l)) by done.
  rewrite (proj2 (truthy_val_Some (Some p) p)) by done.
  simpl. apply lines_of_add_line. by left.
Qed.

(** ** The maps of a run hold no empty key *)

Lemma no_empty_keys_empty : no_empty_keys ∅.
Proof.
  split; [apply lookup_empty|]. intros l. unfold lines_of, pages_of.
  rewrite lookup_empty. simpl. split; [apply lookup_empty|].
  intros p. rewrite lookup_empty. simpl. apply not_elem_of_empty.
Qed.

Lemma no_empty_keys_add_line (m : LocMap) (l p x : string) :
  l ≠ "" → p ≠ "" → x ≠ "" → no_empty_keys m → no_empty_keys (add_line l p x m).
Proof.
  intros Hl Hp Hx (Hm & Hrest). split.
  - unfold add_line. by rewrite lookup_insert_ne.
  - intros l'. destruct (Hrest l') as [Hpages Hlines]. split.
    + rewrite pages_of_add_line. by rewrite decide_False by (by intros [_ ?]).
    + intros p' [(_ & _ & ?)|Hin]%lines_of_add_line; [done|]. by apply (Hlines p').
Qed.

Lemma truthy_val_nonempty o v : truthy_val o = Some v → v ≠ "".
Proof. by intros [_ ?]%truthy_val_Some. Qed.

Lemma no_empty_keys_brief_step st e :
  no_empty_keys (letter_pages st) → no_empty_keys (letter_pages (brief_step st e)).
Proof.
  intros Hok. unfold brief_step. repeat case_decide; simpl; try done.
  - by destruct (truthy (get e "index")).
  - destruct (truthy_val (current_letter st)) as [l|] eqn:El; [|done].
    destruct (truthy_val (current_page st)) as [p|] eqn:Ep; [|done].
    destruct (truthy_val (get e "index")) as [x|] eqn:Ex; [|done].
    simpl. apply no_empty_keys_add_line; eauto using truthy_val_nonempty.
Qed.

Lemma no_empty_keys_brief doc_root :
  no_empty_keys (build_letter_page_line_map_brief doc_root).
Proof.
  unfold build_letter_page_line_map_brief, brief_scan.
  generalize (iter (default doc_root (find "document" doc_root))). intros es.
  assert (H : ∀ st, no_empty_keys (letter_pages st) →
                    no_empty_keys (letter_pages (foldl brief_step st es))).
  { induction es as [|e es IH]; intros st Hst; simpl; [done|].
    by apply IH, no_empty_keys_brief_step. }
  apply H. simpl. apply no_empty_keys_empty.
Qed.

Lemma no_empty_keys_trad_step letter_id (st : option string * LocMap) e :
  letter_id ≠ "" → no_empty_keys st.2 → no_empty_keys (trad_step letter_id st e).2.
Proof.
  intros Hl Hok. unfold trad_step. repeat case_decide; simpl; try done.
  - by destruct (truthy (get e "index")).
  - destruct (truthy_val st.1) as [p|] eqn:Ep; [|done].
    destruct (truthy_val (get e "index")) as [x|] eqn:Ex; [|done].
    simpl. apply no_empty_keys_add_line; eauto using truthy_val_nonempty.
Qed.

Lemma no_empty_keys_trad_block (m : LocMap) letter_trad :
  no_empty_keys m → no_empty_keys (trad_block m letter_trad).
Proof.
  intros Hm. unfold trad_block.
  destruct (truthy_val (get letter_trad "letter")) as [letter_id|] eqn:El; [|done].
  apply truthy_val_nonempty in El.
  generalize (descendants letter_trad). intros es.
  assert (H : ∀ st : option string * LocMap,
            no_empty_keys st.2 →
            no_empty_keys (foldl (trad_step letter_id) st es).2).
  { induction es as [|e es IH]; intros st Hst; simpl; [done|].
    by apply IH, no_empty_keys_trad_step. }
  by apply H.
Qed.

Lemma no_empty_keys_trad trad_root :
  no_empty_keys (build_letter_page_line_map_trad trad_root).
Proof.
  unfold build_letter_page_line_map_trad.
  generalize (findall "letterTradition" trad_root). intros blocks.
  assert (H : ∀ m : LocMap, no_empty_keys m → no_empty_keys (foldl trad_block m blocks)).
  { induction blocks as [|b blocks IH]; intros m Hm; simpl; [done|].
    by apply IH, no_empty_keys_trad_block. }
  apply H, no_empty_keys_empty.
Qed.

(** The merge adds no letter of its own. *)
Lemma merge_letters (a b : LocMap) (l : string) :
  is_Some (merge_page_line_maps a b !! l) → is_Some (a !! l) ∨ is_Some (b !! l).
Proof.
  unfold merge_page_line_maps. revert l.
  apply (map_fold_weak_ind (λ r (b' : LocMap), ∀ l,
    is_Some (r !! l) → is_Some (a !! l) ∨ is_Some (b' !! l))).
  - intros l Hl. by left.
  - intros l0 pd b' r Hfresh IH l.
    assert (Hinner : ∀ l, is_Some (map_fold (λ page_id line_set acc',
                                      update_lines l0 page_id line_set acc') r pd !! l) →
                          is_Some (r !! l) ∨ l = l0).
    { apply (map_fold_weak_ind (λ r' (pd' : gmap string (gset string)), ∀ l,
        is_Some (r' !! l) → is_Some (r !! l) ∨ l = l0)).
      - intros l' Hl'. by left.
      - intros p0 s pd' r' _ IH' l'. unfold update_lines.
        destruct (decide (l0 = l')) as [->|Hne]; [by right|].
        rewrite lookup_insert_ne by done. apply IH'. }
    intros [Hl| ->]%Hinner.
    + destruct (IH l Hl) as [?|Hb]; [by left|]. right.
      destruct (decide (l0 = l)) as [->|Hne]; [by rewrite lookup_insert_eq|].
      by rewrite lookup_insert_ne.
    + right. by rewrite lookup_insert_eq.
Qed.

Lemma no_empty_keys_merge (a b : LocMap) :
  no_empty_keys a → no_empty_keys b → no_empty_keys (merge_page_line_maps a b).
Proof.
  intros (Ha & Ha') (Hb & Hb'). split.
  - destruct (merge_page_line_maps a b !! "") eqn:Hm; [|done].
    destruct (merge_letters a b "") as [[? Hs]|[? Hs]]; [by eexists| |]; congruence.
  - intros l. destruct (Ha' l) as [Hap Hal], (Hb' l) as [Hbp Hbl]. split.
    + by rewrite merge_lookup, Hap, Hbp.
    + intros p. rewrite merge_lines.
      intros [?|?]%elem_of_union; [by apply (Hal p)|by apply (Hbl p)].
Qed.

Lemma no_empty_keys_run inp : no_empty_keys (merged_letter_pages inp).
Proof.
  apply no_empty_keys_merge; [apply no_empty_keys_brief|apply no_empty_keys_trad].
Qed.

(** ** Marginal notes *)

Lemma marginal_body_no_value (file_path : string) (lp : LocMap)
    (letter_refs : gset (option string)) (marginal_elem : elem) :
  no_empty_keys lp →
  no_value marginal_elem "letter" ∨ no_value marginal_elem "page"
  ∨ no_value marginal_elem "line" →
  ∃ m, marginal_body file_path lp letter_refs marginal_elem
       = [Error file_path (get_line_number marginal_elem) m].
Proof.
  intros (Hlp & Hrest) Hmiss. unfold marginal_body.
  destruct (bool_decide (get marginal_elem "letter" ∉ letter_refs)); [by eexists|].
  destruct (get marginal_elem "letter") as [l|] eqn:El; simpl; [|by eexists].
  destruct (lp !! l) as [pages|] eqn:Epages; [|by eexists].
  destruct (Hrest l) as [Hpages Hlines].
  rewrite (lookup_pages_of _ _ _ Epages) in Hpages.
  destruct (get marginal_elem "page") as [p|] eqn:Ep; simpl; [|by eexists].
  destruct (pages !! p) as [lines|] eqn:Elines; [|by eexists].
  assert (Hlo : lines_of lp l p = lines).
  { unfold lines_of. by rewrite (lookup_pages_of _ _ _ Epages), Elines. }
  specialize (Hlines p). rewrite Hlo in Hlines.
  destruct (get marginal_elem "line") as [x|] eqn:Ex; simpl; [|by eexists].
  destruct (bool_decide_reflect (x ∈ lines)) as [Hin|Hin]; [|by eexists].
  unfold no_value in Hmiss. rewrite El, Ep, Ex in Hmiss.
  destruct Hmiss as [[?|?]|[[?|?]|[?|?]]]; simplify_eq; congruence.
Qed.

(** C2. A marginal note goes through the three levels with no truth test, so
    an absent attribute is looked up like any value and found nowhere: an
    unknown letter gives one violation and ends the check; so does a letter
    without an entry in the location map, and a page that is no page of the
    letter; only with letter and page resolved is the line looked up in the
    line set of (letter, page). A note lacking one of the three attributes
    always gets a violation, and no note gets more than one. Every note of
    the marginal-notes document is checked this way in a run, and there an
    attribute with the empty value fails like an absent one, since the maps of
    a run hold no empty key. *)
Theorem marginal_cascade (file_path : string) (lp : LocMap)
    (letter_refs : gset (option string)) (marginal_elem : elem) :
  let letter_id := get marginal_elem "letter" in
  let page_id := get marginal_elem "page" in
  let line_id := get marginal_elem "line" in
  let violation m := [Error file_path (get_line_number marginal_elem) m] in
  let result := marginal_body file_path lp letter_refs marginal_elem in
  (letter_id ∉ letter_refs → result = violation (InvalidMarginalLetter letter_id))
  ∧ (letter_id ∈ letter_refs →
       ((∀ l, letter_id = Some l → lp !! l = None) →
          result = violation (NoPagesMarginal letter_id))
       ∧ (∀ l, letter_id = Some l → is_Some (lp !! l) →
            ((∀ p, page_id = Some p → pages_of lp l !! p = None) →
               result = violation (InvalidMarginalPage letter_id page_id))
            ∧ (∀ p, page_id = Some p → is_Some (pages_of lp l !! p) →
                 ((∀ x, line_id = Some x → x ∉ lines_of lp l p) →
                    result = violation (InvalidMarginalLine letter_id page_id line_id))
                 ∧ (∀ x, line_id = Some x → x ∈ lines_of lp l p → result = []))))
  ∧ (letter_id = None ∨ page_id = None ∨ line_id = None → ∃ m, result = violation m)
  ∧ (length result ≤ 1)%nat
  ∧ (∀ inp err,
       marginal_elem ∈ findall "marginal" (marginalien_xml inp) →
       err ∈ marginal_body (marginalien_file inp) (merged_letter_pages inp)
                           (attr_set "letterDesc" "letter" (meta_xml inp)) marginal_elem →
       err ∈ collect_errors inp)
  ∧ (∀ inp,
       no_value marginal_elem "letter" ∨ no_value marginal_elem "page"
       ∨ no_value marginal_elem "line" →
       ∃ m, marginal_body (marginalien_file inp) (merged_letter_pages inp)
                          (attr_set "letterDesc" "letter" (meta_xml inp)) marginal_elem
            = [Error (marginalien_file inp) (get_line_number marginal_elem) m]).
Proof.
  intros letter_id page_id line_id violation result.
  subst letter_id page_id line_id violation result.
  split; [|split; [|split; [|split; [|split]]]].
  - intros Hnot. unfold marginal_body. by rewrite bool_decide_true.
  - intros Hin. unfold marginal_body.
    rewrite bool_decide_false by (by intros Hn). split.
    + intros Hno. destruct (get marginal_elem "letter") as [l|]; simpl; [|done].
      by rewrite (Hno l).
    + intros l Hl [pages Hpages]. rewrite Hl. simpl. rewrite Hpages. split.
      * intros Hno. destruct (get marginal_elem "page") as [p|]; simpl; [|done].
        specialize (Hno p eq_refl). rewrite (lookup_pages_of _ _ _ Hpages) in Hno.
        by rewrite Hno.
      * intros p Hp [lines Hlines]. rewrite Hp. simpl.
        rewrite (lookup_pages_of _ _ _ Hpages) in Hlines. rewrite Hlines.
        assert (Hlo : lines_of lp l p = lines).
        { unfold lines_of. by rewrite (lookup_pages_of _ _ _ Hpages), Hlines. }
        rewrite Hlo. split.
        -- intros Hno. destruct (get marginal_elem "line") as [x|]; simpl; [|done].
           by rewrite bool_decide_false by (by apply Hno).
        -- intros x Hx Hin'. rewrite Hx. simpl. by rewrite bool_decide_true.
  - intros Hmiss. unfold marginal_body.
    destruct (bool_decide (get marginal_elem "letter" ∉ letter_refs)); [by eexists|].
    destruct (get marginal_elem "letter") as [l|]; simpl; [|by eexists].
    destruct (lp !! l) as [pages|]; [|by eexists].
    destruct (get marginal_elem "page") as [p|]; simpl; [|by eexists].
    destruct (pages !! p) as [lines|]; [|by eexists].
    destruct (get marginal_elem "line") as [x|]; simpl; [|by eexists].
    by destruct Hmiss as [?|[?|?]].
  - unfold marginal_body.
    destruct (bool_decide (get marginal_elem "letter" ∉ letter_refs)); [simpl; lia|].
    destruct (lookup_opt (get marginal_elem "letter") lp) as [pages|]; [|simpl; lia].
    destruct (lookup_opt (get marginal_elem "page") pages) as [lines|]; [|simpl; lia].
    destruct (mem_opt (get marginal_elem "line") lines); simpl; lia.
  - intros inp err Hin Herr. rewrite collect_errors_traversal. unfold traversal_errors.
    in_segment 7. apply elem_of_flat_map. by exists marginal_elem.
  - intros inp Hmiss. apply marginal_body_no_value; [apply no_empty_keys_run|done].
Qed.

(** The note that refers to L2, which the metadata does not know: exactly
    the one violation for the letter. *)
Lemma marginal_cascade_witness :
  marginal_body "marginalien.xml"
    (merged_letter_pages (inputs_with meta_L1 briefe_L1 empty_doc empty_doc []))
    {[Some "L1"]} marginal_L2
  = [Error "marginalien.xml" (Line 2) (InvalidMarginalLetter (Some "L2"))].
Proof.
  pose proof (marginal_cascade "marginalien.xml"
    (merged_letter_pages (inputs_with meta_L1 briefe_L1 empty_doc empty_doc []))
    {[Some "L1"]} marginal_L2) as [H _].
  apply H. by_eval.
Defined.

(** ** Internal links in a run *)

(** X15. Every [intlink] below the root is checked in document order, and
    one link goes through the cascade, where an attribute counts as given
    when it has a non-empty value: (1) a letter that is absent, empty or
    unknown gives one violation and ends the check; (2) so does a letter
    without an entry in the location map; (3) a page with a non-empty value
    must be a page of that letter, and without such a page a non-empty line
    gives the violation for a line without page; (4) with the page resolved,
    a non-empty line must be in the line set of (letter, page). In a run this
    is done for the links of the tradition document, of the marginal-notes
    document and of every register, against the merged map. *)
Theorem intlink_cascade (file_path : string) (lp : LocMap)
    (letter_refs : gset (option string)) (intlink : elem) :
  let violation m := [Error file_path (get_line_number intlink) m] in
  let result := intlink_body file_path lp letter_refs intlink in
  (∀ xml_root errors,
     validate_intlinks xml_root file_path lp letter_refs errors
     = errors ++ flat_map (intlink_body file_path lp letter_refs)
                          (findall "intlink" xml_root))
  ∧ (no_value intlink "letter" ∨ get intlink "letter" ∉ letter_refs →
     result = violation (InvalidIntlinkLetter (get intlink "letter")))
  ∧ (∀ l, has_value intlink "letter" l → Some l ∈ letter_refs →
      (lp !! l = None → result = violation (NoPagesIntlink l))
      ∧ (is_Some (lp !! l) →
          (∀ p, has_value intlink "page" p →
             (pages_of lp l !! p = None → result = violation (InvalidIntlinkPage p l))
             ∧ (is_Some (pages_of lp l !! p) →
                 (∀ x, has_value intlink "line" x →
                    (x ∉ lines_of lp l p → result = violation (InvalidIntlinkLine x l p))
                    ∧ (x ∈ lines_of lp l p → result = []))
                 ∧ (no_value intlink "line" → result = [])))
          ∧ (no_value intlink "page" →
              (∀ x, has_value intlink "line" x →
                 result = violation (IntlinkLineNoPage x l))
              ∧ (no_value intlink "line" → result = []))))
  ∧ (∀ inp err,
       let checked path :=
         err ∈ intlink_body path (merged_letter_pages inp)
                            (attr_set "letterDesc" "letter" (meta_xml inp)) intlink in
       (intlink ∈ findall "intlink" (traditions_xml inp) →
          checked (traditions_file inp) → err ∈ collect_errors inp)
       ∧ (intlink ∈ findall "intlink" (marginalien_xml inp) →
            checked (marginalien_file inp) → err ∈ collect_errors inp)
       ∧ (∀ r, r ∈ register_trees inp → intlink ∈ findall "intlink" r.2 →
            checked r.1 → err ∈ collect_errors inp)).
Proof.
  intros violation result. subst violation result.
  split; [intros; apply validate_intlinks_spec|].
  split; [|split].
  - intros [Hno|Hnot]; unfold intlink_body.
    + by rewrite (no_value_truthy _ _ Hno).
    + destruct (truthy_val (get intlink "letter")); [|done].
      by rewrite bool_decide_true.
  - intros l Hl Hin. unfold intlink_body.
    rewrite (has_value_truthy _ _ _ Hl).
    destruct Hl as [Hl _]. rewrite Hl.
    rewrite bool_decide_false by (by intros Hn).
    split; [by intros ->|]. intros [pages Hpages]. rewrite Hpages.
    rewrite (lookup_pages_of _ _ _ Hpages). split.
    + intros p Hp. rewrite (has_value_truthy _ _ _ Hp). split; [by intros ->|].
      intros [lines Hlines]. rewrite Hlines. unfold lines_of.
      rewrite (lookup_pages_of _ _ _ Hpages), Hlines. simpl. split.
      * intros x Hx. rewrite (has_value_truthy _ _ _ Hx). split; intros Hmem.
        -- by rewrite bool_decide_true.
        -- by rewrite bool_decide_false by (by intros Hn).
      * intros Hno. by rewrite (no_value_truthy _ _ Hno).
    + intros Hno. rewrite (no_value_truthy _ _ Hno). split.
      * intros x Hx. by rewrite (has_value_truthy _ _ _ Hx).
      * intros Hno'. by rewrite (no_value_truthy _ _ Hno').
  - intros inp err checked. subst checked.
    rewrite collect_errors_traversal. unfold traversal_errors, intlink_errors.
    split; [|split].
    + intros Hin Herr. in_segment 4. apply elem_of_flat_map. by exists intlink.
    + intros Hin Herr. in_segment 5. apply elem_of_flat_map. by exists intlink.
    + intros r Hr Hin Herr. in_segment 6. apply elem_of_flat_map. exists r.
      split; [done|]. apply elem_of_flat_map. by exists intlink.
Qed.

(** A link to a known letter with a line and no page: one violation. *)
Lemma intlink_cascade_witness :
  intlink_body "traditions.xml"
    (merged_letter_pages (inputs_with meta_L1 briefe_L1 empty_doc empty_doc []))
    {[Some "L1"]} intlink_line_only
  = [Error "traditions.xml" (Line 2) (IntlinkLineNoPage "5" "L1")].
Proof.
  pose proof (intlink_cascade "traditions.xml"
    (merged_letter_pages (inputs_with meta_L1 briefe_L1 empty_doc empty_doc []))
    {[Some "L1"]} intlink_line_only) as (_ & _ & H & _).
  destruct (H "L1") as [_ H2].
  - split; [reflexivity|discriminate].
  - by apply elem_of_singleton.
  - destruct H2 as [_ H3].
    + by_eval.
    + destruct H3 as [H4 _].
      * left. reflexivity.
      * apply (H4 "5"). split; [reflexivity|discriminate].
Defined.

(** C1. The docstring of [validate_intlinks] asks that a page that is present
    exist in the location map, and the claim asks for a violation when it
    does not. The guard [if page_id:] lets an empty value through: here the
    link names the known letter L1, which has an entry in the merged map; its
    page attribute is present, with the empty value, which is no page of L1;
    and the run records nothing. The check of the marginal notes, given the
    same value against the same map, reports the page. *)
Lemma intlink_empty_page_no_violation :
  intlink_empty_page ∈ findall "intlink" (traditions_xml inputs_intlink_empty_page)
  ∧ get intlink_empty_page "letter" = Some "L1"
  ∧ Some "L1" ∈ attr_set "letterDesc" "letter" (meta_xml inputs_intlink_empty_page)
  ∧ is_Some (merged_letter_pages inputs_intlink_empty_page !! "L1")
  ∧ get intlink_empty_page "page" = Some ""
  ∧ pages_of (merged_letter_pages inputs_intlink_empty_page) "L1" !! "" = None
  ∧ collect_errors inputs_intlink_empty_page = []
  ∧ marginal_body "marginalien.xml" (merged_letter_pages inputs_intlink_empty_page)
      (attr_set "letterDesc" "letter" (meta_xml inputs_intlink_empty_page))
      marginal_empty_page
    = [Error "marginalien.xml" (Line 2) (InvalidMarginalPage (Some "L1") (Some ""))].
Proof.
  split; [by apply list_elem_of_here|]. split; [reflexivity|].
  split; [by_eval|]. split; [by_eval|]. split; [reflexivity|].
  split; [by vm_compute|]. split; by vm_compute.
Qed.

(** ** The registers in a run *)

Lemma checks_only_app (a b : list error) :
  checks_only a → checks_only b → checks_only (a ++ b).
Proof. apply Forall_app_2. Qed.

Lemma checks_only_flat_map {A} (f : A → list error) (l : list A) :
  (∀ x, checks_only (f x)) → checks_only (flat_map f l).
Proof.
  intros Hf. induction l as [|x l IH]; simpl; [constructor|].
  by apply checks_only_app.
Qed.

Lemma checks_only_ref_check file_path refs attr mk e :
  (∀ v, registry_message (mk v) = false) →
  checks_only (ref_check file_path refs attr mk e).
Proof.
  intros Hmk. unfold ref_check. destruct (truthy_val (get e attr)); [|constructor].
  destruct (bool_decide _); repeat constructor. apply Hmk.
Qed.

Lemma checks_only_intlink_body file_path (lp : LocMap) letter_refs intlink :
  checks_only (intlink_body file_path lp letter_refs intlink).
Proof.
  unfold intlink_body. repeat case_match; by repeat constructor.
Qed.

Lemma checks_only_marginal_body file_path (lp : LocMap) letter_refs marginal_elem :
  checks_only (marginal_body file_path lp letter_refs marginal_elem).
Proof.
  unfold marginal_body. repeat case_match; by repeat constructor.
Qed.

Lemma checks_only_link_body file_path (kommentar_ids subsection_ids : gset string)
    link_elem :
  checks_only (link_body file_path kommentar_ids subsection_ids link_elem).
Proof.
  unfold link_body, link_ref_check, link_subref_check.
  apply checks_only_app; repeat case_match; by repeat constructor.
Qed.

Lemma count_msg_checks_only m (errors : list error) :
  registry_message m = true → checks_only errors → count_msg m errors = 0.
Proof.
  intros Hm Hl. induction Hl as [|err l Herr _ IH]; [done|].
  rewrite count_msg_cons, IH, decide_False; [done|]. intros Heq. congruence.
Qed.

Lemma checks_only_letterDesc_errors meta_file person_refs location_refs letter :
  checks_only (letterDesc_errors meta_file person_refs location_refs letter).
Proof.
  unfold letterDesc_errors.
  apply checks_only_app; [|apply checks_only_app].
  - apply checks_only_flat_map. intros e. by apply checks_only_ref_check.
  - apply checks_only_flat_map. intros e. by apply checks_only_ref_check.
  - destruct (find "location" letter); [by apply checks_only_ref_check|constructor].
Qed.

Lemma checks_only_letterText_errors briefe_file letter_refs hand_refs edit_refs
    letter_text :
  checks_only (letterText_errors briefe_file letter_refs hand_refs edit_refs letter_text).
Proof.
  unfold letterText_errors.
  apply checks_only_app; [|apply checks_only_app].
  - by apply checks_only_ref_check.
  - apply checks_only_flat_map. intros e. by apply checks_only_ref_check.
  - apply checks_only_flat_map. intros e. by apply checks_only_ref_check.
Qed.

Lemma checks_only_letterTradition_errors traditions_file letter_refs app_refs hand_refs
    tradition :
  checks_only (letterTradition_errors traditions_file letter_refs app_refs hand_refs
                                      tradition).
Proof.
  unfold letterTradition_errors.
  apply checks_only_app; [|apply checks_only_app].
  - by apply checks_only_ref_check.
  - apply checks_only_flat_map. intros e. by apply checks_only_ref_check.
  - apply checks_only_flat_map. intros e. by apply checks_only_ref_check.
Qed.

Lemma checks_only_intlink_errors (lp : LocMap) letter_refs file_path root :
  checks_only (intlink_errors lp letter_refs file_path root).
Proof. apply checks_only_flat_map. intros e. apply checks_only_intlink_body. Qed.

Lemma checks_only_link_errors (kommentar_ids subsection_ids : gset string) file_path root :
  checks_only (link_errors kommentar_ids subsection_ids file_path root).
Proof. apply checks_only_flat_map. intros e. apply checks_only_link_body. Qed.

(** The violations of a run: those of the registers, then those of the
    checks. *)
Lemma traversal_errors_split inp :
  ∃ rest,
    traversal_errors inp = registers_new ∅ ∅ (register_trees inp) ++ rest
    ∧ checks_only rest.
Proof.
  unfold traversal_errors. eexists. split; [reflexivity|].
  apply checks_only_app;
    [apply checks_only_flat_map; intros; apply checks_only_letterDesc_errors|].
  apply checks_only_app;
    [apply checks_only_flat_map; intros; apply checks_only_letterText_errors|].
  apply checks_only_app;
    [apply checks_only_flat_map; intros; apply checks_only_letterTradition_errors|].
  apply checks_only_app; [apply checks_only_intlink_errors|].
  apply checks_only_app; [apply checks_only_intlink_errors|].
  apply checks_only_app;
    [apply checks_only_flat_map; intros; apply checks_only_intlink_errors|].
  apply checks_only_app;
    [apply checks_only_flat_map; intros; apply checks_only_marginal_body|].
  do 6 (apply checks_only_app; [apply checks_only_link_errors|]).
  apply checks_only_flat_map. intros. apply checks_only_link_errors.
Qed.

(** The first register puts the identifier into the empty pool, the second
    finds it there. *)
Lemma count_two_registers file1 file2 root1 root2 id :
  occurrences id (findall "kommentar" root1) = 1 →
  occurrences id (findall "kommentar" root2) = 1 →
  count_msg (DuplicateKommentarGlobal id)
            (registers_new ∅ ∅ [(file1, root1); (file2, root2)]) = 1.
Proof.
  intros H1 H2. simpl. rewrite !count_msg_app.
  rewrite !(count_entry_loop_foreign subsection_kind)
    by apply subsection_foreign_kommentar.
  pose proof (count_entry_loop_global kommentar_kind file1 kommentar_kind_ok id
                (findall "kommentar" root1) ∅ ∅) as Hc1.
  pose proof (count_entry_loop_global kommentar_kind file2 kommentar_kind_ok id
                (findall "kommentar" root2) ∅
                (∅ ∪ ids_of (findall "kommentar" root1))) as Hc2.
  simpl in Hc1, Hc2. rewrite Hc1, Hc2, H1, H2.
  rewrite decide_False by set_solver.
  rewrite decide_True; [done|]. apply occurrences_one_in in H1. set_solver.
Qed.

(** C3. An identifier that occurs once among the entries of each of two
    registers, gathered in that order: exactly one violation "duplicate
    across registers" is recorded for it, the global pool holds it exactly
    once, and a later link whose ref is that identifier passes the ref check;
    in a run with these two registers the violation is the only one of its
    kind in the whole list. Whatever the registers, the final pool is the set
    of the identifiers of their entries and lists none of them twice. *)
Theorem duplicate_across_two_registers (file1 file2 : string) (root1 root2 : elem)
    (id : string) :
  occurrences id (findall "kommentar" root1) = 1 →
  occurrences id (findall "kommentar" root2) = 1 →
  let reg := gather_registers [(file1, root1); (file2, root2)] (Registry [] ∅ ∅) in
  count_msg (DuplicateKommentarGlobal id) (r_errors reg) = 1
  ∧ length (filter (λ x, x = id) (elements (global_kommentar_ids reg))) = 1
  ∧ (∀ file_path link_elem,
       get link_elem "ref" = Some id →
       link_ref_check file_path (global_kommentar_ids reg) (global_subsection_ids reg)
                      link_elem = [])
  ∧ (∀ inp,
       register_trees inp = [(file1, root1); (file2, root2)] →
       count_msg (DuplicateKommentarGlobal id) (collect_errors inp) = 1)
  ∧ (∀ regs,
       let final := gather_registers regs (Registry [] ∅ ∅) in
       global_kommentar_ids final = all_ids "kommentar" regs
       ∧ global_subsection_ids final = all_ids "subsection" regs
       ∧ NoDup (elements (global_kommentar_ids final))
       ∧ NoDup (elements (global_subsection_ids final))).
Proof.
  intros H1 H2 reg.
  pose proof (count_two_registers file1 file2 root1 root2 id H1 H2) as Hcount.
  assert (Hin : id ∈ global_kommentar_ids reg).
  { subst reg. rewrite gather_registers_kommentar_ids. unfold all_ids. simpl.
    apply occurrences_one_in in H1. set_solver. }
  split; [|split; [by apply count_in_pool|split; [|split]]].
  - subst reg. by rewrite gather_registers_errors.
  - intros file_path link_elem Hget.
    apply link_ref_check_resolves with id; [done|by left].
  - intros inp Hregs. rewrite collect_errors_traversal.
    destruct (traversal_errors_split inp) as (rest & -> & Hrest).
    rewrite count_msg_app, (count_msg_checks_only _ rest) by done.
    rewrite Hregs, Hcount. lia.
  - intros regs final. subst final.
    rewrite gather_registers_kommentar_ids, gather_registers_subsection_ids. simpl.
    rewrite !(left_id_L ∅ (∪)).
    split; [done|]. split; [done|]. split; apply NoDup_elements.
Qed.

(** The two sample registers that each hold K1 once. *)
Lemma duplicate_across_two_registers_witness :
  count_msg (DuplicateKommentarGlobal "K1")
    (r_errors (gather_registers [("a.xml", register_K1); ("b.xml", register_K1)]
                                (Registry [] ∅ ∅))) = 1.
Proof.
  exact (proj1 (duplicate_across_two_registers "a.xml" "b.xml" register_K1 register_K1
                  "K1" eq_refl eq_refl)).
Defined.

(** ** The examples of the specification, run *)

Example run_sender_P9 :
  validate_references inputs_sender_P9
  = (["::error file=meta.xml,line=3::Invalid sender ref: P9 in letter=L1"], 1).
Proof. by vm_compute. Qed.

Example run_link_to_tradition_line :
  lines_of (merged_letter_pages inputs_link_to_tradition_line) "L1" "3" = {["5"; "7"]}
  ∧ validate_references inputs_link_to_tradition_line
    = (["All references are valid."], 0).
Proof. split; by vm_compute. Qed.

(** * Further properties *)

(** ** What the two scans record *)

Lemma last_filter_cons (P : elem → Prop) `{!∀ e, Decision (P e)} (e : elem) es :
  last (filter P (e :: es))
  = match last (filter P es) with
    | Some e' => Some e'
    | None => if decide (P e) then Some e else None
    end.
Proof.
  rewrite filter_cons. destruct (decide (P e)); [|by destruct (last (filter P es))].
  by rewrite last_cons.
Qed.

Lemma last_page_cons e es :
  last_page (e :: es)
  = match last_page es with
    | Some p => Some p
    | None => page_index e
    end.
Proof.
  unfold last_page.
  change (omap page_index (e :: es))
    with (match page_index e with
          | Some y => y :: omap page_index es
          | None => omap page_index es
          end).
  destruct (page_index e) as [p|].
  - by rewrite last_cons.
  - by destruct (last (omap page_index es)).
Qed.

(** The current letter is what the last letter-text block carries. *)
Lemma brief_letter_after es st :
  current_letter (foldl brief_step st es)
  = match last_letterText es with
    | Some lt => get lt "letter"
    | None => current_letter st
    end.
Proof.
  revert st. induction es as [|e es IH]; intros st; [done|]. simpl.
  rewrite IH. unfold last_letterText. rewrite last_filter_cons.
  destruct (last (filter (λ e, tag e = "letterText") es)); [done|].
  destruct (decide (tag e = "letterText")) as [Ht|Ht].
  - unfold brief_step. by rewrite decide_True.
  - by apply brief_step_letter.
Qed.

Lemma brief_step_page_index st e :
  current_page (brief_step st e)
  = match page_index e with
    | Some p => Some p
    | None => current_page st
    end.
Proof.
  unfold brief_step, page_index.
  destruct (decide (tag e = "letterText")) as [Ht|Ht].
  { rewrite decide_False; [done|]. rewrite Ht. discriminate. }
  destruct (decide (tag e = "page")) as [Hp|Hp].
  { unfold truthy_val. by destruct (get e "index") as [[|c v]|]. }
  destruct (decide (tag e = "line")); [|done].
  by destruct (truthy_val (current_letter st)), (truthy_val (current_page st)),
    (truthy_val (get e "index")).
Qed.

(** The current page is the last non-empty index of a page marker. *)
Lemma brief_page_after es st :
  current_page (foldl brief_step st es)
  = match last_page es with
    | Some p => Some p
    | None => current_page st
    end.
Proof.
  revert st. induction es as [|e es IH]; intros st; [done|]. simpl.
  rewrite IH, last_page_cons. destruct (last_page es); [done|].
  apply brief_step_page_index.
Qed.

Lemma brief_step_records st e (l p x : string) :
  x ∈ lines_of (letter_pages (brief_step st e)) l p
  ↔ x ∈ lines_of (letter_pages st) l p
    ∨ (tag e = "line" ∧ truthy_val (get e "index") = Some x
       ∧ truthy_val (current_letter st) = Some l
       ∧ truthy_val (current_page st) = Some p).
Proof.
  unfold brief_step. destruct (decide (tag e = "letterText")) as [Ht|Ht].
  { simpl. split; [by left|]. intros [?|(Hl & _)]; [done|]. rewrite Hl in Ht. done. }
  destruct (decide (tag e = "page")) as [Hp|Hp].
  { destruct (truthy (get e "index")); simpl; (split; [by left|]);
      (intros [?|(Hl & _)]; [done|]); rewrite Hl in Hp; done. }
  destruct (decide (tag e = "line")) as [Hl|Hl].
  2: { split; [by left|]. by intros [?|(? & _)]. }
  destruct (truthy_val (current_letter st)) as [l'|];
    [|split; [by left|]; by intros [?|(_ & _ & ? & _)]].
  destruct (truthy_val (current_page st)) as [p'|];
    [|split; [by left|]; by intros [?|(_ & _ & _ & ?)]].
  destruct (truthy_val (get e "index")) as [x'|];
    [|split; [by left|]; by intros [?|(_ & ? & _)]].
  simpl. rewrite lines_of_add_line. split.
  - intros [(-> & -> & ->)|?]; [by right|by left].
  - intros [?|(_ & [= ->] & [= ->] & [= ->])]; [by right|by left].
Qed.

(** What a scan of the transcription records on top of the state it starts
    from: the indexed lines met while a letter and a page are current. *)
Lemma brief_steps_records es st (l p x : string) :
  x ∈ lines_of (letter_pages (foldl brief_step st es)) l p
  ↔ x ∈ lines_of (letter_pages st) l p
    ∨ ∃ pre ln,
        line_after es pre ln x
        ∧ truthy_val (current_letter (foldl brief_step st pre)) = Some l
        ∧ truthy_val (current_page (foldl brief_step st pre)) = Some p.
Proof.
  revert st. induction es as [|e es IH]; intros st.
  - simpl. split; [by left|]. intros [?|(pre & ln & ([post Hpost] & _) & _)]; [done|].
    by destruct pre.
  - simpl. rewrite IH, brief_step_records. split.
    + intros [[?|(Ht & Hx & Hl & Hp)]|(pre & ln & ([post ->] & Ht & Hx) & Hl & Hp)].
      * by left.
      * right. exists [], e. split; [|done]. split; [by exists es|].
        split; [done|]. by apply truthy_val_Some.
      * right. exists (e :: pre), ln. split; [|done]. split; [by exists post|done].
    + intros [?|(pre & ln & ([post Hpost] & Ht & Hx) & Hl & Hp)]; [by left; left|].
      destruct pre as [|e' pre]; simpl in Hpost; simplify_eq.
      * left. right. split; [done|]. split; [|done]. by apply has_value_truthy.
      * right. exists pre, ln. split; [|done]. split; [by exists post|done].
Qed.

(** X1. The scan of the transcription records the line x under (letter,
    page) exactly when the first document element (or the root, if there is
    none) holds, in document order, a line marker with the non-empty index x
    such that the last letter-text block before it carries that non-empty
    letter and the last page marker with a non-empty index before it carries
    that page. *)
Theorem brief_scan_records (doc_root : elem) (l p x : string) :
  let es := iter (default doc_root (find "document" doc_root)) in
  x ∈ lines_of (build_letter_page_line_map_brief doc_root) l p
  ↔ ∃ pre ln lt,
      line_after es pre ln x
      ∧ last_letterText pre = Some lt ∧ has_value lt "letter" l
      ∧ last_page pre = Some p.
Proof.
  intros es. unfold build_letter_page_line_map_brief, brief_scan. fold es.
  rewrite brief_steps_records. simpl. split.
  - intros [Hin|(pre & ln & Hline & Hl & Hp)].
    { unfold lines_of, pages_of in Hin. rewrite lookup_empty in Hin. simpl in Hin.
      rewrite lookup_empty in Hin. by apply elem_of_empty in Hin. }
    rewrite brief_letter_after in Hl. rewrite brief_page_after in Hp. simpl in Hl, Hp.
    destruct (last_letterText pre) as [lt|] eqn:Hlt; [|done].
    destruct (last_page pre) as [p'|] eqn:Hlp; [|done].
    apply truthy_val_Some in Hl. apply truthy_val_Some in Hp as [[= ->] _].
    by exists pre, ln, lt.
  - intros (pre & ln & lt & Hline & Hlt & Hl & Hp). right. exists pre, ln.
    split; [done|]. rewrite brief_letter_after, brief_page_after, Hlt, Hp.
    split; [by apply has_value_truthy|].
    pose proof (brief_steps_page_truthy pre (Scan None None ∅) eq_refl) as Hok.
    rewrite brief_page_after, Hp in Hok. done.
Qed.

Lemma page_index_nonempty e p : page_index e = Some p → p ≠ "".
Proof.
  unfold page_index. destruct (decide (tag e = "page")); [|done].
  apply truthy_val_nonempty.
Qed.

Lemma last_page_nonempty es p : last_page es = Some p → p ≠ "".
Proof.
  unfold last_page. intros Hlast%last_Some_elem_of.
  apply list_elem_of_omap in Hlast as (e & _ & He). by apply page_index_nonempty in He.
Qed.

Lemma trad_step_page letter_id (st : option string * LocMap) e :
  (trad_step letter_id st e).1
  = match page_index e with
    | Some p => Some p
    | None => st.1
    end.
Proof.
  unfold trad_step, page_index. destruct (decide (tag e = "page")) as [Hp|Hp].
  { unfold truthy_val. by destruct (get e "index") as [[|c v]|]. }
  destruct (decide (tag e = "line")); [|done].
  by destruct (truthy_val st.1), (truthy_val (get e "index")).
Qed.

Lemma trad_page_after letter_id es (st : option string * LocMap) :
  (foldl (trad_step letter_id) st es).1
  = match last_page es with
    | Some p => Some p
    | None => st.1
    end.
Proof.
  revert st. induction es as [|e es IH]; intros st; [done|]. simpl.
  rewrite IH, last_page_cons. destruct (last_page es); [done|].
  apply trad_step_page.
Qed.

Lemma trad_step_records letter_id (st : option string * LocMap) e (l p x : string) :
  x ∈ lines_of (trad_step letter_id st e).2 l p
  ↔ x ∈ lines_of st.2 l p
    ∨ (letter_id = l ∧ tag e = "line" ∧ truthy_val (get e "index") = Some x
       ∧ truthy_val st.1 = Some p).
Proof.
  unfold trad_step. destruct (decide (tag e = "page")) as [Hp|Hp].
  { destruct (truthy (get e "index")); simpl; (split; [by left|]);
      (intros [?|(_ & Hl & _)]; [done|]); rewrite Hl in Hp; done. }
  destruct (decide (tag e = "line")) as [Hl|Hl].
  2: { split; [by left|]. by intros [?|(_ & ? & _)]. }
  destruct (truthy_val st.1) as [p'|];
    [|split; [by left|]; by intros [?|(_ & _ & _ & ?)]].
  destruct (truthy_val (get e "index")) as [x'|];
    [|split; [by left|]; by intros [?|(_ & _ & ? & _)]].
  simpl. rewrite lines_of_add_line. split.
  - intros [(-> & -> & ->)|?]; [by right|by left].
  - intros [?|(-> & _ & [= ->] & [= ->])]; [by right|by left].
Qed.

Lemma trad_steps_records letter_id es (st : option string * LocMap) (l p x : string) :
  x ∈ lines_of (foldl (trad_step letter_id) st es).2 l p
  ↔ x ∈ lines_of st.2 l p
    ∨ (letter_id = l
       ∧ ∃ pre ln,
           line_after es pre ln x
           ∧ truthy_val (foldl (trad_step letter_id) st pre).1 = Some p).
Proof.
  revert st. induction es as [|e es IH]; intros st.
  - simpl. split; [by left|].
    intros [?|(_ & pre & ln & ([post Hpost] & _) & _)]; [done|]. by destruct pre.
  - simpl. rewrite IH, trad_step_records. split.
    + intros [[?|(Hid & Ht & Hx & Hp)]|(Hid & pre & ln & ([post ->] & Ht & Hx) & Hp)].
      * by left.
      * right. split; [done|]. exists [], e. split; [|done]. split; [by exists es|].
        split; [done|]. by apply truthy_val_Some.
      * right. split; [done|]. exists (e :: pre), ln. split; [|done].
        split; [by exists post|done].
    + intros [?|(Hid & pre & ln & ([post Hpost] & Ht & Hx) & Hp)]; [by left; left|].
      destruct pre as [|e' pre]; simpl in Hpost; simplify_eq.
      * left. right. split; [done|]. split; [done|]. split; [|done].
        by apply has_value_truthy.
      * right. split; [done|]. exists pre, ln. split; [|done].
        split; [by exists post|done].
Qed.

(** What one block of the tradition adds to the map: the scan starts without
    a page, on the elements below the block. *)
Lemma trad_block_records (m : LocMap) block (l p x : string) :
  x ∈ lines_of (trad_block m block) l p
  ↔ x ∈ lines_of m l p
    ∨ (has_value block "letter" l
       ∧ ∃ pre ln, line_after (descendants block) pre ln x ∧ last_page pre = Some p).
Proof.
  unfold trad_block.
  destruct (truthy_val (get block "letter")) as [letter_id|] eqn:Hid.
  - rewrite trad_steps_records. simpl. apply truthy_val_Some in Hid. split.
    + intros [?|(<- & pre & ln & Hline & Hp)]; [by left|]. right. split; [done|].
      exists pre, ln. split; [done|]. rewrite trad_page_after in Hp. simpl in Hp.
      destruct (last_page pre) as [p'|]; [|done].
      by apply truthy_val_Some in Hp as [-> _].
    + intros [?|([Hget _] & pre & ln & Hline & Hp)]; [by left|]. right.
      destruct Hid as [Hget' _]. split; [congruence|]. exists pre, ln.
      split; [done|]. rewrite trad_page_after, Hp. simpl.
      apply truthy_val_Some. split; [done|]. by apply last_page_nonempty in Hp.
  - split; [by left|]. intros [?|(Hv & _)]; [done|].
    apply has_value_truthy in Hv. congruence.
Qed.

Lemma trad_blocks_records blocks (m : LocMap) (l p x : string) :
  x ∈ lines_of (foldl trad_block m blocks) l p
  ↔ x ∈ lines_of m l p
    ∨ ∃ block pre ln,
        block ∈ blocks ∧ has_value block "letter" l
        ∧ line_after (descendants block) pre ln x ∧ last_page pre = Some p.
Proof.
  revert m. induction blocks as [|b blocks IH]; intros m; simpl.
  - split; [by left|]. intros [?|(block & _ & _ & Hin & _)]; [done|].
    by apply elem_of_nil in Hin.
  - rewrite IH, trad_block_records. split.
    + intros [[?|(Hv & pre & ln & Hline & Hp)]|(block & pre & ln & Hin & Hrest)].
      * by left.
      * right. exists b, pre, ln. split; [apply list_elem_of_here|done].
      * right. exists block, pre, ln. split; [by apply list_elem_of_further|done].
    + intros [?|(block & pre & ln & [->|Hin]%elem_of_cons & Hv & Hline & Hp)].
      * by left; left.
      * left. right. split; [done|]. by exists pre, ln.
      * right. by exists block, pre, ln.
Qed.

(** X2. The scan of the tradition records the line x under (letter, page)
    exactly when some letter-tradition block below the root carries that
    non-empty letter and holds below it, in document order, a line marker with
    the non-empty index x after a page marker of the same block whose
    non-empty index, the last before the line, is that page. The page of one
    block is never carried into the next, and the attributes of the block's
    own element are not read as page or line. *)
Theorem trad_scan_records (trad_root : elem) (l p x : string) :
  x ∈ lines_of (build_letter_page_line_map_trad trad_root) l p
  ↔ ∃ block pre ln,
      block ∈ findall "letterTradition" trad_root
      ∧ has_value block "letter" l
      ∧ line_after (descendants block) pre ln x
      ∧ last_page pre = Some p.
Proof.
  unfold build_letter_page_line_map_trad. rewrite trad_blocks_records.
  split; [|by right]. intros [Hin|?]; [|done].
  unfold lines_of, pages_of in Hin. rewrite lookup_empty in Hin. simpl in Hin.
  rewrite lookup_empty in Hin. by apply elem_of_empty in Hin.
Qed.

(** ** The maps of a run hold no empty entry *)

Lemma lines_of_lookup (m : LocMap) (l p x : string) :
  x ∈ lines_of m l p → is_Some (m !! l) ∧ is_Some (pages_of m l !! p).
Proof.
  unfold lines_of, pages_of. destruct (m !! l) as [pd|]; simpl.
  - destruct (pd !! p); simpl; [by eauto|]. intros H. by apply elem_of_empty in H.
  - rewrite lookup_empty. simpl. intros H. by apply elem_of_empty in H.
Qed.

Lemma no_empty_entries_lines (m : LocMap) : no_empty_entries m ↔ entries_have_lines m.
Proof.
  unfold no_empty_entries, entries_have_lines. rewrite map_Forall_lookup. split.
  - intros Hm. split.
    + intros l [pd Hpd]. destruct (Hm l pd Hpd) as [Hne _].
      apply map_choose in Hne as (p & s & Hs). exists p.
      rewrite (lookup_pages_of _ _ _ Hpd). by eexists.
    + intros l p [s Hs]. destruct (m !! l) as [pd|] eqn:Hpd.
      * rewrite (lookup_pages_of _ _ _ Hpd) in Hs.
        destruct (Hm l pd Hpd) as [_ Hlines].
        rewrite map_Forall_lookup in Hlines. specialize (Hlines p s Hs).
        apply set_choose_L in Hlines as [x Hx]. exists x.
        unfold lines_of. by rewrite (lookup_pages_of _ _ _ Hpd), Hs.
      * unfold pages_of in Hs. rewrite Hpd in Hs. simpl in Hs.
        by rewrite lookup_empty in Hs.
  - intros [Hl Hp] l pd Hpd. split.
    + destruct (Hl l) as [p [s Hs]]; [by eexists|].
      rewrite (lookup_pages_of _ _ _ Hpd) in Hs. intros ->.
      by rewrite lookup_empty in Hs.
    + apply map_Forall_lookup. intros p s Hs.
      destruct (Hp l p) as [x Hx].
      { rewrite (lookup_pages_of _ _ _ Hpd). by eexists. }
      unfold lines_of in Hx. rewrite (lookup_pages_of _ _ _ Hpd), Hs in Hx.
      simpl in Hx. by apply (non_empty_inhabited_L x).
Qed.

Lemma entries_have_lines_empty : entries_have_lines ∅.
Proof.
  split.
  - intros l [pd Hpd]. by rewrite lookup_empty in Hpd.
  - intros l p [s Hs]. unfold pages_of in Hs. rewrite lookup_empty in Hs.
    simpl in Hs. by rewrite lookup_empty in Hs.
Qed.

Lemma entries_have_lines_add_line (m : LocMap) (l p x : string) :
  entries_have_lines m → entries_have_lines (add_line l p x m).
Proof.
  intros [Hl Hp]. split.
  - intros l' Hsome. destruct (decide (l = l')) as [<-|Hne].
    + exists p. rewrite pages_of_add_line, decide_True by done. by eexists.
    + unfold add_line in Hsome. rewrite lookup_insert_ne in Hsome by done.
      destruct (Hl l' Hsome) as [p' Hp']. exists p'.
      rewrite pages_of_add_line. by rewrite decide_False by (by intros [? _]).
  - intros l' p' Hsome. rewrite pages_of_add_line in Hsome.
    destruct (decide (l = l' ∧ p = p')) as [[<- <-]|Hne].
    + exists x. apply lines_of_add_line. by left.
    + destruct (Hp l' p' Hsome) as [x' Hx']. exists x'.
      apply lines_of_add_line. by right.
Qed.

Lemma entries_have_lines_brief doc_root :
  entries_have_lines (build_letter_page_line_map_brief doc_root).
Proof.
  unfold build_letter_page_line_map_brief, brief_scan.
  generalize (iter (default doc_root (find "document" doc_root))). intros es.
  assert (H : ∀ st, entries_have_lines (letter_pages st) →
                    entries_have_lines (letter_pages (foldl brief_step st es))).
  { induction es as [|e es IH]; intros st Hst; simpl; [done|]. apply IH.
    unfold brief_step. repeat case_decide; simpl; try done.
    - by destruct (truthy (get e "index")).
    - destruct (truthy_val (current_letter st)), (truthy_val (current_page st)),
        (truthy_val (get e "index")); simpl; try done.
      by apply entries_have_lines_add_line. }
  apply H. simpl. apply entries_have_lines_empty.
Qed.

Lemma entries_have_lines_trad trad_root :
  entries_have_lines (build_letter_page_line_map_trad trad_root).
Proof.
  unfold build_letter_page_line_map_trad.
  generalize (findall "letterTradition" trad_root). intros blocks.
  assert (H : ∀ m : LocMap, entries_have_lines m →
                            entries_have_lines (foldl trad_block m blocks)).
  { induction blocks as [|b blocks IH]; intros m Hm; simpl; [done|]. apply IH.
    unfold trad_block. destruct (truthy_val (get b "letter")) as [letter_id|]; [|done].
    generalize (descendants b). intros es.
    assert (H : ∀ st : option string * LocMap,
              entries_have_lines st.2 →
              entries_have_lines (foldl (trad_step letter_id) st es).2).
    { induction es as [|e es IHes]; intros st Hst; simpl; [done|]. apply IHes.
      unfold trad_step. repeat case_decide; simpl; try done.
      - by destruct (truthy (get e "index")).
      - destruct (truthy_val st.1), (truthy_val (get e "index")); simpl; try done.
        by apply entries_have_lines_add_line. }
    by apply H. }
  apply H, entries_have_lines_empty.
Qed.

Lemma join_lines_is_Some (o1 o2 : option (gset string)) :
  is_Some (join_lines o1 o2) ↔ is_Some o1 ∨ is_Some o2.
Proof.
  destruct o1, o2; simpl; split; eauto; intros [[? ?]|[? ?]]; done.
Qed.

Lemma entries_have_lines_merge (a b : LocMap) :
  entries_have_lines a → entries_have_lines b →
  entries_have_lines (merge_page_line_maps a b).
Proof.
  intros [Hal Hap] [Hbl Hbp]. split.
  - intros l [Hl|Hl]%merge_letters.
    + destruct (Hal l Hl) as [p Hp]. exists p.
      rewrite merge_lookup. apply join_lines_is_Some. by left.
    + destruct (Hbl l Hl) as [p Hp]. exists p.
      rewrite merge_lookup. apply join_lines_is_Some. by right.
  - intros l p Hsome. rewrite merge_lookup in Hsome.
    apply join_lines_is_Some in Hsome as [Hsome|Hsome].
    + destruct (Hap l p Hsome) as [x Hx]. exists x. rewrite merge_lines.
      apply elem_of_union. by left.
    + destruct (Hbp l p Hsome) as [x Hx]. exists x. rewrite merge_lines.
      apply elem_of_union. by right.
Qed.

(** X3. In the map a run checks against, a letter has an entry exactly when
    one of the two scans recorded a line for it, and a page is known under a
    letter exactly when a line was recorded on it; no letter, page or line of
    the map is the empty string. *)
Theorem merged_map_entries (inp : inputs) (l p : string) :
  let lp := merged_letter_pages inp in
  (is_Some (lp !! l) ↔ ∃ p' x, x ∈ lines_of lp l p')
  ∧ (is_Some (pages_of lp l !! p) ↔ ∃ x, x ∈ lines_of lp l p)
  ∧ (∀ x, x ∈ lines_of lp l p → l ≠ "" ∧ p ≠ "" ∧ x ≠ "").
Proof.
  intros lp.
  assert (Hlines : entries_have_lines lp).
  { apply entries_have_lines_merge;
      [apply entries_have_lines_brief|apply entries_have_lines_trad]. }
  destruct Hlines as [Hl Hp].
  destruct (no_empty_keys_run inp) as [Hk Hrest]. fold lp in Hk, Hrest.
  split; [|split].
  - split.
    + intros Hsome. destruct (Hl l Hsome) as [p' Hp']. exists p'. by apply Hp.
    + intros (p' & x & Hx). by apply lines_of_lookup in Hx as [? _].
  - split; [apply Hp|]. intros [x Hx]. by apply lines_of_lookup in Hx as [_ ?].
  - intros x Hx. split; [|split].
    + intros ->. apply lines_of_lookup in Hx as [[? Hs] _]. congruence.
    + intros ->. apply lines_of_lookup in Hx as [_ [? Hs]].
      destruct (Hrest l) as [Hnone _]. congruence.
    + intros ->. destruct (Hrest l) as [_ Hno]. by apply (Hno p).
Qed.

(** ** The order of the merge *)

(** A map without empty entries is determined by its page lookups. *)
Lemma maps_eq_by_pages (m m' : LocMap) :
  entries_have_lines m → entries_have_lines m' →
  (∀ l p, pages_of m l !! p = pages_of m' l !! p) → m = m'.
Proof.
  intros [Hl _] [Hl' _] Heq. apply map_eq. intros l.
  destruct (m !! l) as [pd|] eqn:Hpd, (m' !! l) as [pd'|] eqn:Hpd'; [| | |done].
  - f_equal. apply map_eq. intros p. specialize (Heq l p).
    by rewrite (lookup_pages_of _ _ _ Hpd), (lookup_pages_of _ _ _ Hpd') in Heq.
  - destruct (Hl l) as [p Hp]; [by eexists|]. rewrite Heq in Hp.
    unfold pages_of in Hp. rewrite Hpd' in Hp. simpl in Hp.
    rewrite lookup_empty in Hp. by destruct Hp.
  - destruct (Hl' l) as [p Hp]; [by eexists|]. rewrite <- Heq in Hp.
    unfold pages_of in Hp. rewrite Hpd in Hp. simpl in Hp.
    rewrite lookup_empty in Hp. by destruct Hp.
Qed.

Lemma join_lines_comm (o1 o2 : option (gset string)) : join_lines o1 o2 = join_lines o2 o1.
Proof. destruct o1, o2; simpl; try done. f_equal. apply (comm_L (∪)). Qed.

Lemma join_lines_assoc (o1 o2 o3 : option (gset string)) :
  join_lines (join_lines o1 o2) o3 = join_lines o1 (join_lines o2 o3).
Proof. destruct o1, o2, o3; simpl; try done. f_equal. by rewrite (assoc_L (∪)). Qed.

Lemma join_lines_idemp (o : option (gset string)) : join_lines o o = o.
Proof. destruct o; simpl; [|done]. f_equal. apply (idemp_L (∪)). Qed.

(** X4. On maps without empty entries the merge is commutative, associative
    and idempotent: which map is merged into which makes no difference to the
    result. The maps of the two scans are such maps, so a run would check
    against the same map had it merged the transcription into the tradition. *)
Theorem merge_order_irrelevant (a b c : LocMap) :
  no_empty_entries a → no_empty_entries b → no_empty_entries c →
  merge_page_line_maps a b = merge_page_line_maps b a
  ∧ merge_page_line_maps (merge_page_line_maps a b) c
    = merge_page_line_maps a (merge_page_line_maps b c)
  ∧ merge_page_line_maps a a = a
  ∧ no_empty_entries (merge_page_line_maps a b)
  ∧ (∀ inp,
       merged_letter_pages inp
       = merge_page_line_maps (build_letter_page_line_map_trad (traditions_xml inp))
                              (build_letter_page_line_map_brief (briefe_xml inp))).
Proof.
  rewrite !no_empty_entries_lines. intros Ha Hb Hc.
  split; [|split; [|split; [|split]]].
  - apply maps_eq_by_pages; [by apply entries_have_lines_merge..|].
    intros l p. rewrite !merge_lookup. apply join_lines_comm.
  - apply maps_eq_by_pages; [by repeat apply entries_have_lines_merge..|].
    intros l p. rewrite !merge_lookup. apply join_lines_assoc.
  - apply maps_eq_by_pages; [by apply entries_have_lines_merge|done|].
    intros l p. rewrite !merge_lookup. apply join_lines_idemp.
  - by apply entries_have_lines_merge.
  - intros inp. unfold merged_letter_pages.
    apply maps_eq_by_pages;
      [apply entries_have_lines_merge; auto using entries_have_lines_brief,
         entries_have_lines_trad..|].
    intros l p. rewrite !merge_lookup. apply join_lines_comm.
Qed.

(** Merging the two sample maps in either order. *)
Lemma merge_order_irrelevant_witness :
  merge_page_line_maps map_L1_3_5 map_L1_3_7 = merge_page_line_maps map_L1_3_7 map_L1_3_5.
Proof.
  refine (proj1 (merge_order_irrelevant map_L1_3_5 map_L1_3_7 map_L1_3_5 _ _ _)); by_eval.
Defined.

(** ** Links and notes that pass *)

Lemma has_no_value e attr v : has_value e attr v → no_value e attr → False.
Proof. intros [Hget Hne] [Hno|Hno]; congruence. Qed.

Lemma has_value_inj e attr v v' : has_value e attr v → has_value e attr v' → v = v'.
Proof. intros [Hget _] [Hget' _]. congruence. Qed.

Lemma intlink_body_passes (file_path : string) (lp : LocMap)
    (letter_refs : gset (option string)) (intlink : elem) :
  entries_have_lines lp →
  intlink_body file_path lp letter_refs intlink = []
  ↔ ∃ l, has_value intlink "letter" l ∧ Some l ∈ letter_refs
         ∧ intlink_target lp intlink l.
Proof.
  intros [Hl Hp]. unfold intlink_body, intlink_target.
  destruct (value_cases intlink "letter") as [Hno|[l Hv]].
  { rewrite (no_value_truthy _ _ Hno). split; [done|].
    intros (l & Hv & _). destruct (has_no_value _ _ _ Hv Hno). }
  rewrite (has_value_truthy _ _ _ Hv). pose proof Hv as [Hget _]. rewrite Hget.
  destruct (bool_decide_reflect (Some l ∉ letter_refs)) as [Hnot|Hin%dec_stable].
  { split; [done|]. intros (l' & Hv' & Hin & _).
    by rewrite (has_value_inj _ _ _ _ Hv' Hv) in Hin. }
  destruct (lp !! l) as [pages|] eqn:Hpages.
  2: { split; [done|]. intros (l' & Hv' & _ & Htarget).
       rewrite (has_value_inj _ _ _ _ Hv' Hv) in Htarget.
       assert (∃ p x, x ∈ lines_of lp l p) as (p & x & Hx)
         by (destruct Htarget as [(p & _ & [(x & _ & ?)|(_ & x & ?)])|(_ & _ & ?)]; eauto).
       apply lines_of_lookup in Hx as [[? ?] _]. congruence. }
  assert (Hpo : pages_of lp l = pages) by by apply lookup_pages_of.
  destruct (value_cases intlink "page") as [Hnop|[p Hvp]].
  - rewrite (no_value_truthy _ _ Hnop).
    destruct (value_cases intlink "line") as [Hnol|[x Hvx]].
    + rewrite (no_value_truthy _ _ Hnol). split; [|done]. intros _.
      exists l. split; [done|]. split; [done|]. right. split; [done|]. split; [done|].
      destruct (Hl l) as [p Hsome]; [by eexists|].
      destruct (Hp l p Hsome) as [x Hx]. by exists p, x.
    + rewrite (has_value_truthy _ _ _ Hvx). split; [done|].
      intros (l' & _ & _ & [(p & Hvp & _)|(_ & Hnol & _)]).
      * destruct (has_no_value _ _ _ Hvp Hnop).
      * destruct (has_no_value _ _ _ Hvx Hnol).
  - rewrite (has_value_truthy _ _ _ Hvp).
    destruct (pages !! p) as [lines|] eqn:Hlines.
    2: { split; [done|]. intros (l' & Hv' & _ & Htarget).
         rewrite (has_value_inj _ _ _ _ Hv' Hv) in Htarget.
         destruct Htarget as [(p' & Hvp' & Hx)|(Hnop & _)];
           [|destruct (has_no_value _ _ _ Hvp Hnop)].
         rewrite (has_value_inj _ _ _ _ Hvp' Hvp) in Hx.
         assert (∃ x, x ∈ lines_of lp l p) as [x Hx']
           by (destruct Hx as [(x & _ & ?)|(_ & x & ?)]; eauto).
         apply lines_of_lookup in Hx' as [_ [? Hs]]. rewrite Hpo in Hs. congruence. }
    assert (Hlo : lines_of lp l p = lines) by (unfold lines_of; by rewrite Hpo, Hlines).
    destruct (value_cases intlink "line") as [Hnol|[x Hvx]].
    + rewrite (no_value_truthy _ _ Hnol). split; [|done]. intros _.
      exists l. split; [done|]. split; [done|]. left. exists p. split; [done|].
      right. split; [done|]. apply Hp. rewrite Hpo. by eexists.
    + rewrite (has_value_truthy _ _ _ Hvx).
      destruct (bool_decide_reflect (x ∉ lines)) as [Hnotin|Hinl%dec_stable].
      * split; [done|]. intros (l' & Hv' & _ & Htarget).
        rewrite (has_value_inj _ _ _ _ Hv' Hv) in Htarget.
        destruct Htarget as [(p' & Hvp' & [(x' & Hvx' & Hx)|(Hnol & _)])|(Hnop & _)].
        -- rewrite (has_value_inj _ _ _ _ Hvp' Hvp), (has_value_inj _ _ _ _ Hvx' Hvx),
             Hlo in Hx. done.
        -- destruct (has_no_value _ _ _ Hvx Hnol).
        -- destruct (has_no_value _ _ _ Hvp Hnop).
      * split; [|done]. intros _. exists l. split; [done|]. split; [done|].
        left. exists p. split; [done|]. left. exists x. split; [done|]. by rewrite Hlo.
Qed.

(** X5. In a run an internal link passes exactly when its letter has a
    non-empty value that the metadata knows and the place it points to was
    recorded: with a non-empty page, some line was recorded on that page of
    the letter and the link's line, if non-empty, is one of them; without a
    page the link has no line either and some line of the letter was
    recorded. *)
Theorem intlink_passes_iff (inp : inputs) (file_path : string) (intlink : elem) :
  intlink_body file_path (merged_letter_pages inp)
               (attr_set "letterDesc" "letter" (meta_xml inp)) intlink = []
  ↔ ∃ l, has_value intlink "letter" l
         ∧ (∃ desc, desc ∈ findall "letterDesc" (meta_xml inp)
                    ∧ get desc "letter" = Some l)
         ∧ intlink_target (merged_letter_pages inp) intlink l.
Proof.
  rewrite intlink_body_passes.
  2: { apply entries_have_lines_merge;
         [apply entries_have_lines_brief|apply entries_have_lines_trad]. }
  split; intros (l & Hv & Hin & Ht); exists l; (split; [done|]); (split; [|done]);
    by apply elem_of_attr_set.
Qed.

Lemma marginal_body_passes (file_path : string) (lp : LocMap)
    (letter_refs : gset (option string)) (marginal_elem : elem) :
  marginal_body file_path lp letter_refs marginal_elem = []
  ↔ get marginal_elem "letter" ∈ letter_refs
    ∧ ∃ l p x, get marginal_elem "letter" = Some l
               ∧ get marginal_elem "page" = Some p
               ∧ get marginal_elem "line" = Some x
               ∧ x ∈ lines_of lp l p.
Proof.
  unfold marginal_body.
  destruct (bool_decide_reflect (get marginal_elem "letter" ∉ letter_refs))
    as [Hnot|Hin%dec_stable]; [split; [done|by intros [? _]]|].
  destruct (get marginal_elem "letter") as [l|]; simpl;
    [|split; [done|by intros (_ & ? & ? & ? & ? & _)]].
  destruct (lp !! l) as [pages|] eqn:Hpages.
  2: { split; [done|]. intros (_ & l' & p & x & [= <-] & _ & _ & Hx).
       apply lines_of_lookup in Hx as [[? ?] _]. congruence. }
  assert (Hpo : pages_of lp l = pages) by by apply lookup_pages_of.
  destruct (get marginal_elem "page") as [p|]; simpl;
    [|split; [done|by intros (_ & ? & ? & ? & _ & ? & _)]].
  destruct (pages !! p) as [lines|] eqn:Hlines.
  2: { split; [done|]. intros (_ & l' & p' & x & [= <-] & [= <-] & _ & Hx).
       apply lines_of_lookup in Hx as [_ [? Hs]]. rewrite Hpo in Hs. congruence. }
  assert (Hlo : lines_of lp l p = lines) by (unfold lines_of; by rewrite Hpo, Hlines).
  destruct (get marginal_elem "line") as [x|]; simpl;
    [|split; [done|by intros (_ & ? & ? & ? & _ & _ & ? & _)]].
  destruct (bool_decide_reflect (x ∈ lines)) as [Hx|Hx].
  - split; [|done]. intros _. split; [done|]. exists l, p, x. by rewrite Hlo.
  - split; [done|]. intros (_ & l' & p' & x' & [= <-] & [= <-] & [= <-] & Hx').
    by rewrite Hlo in Hx'.
Qed.

(** X6. In a run a marginal note passes exactly when it carries all three
    attributes, its letter is the letter of some letter descriptor of the
    metadata, and its line was recorded on its page of that letter by the
    scan of the transcription or by the scan of the tradition. *)
Theorem marginal_passes_iff (inp : inputs) (marginal_elem : elem) :
  marginal_body (marginalien_file inp) (merged_letter_pages inp)
                (attr_set "letterDesc" "letter" (meta_xml inp)) marginal_elem = []
  ↔ ∃ l p x,
      get marginal_elem "letter" = Some l
      ∧ get marginal_elem "page" = Some p
      ∧ get marginal_elem "line" = Some x
      ∧ (∃ desc, desc ∈ findall "letterDesc" (meta_xml inp) ∧ get desc "letter" = Some l)
      ∧ (x ∈ lines_of (build_letter_page_line_map_brief (briefe_xml inp)) l p
         ∨ x ∈ lines_of (build_letter_page_line_map_trad (traditions_xml inp)) l p).
Proof.
  rewrite marginal_body_passes. unfold merged_letter_pages. split.
  - intros (Hin & l & p & x & Hl & Hp & Hx & Hlines). exists l, p, x.
    rewrite Hl in Hin. apply elem_of_attr_set in Hin.
    rewrite merge_lines in Hlines. by apply elem_of_union in Hlines.
  - intros (l & p & x & Hl & Hp & Hx & Hin & Hlines). split.
    + rewrite Hl. by apply elem_of_attr_set.
    + exists l, p, x. rewrite merge_lines. by rewrite elem_of_union.
Qed.

(** ** How many duplicates a run reports *)

Lemma kommentar_kind_local_ok : kind_local_ok kommentar_kind.
Proof. split; simpl; congruence. Qed.

Lemma subsection_kind_local_ok : kind_local_ok subsection_kind.
Proof. split; simpl; congruence. Qed.

Lemma subsection_foreign_kommentar_local id :
  foreign subsection_kind (DuplicateKommentarLocal id).
Proof. split; [done|]. by intros id'. Qed.

Lemma kommentar_foreign_subsection_local id :
  foreign kommentar_kind (DuplicateSubsectionLocal id).
Proof. split; [done|]. by intros id'. Qed.

Section entry_count_local.
Variable kind : entry_kind.
Variable file_path : string.
Hypothesis ok : kind_local_ok kind.

Lemma count_entry_new_local id local global e :
  count_msg (duplicate_local kind id) (entry_new kind file_path local global e)
  = if decide (entry_id e = Some id ∧ id ∈ local) then 1 else 0.
Proof.
  destruct ok as [Hmid Hglob Hlem Hinj]. unfold entry_new.
  destruct (entry_id e) as [id'|].
  - rewrite !count_msg_app.
    assert (count_msg (duplicate_local kind id)
              (if bool_decide (id' ∈ global)
               then [Error file_path (get_line_number e) (duplicate_global kind id')]
               else []) = 0) as ->.
    { destruct (bool_decide (id' ∈ global)); [|done].
      rewrite count_msg_one. simpl. rewrite decide_False; [done|].
      intros Heq. by apply (Hglob id id'). }
    assert (count_msg (duplicate_local kind id)
              (if lemma_missing e
               then [Error file_path (get_line_number e) (missing_lemma kind id')]
               else []) = 0) as ->.
    { destruct (lemma_missing e); [|done].
      rewrite count_msg_one. simpl. rewrite decide_False; [done|].
      intros Heq. by apply (Hlem id id'). }
    rewrite !Nat.add_0_r.
    destruct (bool_decide_reflect (id' ∈ local)) as [Hin|Hin].
    + rewrite count_msg_one. simpl.
      destruct (decide (duplicate_local kind id' = duplicate_local kind id)) as [Heq|Hne].
      * apply Hinj in Heq as ->. by rewrite decide_True.
      * rewrite decide_False; [done|]. intros [Heq _]. by simplify_eq.
    + rewrite decide_False; [done|]. intros [Heq ?]. by simplify_eq.
  - rewrite count_msg_one. simpl.
    rewrite decide_False; [done|]. intros Heq. by apply (Hmid id).
Qed.

(** The local duplicates of one identifier over a run of entries: each entry
    that carries it, but the first when the file had not shown it yet. *)
Lemma count_entry_loop_local id l local global :
  count_msg (duplicate_local kind id) (entry_loop_new kind file_path local global l)
  = if decide (id ∈ local) then occurrences id l else pred (occurrences id l).
Proof.
  revert local global. induction l as [|e l IH]; intros local global; simpl.
  - by destruct (decide (id ∈ local)).
  - rewrite count_msg_app, count_entry_new_local, IH, occurrences_cons.
    destruct (decide (entry_id e = Some id)) as [He|He].
    + rewrite (decide_True (P := id ∈ with_entry local e))
        by (apply with_entry_elem; by right).
      destruct (decide (id ∈ local)) as [Hin|Hin].
      * by rewrite decide_True.
      * rewrite decide_False by (by intros [_ ?]). simpl. done.
    + rewrite decide_False by (by intros [? _]). simpl.
      destruct (decide (id ∈ local)) as [Hin|Hin].
      * rewrite decide_True; [done|]. apply with_entry_elem. by left.
      * rewrite decide_False; [done|]. intros [?|?]%with_entry_elem; done.
Qed.

End entry_count_local.

Lemma in_pool_after (id : string) (pool : gset string) l :
  id ∈ pool ∪ ids_of l ↔ id ∈ pool ∨ 0 < occurrences id l.
Proof. by rewrite elem_of_union, occurrences_pos. Qed.

Lemma count_after_pool (id : string) (pool : gset string) l (t : nat) :
  (if decide (id ∈ pool) then occurrences id l else pred (occurrences id l))
  + (if decide (id ∈ pool ∪ ids_of l) then t else pred t)
  = if decide (id ∈ pool) then occurrences id l + t else pred (occurrences id l + t).
Proof.
  destruct (decide (id ∈ pool)) as [Hin|Hin].
  - rewrite decide_True; [done|]. apply in_pool_after. by left.
  - destruct (decide (id ∈ pool ∪ ids_of l)) as [Hafter|Hafter].
    + apply in_pool_after in Hafter as [?|Hpos]; [done|]. lia.
    + assert (¬ 0 < occurrences id l) by (intros Hpos; apply Hafter, in_pool_after; by right).
      lia.
Qed.

Lemma count_registers_global_kommentar id regs (kommentar_ids subsection_ids : gset string) :
  count_msg (DuplicateKommentarGlobal id) (registers_new kommentar_ids subsection_ids regs)
  = if decide (id ∈ kommentar_ids) then total_occurrences "kommentar" id regs
    else pred (total_occurrences "kommentar" id regs).
Proof.
  unfold total_occurrences. revert kommentar_ids subsection_ids.
  induction regs as [|r regs IH]; intros kommentar_ids subsection_ids; simpl.
  - by destruct (decide (id ∈ kommentar_ids)).
  - rewrite !count_msg_app, IH.
    rewrite (count_entry_loop_foreign subsection_kind)
      by apply subsection_foreign_kommentar.
    pose proof (count_entry_loop_global kommentar_kind r.1 kommentar_kind_ok id
                  (findall "kommentar" r.2) ∅ kommentar_ids) as Hc.
    simpl in Hc. rewrite Hc. simpl. apply count_after_pool.
Qed.

Lemma count_registers_global_subsection id regs (kommentar_ids subsection_ids : gset string) :
  count_msg (DuplicateSubsectionGlobal id) (registers_new kommentar_ids subsection_ids regs)
  = if decide (id ∈ subsection_ids) then total_occurrences "subsection" id regs
    else pred (total_occurrences "subsection" id regs).
Proof.
  unfold total_occurrences. revert kommentar_ids subsection_ids.
  induction regs as [|r regs IH]; intros kommentar_ids subsection_ids; simpl.
  - by destruct (decide (id ∈ subsection_ids)).
  - rewrite !count_msg_app, IH.
    rewrite (count_entry_loop_foreign kommentar_kind)
      by apply kommentar_foreign_subsection.
    pose proof (count_entry_loop_global subsection_kind r.1 subsection_kind_ok id
                  (findall "subsection" r.2) ∅ subsection_ids) as Hc.
    simpl in Hc. rewrite Hc. simpl. apply count_after_pool.
Qed.

Lemma count_registers_local_kommentar id regs (kommentar_ids subsection_ids : gset string) :
  count_msg (DuplicateKommentarLocal id) (registers_new kommentar_ids subsection_ids regs)
  = repeated_occurrences "kommentar" id regs.
Proof.
  unfold repeated_occurrences. revert kommentar_ids subsection_ids.
  induction regs as [|r regs IH]; intros kommentar_ids subsection_ids; simpl; [done|].
  rewrite !count_msg_app, IH.
  rewrite (count_entry_loop_foreign subsection_kind)
    by apply subsection_foreign_kommentar_local.
  pose proof (count_entry_loop_local kommentar_kind r.1 kommentar_kind_local_ok id
                (findall "kommentar" r.2) ∅ kommentar_ids) as Hc.
  simpl in Hc. rewrite Hc. rewrite decide_False by apply not_elem_of_empty. reflexivity.
Qed.

Lemma count_registers_local_subsection id regs (kommentar_ids subsection_ids : gset string) :
  count_msg (DuplicateSubsectionLocal id) (registers_new kommentar_ids subsection_ids regs)
  = repeated_occurrences "subsection" id regs.
Proof.
  unfold repeated_occurrences. revert kommentar_ids subsection_ids.
  induction regs as [|r regs IH]; intros kommentar_ids subsection_ids; simpl; [done|].
  rewrite !count_msg_app, IH.
  rewrite (count_entry_loop_foreign kommentar_kind)
    by apply kommentar_foreign_subsection_local.
  pose proof (count_entry_loop_local subsection_kind r.1 subsection_kind_local_ok id
                (findall "subsection" r.2) ∅ subsection_ids) as Hc.
  simpl in Hc. rewrite Hc. rewrite decide_False by apply not_elem_of_empty. reflexivity.
Qed.

Lemma count_run_registry m inp :
  registry_message m = true →
  count_msg m (collect_errors inp) = count_msg m (registers_new ∅ ∅ (register_trees inp)).
Proof.
  intros Hm. rewrite collect_errors_traversal.
  destruct (traversal_errors_split inp) as (rest & -> & Hrest).
  rewrite count_msg_app, (count_msg_checks_only _ rest) by done. lia.
Qed.

(** X7. The duplicate violations of a whole run, counted per identifier: an
    identifier carried by n entries over all registers gets n - 1 violations
    "duplicate across registers" (none when n = 0), whatever the order of the
    registers and however the entries are spread over them; and it gets one
    violation "duplicate in this file" for each entry that repeats an entry
    of its own register. Entries and subsections are counted apart: a
    subsection never counts against an entry of the same identifier. *)
Theorem duplicate_counts (inp : inputs) (id : string) :
  let regs := register_trees inp in
  count_msg (DuplicateKommentarGlobal id) (collect_errors inp)
  = pred (total_occurrences "kommentar" id regs)
  ∧ count_msg (DuplicateSubsectionGlobal id) (collect_errors inp)
    = pred (total_occurrences "subsection" id regs)
  ∧ count_msg (DuplicateKommentarLocal id) (collect_errors inp)
    = repeated_occurrences "kommentar" id regs
  ∧ count_msg (DuplicateSubsectionLocal id) (collect_errors inp)
    = repeated_occurrences "subsection" id regs.
Proof.
  intros regs. subst regs. rewrite !count_run_registry by done.
  rewrite count_registers_global_kommentar, count_registers_global_subsection,
    count_registers_local_kommentar, count_registers_local_subsection.
  by rewrite !decide_False by apply not_elem_of_empty.
Qed.

(** ** Registers without violations *)

Lemma lemma_missing_false e : lemma_missing e = false ↔ has_lemma e.
Proof.
  unfold has_lemma. split.
  - unfold lemma_missing, find. destruct (head (findall "lemma" e)) as [d|] eqn:Hd; [|done].
    intros _. apply head_Some_elem_of, elem_of_findall in Hd as [Ht Hd]. by exists d.
  - intros (d & Hd & Ht). destruct (lemma_missing e) eqn:Hm; [|done].
    pose proof (proj1 (lemma_missing_subtree e) Hm) as Hno. by destruct (Hno d Hd).
Qed.

Lemma clean_entries_nil pool : clean_entries pool [].
Proof.
  split; [constructor|]. split; [constructor|]. intros id Hin. by apply elem_of_nil in Hin.
Qed.

Lemma clean_entries_cons pool e l :
  clean_entries pool (e :: l)
  ↔ ∃ id, entry_id e = Some id ∧ (id ∉ pool) ∧ has_lemma e
          ∧ clean_entries ({[id]} ∪ pool) l.
Proof.
  unfold clean_entries. rewrite Forall_cons. simpl. split.
  - intros (([[id Hid] Hlem] & Hall) & Hnd & Hnew). rewrite Hid in Hnd, Hnew.
    apply NoDup_cons in Hnd as [Hnotin Hnd]. exists id.
    split; [done|]. split; [apply Hnew, list_elem_of_here|]. split; [done|].
    split; [done|]. split; [done|]. intros id' Hin' Hunion.
    apply elem_of_union in Hunion as [->%elem_of_singleton|Hp]; [done|].
    by apply (Hnew id' (list_elem_of_further _ _ _ Hin')).
  - intros (id & Hid & Hnotin & Hlem & Hall & Hnd & Hnew). rewrite Hid.
    split; [by eauto|]. split.
    + apply NoDup_cons. split; [|done]. intros Hin. apply (Hnew id Hin).
      apply elem_of_union. left. by apply elem_of_singleton.
    + intros id' [->|Hin]%elem_of_cons; [done|]. intros Hp. apply (Hnew id' Hin).
      apply elem_of_union. by right.
Qed.

Lemma clean_entries_app pool l1 l2 :
  clean_entries pool (l1 ++ l2)
  ↔ clean_entries pool l1 ∧ clean_entries (pool ∪ ids_of l1) l2.
Proof.
  revert pool. induction l1 as [|e l1 IH]; intros pool; simpl.
  - unfold ids_of. simpl. rewrite (right_id_L ∅ (∪)).
    split; [by split; [apply clean_entries_nil|]|by intros [_ ?]].
  - rewrite !clean_entries_cons. split.
    + intros (id & Hid & Hnotin & Hlem & [H1 H2]%IH). split; [by exists id|].
      replace (pool ∪ ids_of (e :: l1)) with ({[id]} ∪ pool ∪ ids_of l1); [done|].
      unfold ids_of. simpl. fold (entry_id e). rewrite Hid. simpl. set_solver.
    + intros [(id & Hid & Hnotin & Hlem & H1) H2]. exists id.
      split; [done|]. split; [done|]. split; [done|]. apply IH. split; [done|].
      replace ({[id]} ∪ pool ∪ ids_of l1) with (pool ∪ ids_of (e :: l1)); [done|].
      unfold ids_of. simpl. fold (entry_id e). rewrite Hid. simpl. set_solver.
Qed.

Section entry_silent.
Variable kind : entry_kind.
Variable file_path : string.

Lemma entry_new_nil local global e :
  entry_new kind file_path local global e = []
  ↔ ∃ id, entry_id e = Some id ∧ (id ∉ local) ∧ (id ∉ global) ∧ has_lemma e.
Proof.
  setoid_rewrite <- lemma_missing_false. unfold entry_new.
  destruct (entry_id e) as [id|]; [|split; [done|by intros (? & ? & _)]].
  destruct (bool_decide_reflect (id ∈ local)) as [Hl|Hl];
    [split; [done|intros (? & [= <-] & ? & _); done]|].
  destruct (bool_decide_reflect (id ∈ global)) as [Hg|Hg];
    [split; [done|intros (? & [= <-] & _ & ? & _); done]|].
  destruct (lemma_missing e); simpl.
  - split; [done|]. by intros (? & _ & _ & _ & ?).
  - split; [|done]. intros _. by exists id.
Qed.

(** A run of entries in a fresh file appends nothing exactly when it is clean
    for the pool. *)
Lemma entry_loop_new_nil local global l :
  local ⊆ global →
  entry_loop_new kind file_path local global l = [] ↔ clean_entries global l.
Proof.
  revert local global. induction l as [|e l IH]; intros local global Hsub; simpl.
  - split; [intros _; apply clean_entries_nil|done].
  - rewrite app_nil, entry_new_nil, clean_entries_cons. split.
    + intros [(id & Hid & Hl & Hg & Hlem) Hrest]. exists id.
      split; [done|]. split; [done|]. split; [done|].
      unfold with_entry in Hrest. rewrite Hid in Hrest.
      apply IH in Hrest; [done|]. set_solver.
    + intros (id & Hid & Hg & Hlem & Hrest). split.
      * exists id. split; [done|]. split; [|done]. intros Hl. by apply Hg, Hsub.
      * unfold with_entry. rewrite Hid. apply IH; [set_solver|done].
Qed.

End entry_silent.

Lemma registers_new_nil regs (kommentar_ids subsection_ids : gset string) :
  registers_new kommentar_ids subsection_ids regs = []
  ↔ clean_entries kommentar_ids (all_entries "kommentar" regs)
    ∧ clean_entries subsection_ids (all_entries "subsection" regs).
Proof.
  revert kommentar_ids subsection_ids.
  induction regs as [|r regs IH]; intros kommentar_ids subsection_ids; simpl.
  - split; [intros _; split; apply clean_entries_nil|done].
  - rewrite !app_nil, IH, !clean_entries_app.
    rewrite !entry_loop_new_nil by apply empty_subseteq. naive_solver.
Qed.

(** X8. Gathering the registers of a run appends no violation exactly when,
    over all registers together and for entries and subsections apart, every
    entry carries a non-empty id and has a lemma somewhere below it, and no
    two entries carry the same id. *)
Theorem registers_silent_iff (register_trees : list (string * elem)) :
  r_errors (gather_registers register_trees (Registry [] ∅ ∅)) = []
  ↔ clean_entries ∅ (all_entries "kommentar" register_trees)
    ∧ clean_entries ∅ (all_entries "subsection" register_trees).
Proof. rewrite gather_registers_errors. simpl. apply registers_new_nil. Qed.

(** ** The order of the registers *)

Lemma all_ids_perm t (regs regs' : list (string * elem)) :
  regs ≡ₚ regs' → all_ids t regs = all_ids t regs'.
Proof.
  unfold all_ids. induction 1 as [|r regs regs' _ IH|r1 r2 regs|regs1 regs2 regs3 _ IH1 _ IH2];
    csimpl.
  - done.
  - by rewrite IH.
  - rewrite !(assoc_L (∪)). f_equal. apply (comm_L (∪)).
  - by rewrite IH1.
Qed.

Lemma total_occurrences_perm t id (regs regs' : list (string * elem)) :
  regs ≡ₚ regs' → total_occurrences t id regs = total_occurrences t id regs'.
Proof.
  unfold total_occurrences.
  induction 1 as [|r regs regs' _ IH|r1 r2 regs|regs1 regs2 regs3 _ IH1 _ IH2]; csimpl.
  - done.
  - by rewrite IH.
  - lia.
  - by rewrite IH1.
Qed.

(** X9. The order in which the registers are given changes neither the two
    pools a run ends up with, nor, for any identifier, how many violations
    "duplicate across registers" are reported for it: only which of the
    entries is reported changes with the order. *)
Theorem register_order_irrelevant (regs regs' : list (string * elem)) :
  regs ≡ₚ regs' →
  let final := gather_registers regs (Registry [] ∅ ∅) in
  let final' := gather_registers regs' (Registry [] ∅ ∅) in
  global_kommentar_ids final = global_kommentar_ids final'
  ∧ global_subsection_ids final = global_subsection_ids final'
  ∧ ∀ id,
      count_msg (DuplicateKommentarGlobal id) (r_errors final)
      = count_msg (DuplicateKommentarGlobal id) (r_errors final')
      ∧ count_msg (DuplicateSubsectionGlobal id) (r_errors final)
        = count_msg (DuplicateSubsectionGlobal id) (r_errors final').
Proof.
  intros Hperm final final'. subst final final'.
  rewrite !gather_registers_kommentar_ids, !gather_registers_subsection_ids,
    !gather_registers_errors. simpl.
  rewrite (all_ids_perm "kommentar" _ _ Hperm), (all_ids_perm "subsection" _ _ Hperm).
  split; [done|]. split; [done|]. intros id.
  rewrite !count_registers_global_kommentar, !count_registers_global_subsection.
  by rewrite (total_occurrences_perm "kommentar" id _ _ Hperm),
    (total_occurrences_perm "subsection" id _ _ Hperm).
Qed.

(** The registers with K1 and with K2, gathered in both orders. *)
Lemma register_order_irrelevant_witness :
  global_kommentar_ids (gather_registers registers_K1_K2 (Registry [] ∅ ∅))
  = global_kommentar_ids (gather_registers registers_K2_K1 (Registry [] ∅ ∅)).
Proof.
  refine (proj1 (register_order_irrelevant registers_K1_K2 registers_K2_K1 _)).
  apply perm_swap.
Defined.

(** ** Where a violation comes from *)

Lemma lines_of_no_letter (lp : LocMap) (l p x : string) :
  lp !! l = None → x ∉ lines_of lp l p.
Proof. intros Hnone Hx. apply lines_of_lookup in Hx as [[? ?] _]. congruence. Qed.

Lemma lines_of_no_page (lp : LocMap) (l p x : string) :
  pages_of lp l !! p = None → x ∉ lines_of lp l p.
Proof. intros Hnone Hx. apply lines_of_lookup in Hx as [_ [? ?]]. congruence. Qed.

Lemma lines_of_lookups (lp : LocMap) (l p : string) pages lines :
  lp !! l = Some pages → pages !! p = Some lines → lines_of lp l p = lines.
Proof.
  intros Hpages Hlines. unfold lines_of. by rewrite (lookup_pages_of _ _ _ Hpages), Hlines.
Qed.

(** *** The entries of the registers *)

Lemma entry_new_elem kind file_path (local global : gset string) e (err : error) :
  err ∈ entry_new kind file_path local global e →
  (entry_id e = None ∧ msg err = missing_id kind)
  ∨ ∃ id, entry_id e = Some id
          ∧ (msg err = duplicate_local kind id ∨ msg err = duplicate_global kind id
             ∨ (msg err = missing_lemma kind id ∧ lemma_missing e = true)).
Proof.
  unfold entry_new. destruct (entry_id e) as [id|].
  - intros [Herr|[Herr|Herr]%elem_of_app]%elem_of_app; right; exists id; (split; [done|]).
    + destruct (bool_decide (id ∈ local)); [|by apply elem_of_nil in Herr].
      apply list_elem_of_singleton in Herr as ->. by left.
    + destruct (bool_decide (id ∈ global)); [|by apply elem_of_nil in Herr].
      apply list_elem_of_singleton in Herr as ->. by right; left.
    + destruct (lemma_missing e); [|by apply elem_of_nil in Herr].
      apply list_elem_of_singleton in Herr as ->. by right; right.
  - intros ->%list_elem_of_singleton. by left.
Qed.

Lemma entry_loop_new_elem kind file_path (local global : gset string) l (err : error) :
  err ∈ entry_loop_new kind file_path local global l →
  ∃ e local' global', e ∈ l ∧ err ∈ entry_new kind file_path local' global' e.
Proof.
  revert local global. induction l as [|e l IH]; intros local global; simpl.
  - by intros ?%elem_of_nil.
  - intros [Herr|Herr]%elem_of_app.
    + exists e, local, global. split; [apply list_elem_of_here|done].
    + destruct (IH _ _ Herr) as (e' & local' & global' & He' & Herr').
      exists e', local', global'. split; [by apply list_elem_of_further|done].
Qed.

Lemma run_pools inp :
  let reg := gather_registers (register_trees inp) (Registry [] ∅ ∅) in
  global_kommentar_ids reg = all_ids "kommentar" (register_trees inp)
  ∧ global_subsection_ids reg = all_ids "subsection" (register_trees inp).
Proof.
  simpl. rewrite gather_registers_kommentar_ids, gather_registers_subsection_ids.
  simpl. by rewrite !(left_id_L ∅ (∪)).
Qed.

(** ** The corpus on which a run succeeds *)

Lemma flat_map_nil_iff {A B} (f : A → list B) (l : list A) :
  flat_map f l = [] ↔ ∀ x, x ∈ l → f x = [].
Proof.
  induction l as [|a l IH]; simpl.
  - split; [by intros _ x ?%elem_of_nil|done].
  - rewrite app_nil, IH. split.
    + intros [Ha Hl] x [->|Hx]%elem_of_cons; [done|by apply Hl].
    + intros H. split; [apply H, list_elem_of_here|].
      intros x Hx. by apply H, list_elem_of_further.
Qed.

Lemma ref_check_nil (file_path : string) (refs : gset (option string)) (attr : string)
    (mk : string → message) (e : elem) :
  ref_check file_path refs attr mk e = [] ↔ resolves refs attr e.
Proof.
  unfold resolves. destruct (value_cases e attr) as [Hno|[v Hv]].
  - rewrite ref_check_no_value by done. split; [|done].
    intros _ v Hv. destruct (has_no_value _ _ _ Hv Hno).
  - destruct (decide (Some v ∈ refs)) as [Hin|Hnot].
    + rewrite (ref_check_resolved _ _ _ _ _ _ Hv Hin). split; [|done].
      intros _ v' Hv'. by rewrite (has_value_inj _ _ _ _ Hv' Hv).
    + rewrite (ref_check_unresolved _ _ _ _ _ _ Hv Hnot). split; [done|].
      intros H. destruct (Hnot (H v Hv)).
Qed.

Lemma ref_checks_nil (file_path : string) (refs : gset (option string)) (attr : string)
    (mk : string → message) (l : list elem) :
  flat_map (ref_check file_path refs attr mk) l = []
  ↔ ∀ e, e ∈ l → resolves refs attr e.
Proof.
  rewrite flat_map_nil_iff. split; intros H e He.
  - apply (proj1 (ref_check_nil file_path refs attr mk e)). by apply H.
  - apply (proj2 (ref_check_nil file_path refs attr mk e)). by apply H.
Qed.

Lemma link_body_nil (file_path : string) (regs : list (string * elem)) (link_elem : elem) :
  link_body file_path (all_ids "kommentar" regs) (all_ids "subsection" regs) link_elem = []
  ↔ link_ok regs link_elem.
Proof.
  unfold link_body, link_ok. rewrite app_nil.
  destruct (link_ref_check_spec file_path (all_ids "kommentar" regs)
              (all_ids "subsection" regs) link_elem) as [Hrno Hrv].
  destruct (link_subref_check_spec file_path (all_ids "subsection" regs) link_elem)
    as [Hsno Hsv].
  assert (Hr : link_ref_check file_path (all_ids "kommentar" regs)
                 (all_ids "subsection" regs) link_elem = []
               ↔ ∀ v, has_value link_elem "ref" v →
                      v ∈ all_ids "kommentar" regs ∨ v ∈ all_ids "subsection" regs).
  { destruct (value_cases link_elem "ref") as [Hno|[v Hv]].
    - rewrite (Hrno Hno). split; [|done]. intros _ v Hv.
      destruct (has_no_value _ _ _ Hv Hno).
    - destruct (Hrv v Hv) as [Hok Hbad].
      destruct (decide (v ∈ all_ids "kommentar" regs)) as [Hk|Hk];
        [|destruct (decide (v ∈ all_ids "subsection" regs)) as [Hs|Hs]].
      + rewrite Hok by by left. split; [|done].
        intros _ v' Hv'. rewrite (has_value_inj _ _ _ _ Hv' Hv). by left.
      + rewrite Hok by by right. split; [|done].
        intros _ v' Hv'. rewrite (has_value_inj _ _ _ _ Hv' Hv). by right.
      + rewrite (Hbad Hk Hs). split; [done|]. intros H. by destruct (H v Hv). }
  assert (Hs : link_subref_check file_path (all_ids "subsection" regs) link_elem = []
               ↔ ∀ v, has_value link_elem "subref" v → v ∈ all_ids "subsection" regs).
  { destruct (value_cases link_elem "subref") as [Hno|[v Hv]].
    - rewrite (Hsno Hno). split; [|done]. intros _ v Hv.
      destruct (has_no_value _ _ _ Hv Hno).
    - destruct (Hsv v Hv) as [Hok Hbad].
      destruct (decide (v ∈ all_ids "subsection" regs)) as [Hin|Hnot].
      + rewrite (Hok Hin). split; [|done].
        intros _ v' Hv'. by rewrite (has_value_inj _ _ _ _ Hv' Hv).
      + rewrite (Hbad Hnot). split; [done|]. intros H. destruct (Hnot (H v Hv)). }
  by rewrite Hr, Hs.
Qed.

Lemma letterDesc_errors_nil (file_path : string)
    (person_refs location_refs : gset (option string)) (letter : elem) :
  letterDesc_errors file_path person_refs location_refs letter = []
  ↔ (∀ e, e ∈ findall "sender" letter → resolves person_refs "ref" e)
    ∧ (∀ e, e ∈ findall "receiver" letter → resolves person_refs "ref" e)
    ∧ (∀ e, find "location" letter = Some e → resolves location_refs "ref" e).
Proof.
  unfold letterDesc_errors. rewrite !app_nil, !ref_checks_nil.
  destruct (find "location" letter) as [loc|].
  - rewrite ref_check_nil. split.
    + intros (Hs & Hr & Hl). split; [done|]. split; [done|]. by intros e [= <-].
    + intros (Hs & Hr & Hl). split; [done|]. split; [done|]. by apply Hl.
  - split; intros (Hs & Hr & _); done.
Qed.

Lemma letterText_errors_nil (file_path : string)
    (letter_refs hand_refs edit_refs : gset (option string)) (letter_text : elem) :
  letterText_errors file_path letter_refs hand_refs edit_refs letter_text = []
  ↔ resolves letter_refs "letter" letter_text
    ∧ (∀ e, e ∈ findall "hand" letter_text → resolves hand_refs "ref" e)
    ∧ (∀ e, e ∈ findall "edit" letter_text → resolves edit_refs "ref" e).
Proof. unfold letterText_errors. by rewrite !app_nil, !ref_checks_nil, ref_check_nil. Qed.

Lemma letterTradition_errors_nil (file_path : string)
    (letter_refs app_refs hand_refs : gset (option string)) (tradition : elem) :
  letterTradition_errors file_path letter_refs app_refs hand_refs tradition = []
  ↔ resolves letter_refs "letter" tradition
    ∧ (∀ e, e ∈ findall "app" tradition → resolves app_refs "ref" e)
    ∧ (∀ e, e ∈ findall "hand" tradition → resolves hand_refs "ref" e).
Proof.
  unfold letterTradition_errors. by rewrite !app_nil, !ref_checks_nil, ref_check_nil.
Qed.

Lemma entries_have_lines_run inp : entries_have_lines (merged_letter_pages inp).
Proof.
  apply entries_have_lines_merge;
    [apply entries_have_lines_brief|apply entries_have_lines_trad].
Qed.

Lemma traversal_errors_documents inp :
  let ix := run_indices inp in
  traversal_errors inp
  = registers_new ∅ ∅ (register_trees inp)
    ++ flat_map (letterDesc_errors (meta_file inp) (ix_persons ix) (ix_locations ix))
                (findall "letterDesc" (meta_xml inp))
    ++ flat_map (letterText_errors (briefe_file inp) (ix_letters ix) (ix_hands ix)
                                   (ix_edits ix))
                (findall "letterText" (briefe_xml inp))
    ++ flat_map (letterTradition_errors (traditions_file inp) (ix_letters ix)
                                        (ix_apps ix) (ix_hands ix))
                (findall "letterTradition" (traditions_xml inp))
    ++ flat_map (λ d, flat_map (intlink_body d.1 (ix_pages ix) (ix_letters ix))
                               (findall "intlink" d.2))
                (intlink_documents inp)
    ++ flat_map (marginal_body (marginalien_file inp) (ix_pages ix) (ix_letters ix))
                (findall "marginal" (marginalien_xml inp))
    ++ flat_map (λ d, flat_map (link_body d.1 (all_ids "kommentar" (register_trees inp))
                                          (all_ids "subsection" (register_trees inp)))
                               (findall "link" d.2))
                (link_documents inp).
Proof.
  unfold traversal_errors. destruct (run_pools inp) as [-> ->].
  unfold intlink_errors, link_errors, intlink_documents, link_documents.
  cbn [app flat_map ix_pages ix_letters ix_persons ix_locations ix_hands ix_apps
       ix_edits run_indices fst snd].
  by rewrite <- !(assoc_L (++)).
Qed.

Lemma traversal_errors_nil inp : traversal_errors inp = [] ↔ valid_corpus inp.
Proof.
  rewrite traversal_errors_documents. unfold valid_corpus.
  rewrite !app_nil, registers_new_nil, !flat_map_nil_iff.
  split.
  - intros (Hreg & Hdesc & Htext & Htrad & Hint & Hmarg & Hlink).
    split; [done|]. split; [|split; [|split; [|split; [|split]]]].
    + intros d Hd. apply (proj1 (letterDesc_errors_nil (meta_file inp) _ _ _)), (Hdesc d Hd).
    + intros t Ht. apply (proj1 (letterText_errors_nil (briefe_file inp) _ _ _ _)), (Htext t Ht).
    + intros t Ht. apply (proj1 (letterTradition_errors_nil (traditions_file inp) _ _ _ _)), (Htrad t Ht).
    + intros d e Hd He. specialize (Hint d Hd). rewrite flat_map_nil_iff in Hint.
      apply (proj1 (intlink_body_passes d.1 _ _ _ (entries_have_lines_run inp))).
      by apply Hint.
    + intros e He.
      apply (proj1 (marginal_body_passes (marginalien_file inp) _ _ _)), (Hmarg e He).
    + intros d e Hd He. specialize (Hlink d Hd). rewrite flat_map_nil_iff in Hlink.
      apply (proj1 (link_body_nil d.1 _ _)). by apply Hlink.
  - intros (Hreg & Hdesc & Htext & Htrad & Hint & Hmarg & Hlink).
    split; [done|]. split; [|split; [|split; [|split; [|split]]]].
    + intros d Hd. apply (proj2 (letterDesc_errors_nil (meta_file inp) _ _ _)), (Hdesc d Hd).
    + intros t Ht. apply (proj2 (letterText_errors_nil (briefe_file inp) _ _ _ _)), (Htext t Ht).
    + intros t Ht. apply (proj2 (letterTradition_errors_nil (traditions_file inp) _ _ _ _)), (Htrad t Ht).
    + intros d Hd. apply flat_map_nil_iff. intros e He.
      apply (proj2 (intlink_body_passes d.1 _ _ _ (entries_have_lines_run inp))).
      by apply (Hint d).
    + intros e He. apply (proj2 (marginal_body_passes _ _ _ _)), (Hmarg e He).
    + intros d Hd. apply flat_map_nil_iff. intros e He.
      apply (proj2 (link_body_nil d.1 _ _)). by apply (Hlink d).
Qed.

(** X11. A run succeeds on exactly the corpora without defect: it prints
    "All references are valid." with exit status 0 when every register entry
    and subsection has a non-empty id of its own and a lemma, every checked
    reference that has a value is defined, every internal link of the
    tradition, the marginal notes and the registers names a known letter and
    a recorded place, every marginal note names a known letter and a recorded
    line, and every link of the six documents and the registers has its
    targets in the registers; on every other corpus the exit status is 1. *)
Theorem run_succeeds_iff (inp : inputs) :
  (validate_references inp = (["All references are valid."], 0) ↔ valid_corpus inp)
  ∧ ((validate_references inp).2 = 1 ↔ ¬ valid_corpus inp).
Proof.
  rewrite <- traversal_errors_nil, <- collect_errors_traversal, validate_references_report.
  unfold report. destruct (collect_errors inp) as [|err errors]; simpl.
  - split; [done|]. split; [done|by intros []].
  - split; [done|]. split; [done|]. by intros _.
Qed.

(** ** Every defect is reported where it is *)

Lemma in_run_registers inp err :
  err ∈ registers_new ∅ ∅ (register_trees inp) → err ∈ collect_errors inp.
Proof.
  intros H. rewrite collect_errors_traversal, traversal_errors_documents.
  apply elem_of_app. by left.
Qed.

Lemma in_run_letterDesc inp d err :
  d ∈ findall "letterDesc" (meta_xml inp) →
  err ∈ letterDesc_errors (meta_file inp) (ix_persons (run_indices inp))
                          (ix_locations (run_indices inp)) d →
  err ∈ collect_errors inp.
Proof.
  intros Hd H. rewrite collect_errors_traversal, traversal_errors_documents.
  in_segment 1. apply elem_of_flat_map. by exists d.
Qed.

Lemma in_run_letterText inp t err :
  t ∈ findall "letterText" (briefe_xml inp) →
  err ∈ letterText_errors (briefe_file inp) (ix_letters (run_indices inp))
                          (ix_hands (run_indices inp)) (ix_edits (run_indices inp)) t →
  err ∈ collect_errors inp.
Proof.
  intros Ht H. rewrite collect_errors_traversal, traversal_errors_documents.
  in_segment 2. apply elem_of_flat_map. by exists t.
Qed.

Lemma in_run_letterTradition inp t err :
  t ∈ findall "letterTradition" (traditions_xml inp) →
  err ∈ letterTradition_errors (traditions_file inp) (ix_letters (run_indices inp))
                               (ix_apps (run_indices inp)) (ix_hands (run_indices inp)) t →
  err ∈ collect_errors inp.
Proof.
  intros Ht H. rewrite collect_errors_traversal, traversal_errors_documents.
  in_segment 3. apply elem_of_flat_map. by exists t.
Qed.

Lemma in_run_intlink inp d e err :
  d ∈ intlink_documents inp → e ∈ findall "intlink" d.2 →
  err ∈ intlink_body d.1 (ix_pages (run_indices inp)) (ix_letters (run_indices inp)) e →
  err ∈ collect_errors inp.
Proof.
  intros Hd He H. rewrite collect_errors_traversal, traversal_errors_documents.
  in_segment 4. apply elem_of_flat_map. exists d. split; [done|].
  apply elem_of_flat_map. by exists e.
Qed.

Lemma in_run_marginal inp e err :
  e ∈ findall "marginal" (marginalien_xml inp) →
  err ∈ marginal_body (marginalien_file inp) (ix_pages (run_indices inp))
                      (ix_letters (run_indices inp)) e →
  err ∈ collect_errors inp.
Proof.
  intros He H. rewrite collect_errors_traversal, traversal_errors_documents.
  in_segment 5. apply elem_of_flat_map. by exists e.
Qed.

Lemma in_run_link inp d e err :
  d ∈ link_documents inp → e ∈ findall "link" d.2 →
  err ∈ link_body d.1 (all_ids "kommentar" (register_trees inp))
                  (all_ids "subsection" (register_trees inp)) e →
  err ∈ collect_errors inp.
Proof.
  intros Hd He H. rewrite collect_errors_traversal, traversal_errors_documents.
  do 6 (apply elem_of_app; right). apply elem_of_flat_map. exists d. split; [done|].
  apply elem_of_flat_map. by exists e.
Qed.

Lemma ref_check_reports (file_path : string) (refs : gset (option string)) (attr : string)
    (mk : string → message) (e : elem) (v : string) :
  has_value e attr v → Some v ∉ refs →
  Error file_path (get_line_number e) (mk v) ∈ ref_check file_path refs attr mk e.
Proof.
  intros Hv Hnot. rewrite (ref_check_unresolved _ _ _ _ _ _ Hv Hnot).
  apply list_elem_of_here.
Qed.

Lemma ref_checks_report (file_path : string) (refs : gset (option string)) (attr : string)
    (mk : string → message) (l : list elem) (e : elem) (v : string) :
  e ∈ l → has_value e attr v → Some v ∉ refs →
  Error file_path (get_line_number e) (mk v)
    ∈ flat_map (ref_check file_path refs attr mk) l.
Proof.
  intros He Hv Hnot. apply elem_of_flat_map. exists e. split; [done|].
  by apply ref_check_reports.
Qed.

(** X12. Every defect that a check looks for is reported in the run, under
    the file name of its document and the line of the element that has it:
    a sender or receiver below a letter descriptor and the first location
    below it whose ref has a value that is not defined, a letter-text or
    letter-tradition block whose letter has a value that the metadata does
    not know, a link of any of the six documents or the registers whose ref
    or subref has a value that no register holds, and whatever the check of
    an internal link or a marginal note yields against the merged map. *)
Theorem defect_reported_at_element (inp : inputs) :
  let ix := run_indices inp in
  let regs := register_trees inp in
  (∀ d e v,
     d ∈ findall "letterDesc" (meta_xml inp) → has_value e "ref" v →
     (e ∈ findall "sender" d → Some v ∉ ix_persons ix →
      Error (meta_file inp) (get_line_number e) (InvalidSenderRef v (get d "letter"))
        ∈ collect_errors inp)
     ∧ (e ∈ findall "receiver" d → Some v ∉ ix_persons ix →
        Error (meta_file inp) (get_line_number e) (InvalidReceiverRef v (get d "letter"))
          ∈ collect_errors inp)
     ∧ (find "location" d = Some e → Some v ∉ ix_locations ix →
        Error (meta_file inp) (get_line_number e) (InvalidLocationRef v (get d "letter"))
          ∈ collect_errors inp))
  ∧ (∀ t l,
       has_value t "letter" l → Some l ∉ ix_letters ix →
       (t ∈ findall "letterText" (briefe_xml inp) →
        Error (briefe_file inp) (get_line_number t) (InvalidLetterReference l)
          ∈ collect_errors inp)
       ∧ (t ∈ findall "letterTradition" (traditions_xml inp) →
          Error (traditions_file inp) (get_line_number t) (InvalidLetterTradition l)
            ∈ collect_errors inp))
  ∧ (∀ d e v,
       d ∈ link_documents inp → e ∈ findall "link" d.2 →
       (has_value e "ref" v →
        v ∉ all_ids "kommentar" regs → v ∉ all_ids "subsection" regs →
        Error d.1 (get_line_number e) (InvalidLinkRef v) ∈ collect_errors inp)
       ∧ (has_value e "subref" v → v ∉ all_ids "subsection" regs →
          Error d.1 (get_line_number e) (InvalidLinkSubref v) ∈ collect_errors inp))
  ∧ (∀ d e err,
       d ∈ intlink_documents inp → e ∈ findall "intlink" d.2 →
       err ∈ intlink_body d.1 (ix_pages ix) (ix_letters ix) e →
       err ∈ collect_errors inp)
  ∧ (∀ e err,
       e ∈ findall "marginal" (marginalien_xml inp) →
       err ∈ marginal_body (marginalien_file inp) (ix_pages ix) (ix_letters ix) e →
       err ∈ collect_errors inp).
Proof.
  intros ix regs. subst ix regs. split; [|split; [|split; [|split]]].
  - intros d e v Hd Hv. split; [|split].
    + intros He Hnot. apply (in_run_letterDesc inp d _ Hd). unfold letterDesc_errors.
      in_segment 0.
      by apply (ref_checks_report _ _ _ (λ ref, InvalidSenderRef ref (get d "letter"))).
    + intros He Hnot. apply (in_run_letterDesc inp d _ Hd). unfold letterDesc_errors.
      in_segment 1.
      by apply (ref_checks_report _ _ _ (λ ref, InvalidReceiverRef ref (get d "letter"))).
    + intros He Hnot. apply (in_run_letterDesc inp d _ Hd). unfold letterDesc_errors.
      do 2 (apply elem_of_app; right). rewrite He.
      by apply (ref_check_reports _ _ _ (λ r, InvalidLocationRef r (get d "letter"))).
  - intros t l Hv Hnot. split.
    + intros Ht. apply (in_run_letterText inp t _ Ht). unfold letterText_errors.
      in_segment 0. by apply (ref_check_reports _ _ _ InvalidLetterReference).
    + intros Ht. apply (in_run_letterTradition inp t _ Ht). unfold letterTradition_errors.
      in_segment 0. by apply (ref_check_reports _ _ _ InvalidLetterTradition).
  - intros d e v Hd He. split.
    + intros Hv Hk Hs. apply (in_run_link inp d e _ Hd He). unfold link_body.
      apply elem_of_app. left.
      destruct (link_ref_check_spec d.1 (all_ids "kommentar" (register_trees inp))
                  (all_ids "subsection" (register_trees inp)) e) as [_ Hspec].
      destruct (Hspec v Hv) as [_ ->]; [apply list_elem_of_here|done|done].
    + intros Hv Hs. apply (in_run_link inp d e _ Hd He). unfold link_body.
      apply elem_of_app. right.
      destruct (link_subref_check_spec d.1 (all_ids "subsection" (register_trees inp)) e)
        as [_ Hspec].
      destruct (Hspec v Hv) as [_ ->]; [apply list_elem_of_here|done].
  - intros d e err. apply in_run_intlink.
  - intros e err. apply in_run_marginal.
Qed.

Lemma defect_reported_at_element_witness :
  Error "meta.xml" (Line 3) (InvalidSenderRef "P9" (Some "L1"))
    ∈ collect_errors inputs_sender_P9.
Proof.
  destruct (defect_reported_at_element inputs_sender_P9) as [H _].
  destruct (H letterDesc_sender_P9 (leaf "sender" [("ref", "P9")] 3) "P9") as [Hs _].
  - by_eval.
  - split; [reflexivity|discriminate].
  - apply Hs; by_eval.
Defined.

(** ** Every defect of a register entry is reported where it is *)

Lemma registers_new_app (kommentar_ids subsection_ids : gset string)
    (before rest : list (string * elem)) :
  registers_new kommentar_ids subsection_ids (before ++ rest)
  = registers_new kommentar_ids subsection_ids before
    ++ registers_new (kommentar_ids ∪ all_ids "kommentar" before)
                     (subsection_ids ∪ all_ids "subsection" before) rest.
Proof.
  revert kommentar_ids subsection_ids.
  induction before as [|r before IH]; intros kommentar_ids subsection_ids.
  - unfold all_ids. csimpl. by rewrite !(right_id_L ∅ (∪)).
  - cbn [app registers_new]. rewrite IH, <- !(assoc_L (++)).
    unfold all_ids. csimpl. by rewrite !(assoc_L (∪)).
Qed.

Lemma entry_new_defect kind file_path (local global : gset string) e m :
  entry_defect kind local global e m →
  Error file_path (get_line_number e) m ∈ entry_new kind file_path local global e.
Proof.
  unfold entry_defect, entry_new.
  intros [[-> ->]|(id & -> & [[Hin ->]|[[Hin ->]|[Hlem ->]]])].
  - apply list_elem_of_here.
  - in_segment 0. rewrite bool_decide_true by done. apply list_elem_of_here.
  - in_segment 1. rewrite bool_decide_true by done. apply list_elem_of_here.
  - do 2 (apply elem_of_app; right).
    destruct (lemma_missing e) eqn:Hmiss; [apply list_elem_of_here|].
    by apply lemma_missing_false in Hmiss.
Qed.

Lemma entry_loop_new_at kind file_path (local global : gset string) pre e post err :
  err ∈ entry_new kind file_path (local ∪ ids_of pre) (global ∪ ids_of pre) e →
  err ∈ entry_loop_new kind file_path local global (pre ++ e :: post).
Proof.
  intros H. rewrite entry_loop_new_app. apply elem_of_app. right.
  cbn [entry_loop_new]. apply elem_of_app. by left.
Qed.

(** X13. Every defect of a register entry is reported in the run, under the
    file name of its register and the line of the entry: an entry (and
    likewise a subsection) without a non-empty id; one whose id is carried by
    an entry before it in its own register, as a duplicate in this file; one
    whose id is carried by any entry before it, in its own or in an earlier
    register, as a duplicate across registers; and one with an id and no
    lemma below it. It is the later of two entries that is reported. *)
Theorem entry_defect_reported (inp : inputs) (before after : list (string * elem))
    (r : string * elem) (pre post : list elem) (e : elem) (m : message) :
  register_trees inp = before ++ r :: after →
  (findall "kommentar" r.2 = pre ++ e :: post →
   entry_defect kommentar_kind (ids_of pre) (all_ids "kommentar" before ∪ ids_of pre) e m →
   Error r.1 (get_line_number e) m ∈ collect_errors inp)
  ∧ (findall "subsection" r.2 = pre ++ e :: post →
     entry_defect subsection_kind (ids_of pre) (all_ids "subsection" before ∪ ids_of pre)
                  e m →
     Error r.1 (get_line_number e) m ∈ collect_errors inp).
Proof.
  intros Hregs. split; intros Hfind Hdefect; apply in_run_registers;
    rewrite Hregs, registers_new_app; apply elem_of_app; right;
    cbn [registers_new]; rewrite Hfind.
  - in_segment 0. apply entry_loop_new_at.
    rewrite !(left_id_L ∅ (∪)). by apply entry_new_defect.
  - in_segment 1. apply entry_loop_new_at.
    rewrite !(left_id_L ∅ (∪)). by apply entry_new_defect.
Qed.

Lemma entry_defect_reported_witness :
  Error "r.xml" (Line 4) (DuplicateKommentarLocal "K1") ∈ collect_errors inputs_K1_twice.
Proof.
  destruct (entry_defect_reported inputs_K1_twice [] [] ("r.xml", register_K1_twice)
              [kommentar_K1_first] [] kommentar_K1_again (DuplicateKommentarLocal "K1"))
    as [H _].
  - reflexivity.
  - apply H.
    + reflexivity.
    + right. exists "K1". split; [reflexivity|]. left. split; [by_eval|reflexivity].
Defined.

(** ** Where a violation points *)

Lemma in_subtree_trans a b c : in_subtree a b → in_subtree b c → in_subtree a c.
Proof.
  intros Hab Hbc. induction Hbc as [b c Hb|b m c Hm _ IH].
  - by apply in_subtree_deeper with b.
  - apply in_subtree_deeper with m; [done|]. by apply IH.
Qed.

Lemma find_Some_findall t root e : find t root = Some e → e ∈ findall t root.
Proof.
  unfold find. destruct (findall t root) as [|d l]; [done|].
  intros [= ->]. apply list_elem_of_here.
Qed.

Lemma ref_check_located (file_path : string) (refs : gset (option string)) (attr : string)
    (mk : string → message) (e : elem) (err : error) :
  err ∈ ref_check file_path refs attr mk e →
  ∃ v, err = Error file_path (get_line_number e) (mk v).
Proof.
  unfold ref_check. destruct (truthy_val (get e attr)) as [v|];
    [|by intros ?%elem_of_nil].
  destruct (bool_decide (Some v ∉ refs)); [|by intros ?%elem_of_nil].
  intros ->%list_elem_of_singleton. by exists v.
Qed.

Lemma intlink_body_located (file_path : string) (lp : LocMap)
    (refs : gset (option string)) (e : elem) (err : error) :
  err ∈ intlink_body file_path lp refs e →
  file err = file_path ∧ line err = get_line_number e
  ∧ element_tag (msg err) = "intlink".
Proof.
  unfold intlink_body.
  repeat match goal with
         | |- context [match ?x with _ => _ end] => destruct x
         end;
    first [by intros ?%elem_of_nil | by intros ->%list_elem_of_singleton].
Qed.

Lemma marginal_body_located (file_path : string) (lp : LocMap)
    (refs : gset (option string)) (e : elem) (err : error) :
  err ∈ marginal_body file_path lp refs e →
  file err = file_path ∧ line err = get_line_number e
  ∧ element_tag (msg err) = "marginal".
Proof.
  unfold marginal_body.
  repeat match goal with
         | |- context [match ?x with _ => _ end] => destruct x
         end;
    first [by intros ?%elem_of_nil | by intros ->%list_elem_of_singleton].
Qed.

Lemma link_body_located (file_path : string) (kommentar_ids subsection_ids : gset string)
    (e : elem) (err : error) :
  err ∈ link_body file_path kommentar_ids subsection_ids e →
  file err = file_path ∧ line err = get_line_number e ∧ element_tag (msg err) = "link".
Proof.
  unfold link_body, link_ref_check, link_subref_check. intros [H|H]%elem_of_app; revert H;
    repeat match goal with
           | |- context [match ?x with _ => _ end] => destruct x
           end;
    first [by intros ?%elem_of_nil | by intros ->%list_elem_of_singleton].
Qed.

Lemma entry_new_located kind (file_path : string) (local global : gset string)
    (e : elem) (err : error) :
  err ∈ entry_new kind file_path local global e →
  file err = file_path ∧ line err = get_line_number e.
Proof.
  unfold entry_new. destruct (entry_id e) as [id|].
  - intros [H|[H|H]%elem_of_app]%elem_of_app; revert H;
      match goal with |- context [if ?b then _ else _] => destruct b end;
      first [by intros ?%elem_of_nil | by intros ->%list_elem_of_singleton].
  - by intros ->%list_elem_of_singleton.
Qed.

Lemma registers_new_located (kommentar_ids subsection_ids : gset string) regs
    (err : error) :
  err ∈ registers_new kommentar_ids subsection_ids regs →
  ∃ r e local global,
    r ∈ regs
    ∧ ((e ∈ findall "kommentar" r.2
        ∧ err ∈ entry_new kommentar_kind r.1 local global e)
       ∨ (e ∈ findall "subsection" r.2
          ∧ err ∈ entry_new subsection_kind r.1 local global e)).
Proof.
  revert kommentar_ids subsection_ids. induction regs as [|r regs IH];
    intros kommentar_ids subsection_ids; cbn [registers_new].
  - by intros ?%elem_of_nil.
  - intros [Herr|[Herr|Herr]%elem_of_app]%elem_of_app.
    + apply entry_loop_new_elem in Herr as (e & local & global & He & Herr).
      exists r, e, local, global. split; [apply list_elem_of_here|]. by left.
    + apply entry_loop_new_elem in Herr as (e & local & global & He & Herr).
      exists r, e, local, global. split; [apply list_elem_of_here|]. by right.
    + destruct (IH _ _ Herr) as (r' & e & local & global & Hr' & Hcases).
      exists r', e, local, global. split; [by apply list_elem_of_further|done].
Qed.

Lemma entry_new_tag kind (t file_path : string) (local global : gset string)
    (e : elem) (err : error) :
  element_tag (missing_id kind) = t →
  (∀ id, element_tag (duplicate_local kind id) = t
         ∧ element_tag (duplicate_global kind id) = t
         ∧ element_tag (missing_lemma kind id) = t) →
  err ∈ entry_new kind file_path local global e → element_tag (msg err) = t.
Proof.
  intros Hmissing Hid Herr.
  apply entry_new_elem in Herr as [[_ ->]|(id & _ & [->|[->|[-> _]]])];
    [done|apply Hid..].
Qed.

Lemma points_to_below err d b e :
  in_subtree b d.2 → in_subtree e b → file err = d.1 → line err = get_line_number e →
  tag e = element_tag (msg err) → points_to err d e.
Proof.
  intros Hb He Hfile Hline Htag. split; [|done]. by apply in_subtree_trans with b.
Qed.

(** X14. Every violation of a run points to an element: its file is the
    file name of one of the documents of the run, its line is the line of an
    element of that document, and that element has the tag the message is
    about (the entry for the registry messages, the link, the internal link
    or the marginal note for theirs, the sender, receiver, location, hand,
    edit or app for an undefined reference, the block for an unknown
    letter). *)
Theorem violation_points_to_element (inp : inputs) (err : error) :
  err ∈ collect_errors inp →
  ∃ d e, d ∈ link_documents inp ∧ points_to err d e.
Proof.
  rewrite collect_errors_traversal, traversal_errors_documents.
  rewrite !elem_of_app, !elem_of_flat_map.
  intros [H|[H|[H|[H|[H|[H|H]]]]]].
  - apply registers_new_located in H
      as (r & e & local & global & Hr & [[He H]|[He H]]);
      exists r, e; (split; [apply elem_of_app; by right|]);
      apply elem_of_findall in He as [Htag He];
      destruct (entry_new_located _ _ _ _ _ _ H) as [Hfile Hline];
      (split; [done|]); (split; [done|]); (split; [done|]); rewrite Htag; symmetry.
    + by apply (entry_new_tag kommentar_kind "kommentar" _ _ _ _ _ eq_refl) in H.
    + by apply (entry_new_tag subsection_kind "subsection" _ _ _ _ _ eq_refl) in H.
  - destruct H as (d & [_ Hd]%elem_of_findall & H).
    exists (meta_file inp, meta_xml inp). unfold letterDesc_errors in H.
    apply elem_of_app in H as [(e & [Ht He]%elem_of_findall & H)%elem_of_flat_map|H];
      [|apply elem_of_app in H
          as [(e & [Ht He]%elem_of_findall & H)%elem_of_flat_map|H]].
    + exists e. split; [apply list_elem_of_here|].
      apply ref_check_located in H as [v ->]. by apply points_to_below with d.
    + exists e. split; [apply list_elem_of_here|].
      apply ref_check_located in H as [v ->]. by apply points_to_below with d.
    + destruct (find "location" d) as [e|] eqn:Hloc; [|by apply elem_of_nil in H].
      apply find_Some_findall, elem_of_findall in Hloc as [Ht He].
      exists e. split; [apply list_elem_of_here|].
      apply ref_check_located in H as [v ->]. by apply points_to_below with d.
  - destruct H as (t & [Htag Ht]%elem_of_findall & H).
    exists (briefe_file inp, briefe_xml inp). unfold letterText_errors in H.
    apply elem_of_app in H as [H|H];
      [|apply elem_of_app in H
          as [(e & [Hte He]%elem_of_findall & H)%elem_of_flat_map
             |(e & [Hte He]%elem_of_findall & H)%elem_of_flat_map]].
    + exists t. split; [do 2 apply list_elem_of_further; apply list_elem_of_here|].
      by apply ref_check_located in H as [v ->].
    + exists e. split; [do 2 apply list_elem_of_further; apply list_elem_of_here|].
      apply ref_check_located in H as [v ->]. by apply points_to_below with t.
    + exists e. split; [do 2 apply list_elem_of_further; apply list_elem_of_here|].
      apply ref_check_located in H as [v ->]. by apply points_to_below with t.
  - destruct H as (t & [Htag Ht]%elem_of_findall & H).
    exists (traditions_file inp, traditions_xml inp). unfold letterTradition_errors in H.
    apply elem_of_app in H as [H|H];
      [|apply elem_of_app in H
          as [(e & [Hte He]%elem_of_findall & H)%elem_of_flat_map
             |(e & [Hte He]%elem_of_findall & H)%elem_of_flat_map]].
    + exists t. split; [do 4 apply list_elem_of_further; apply list_elem_of_here|].
      by apply ref_check_located in H as [v ->].
    + exists e. split; [do 4 apply list_elem_of_further; apply list_elem_of_here|].
      apply ref_check_located in H as [v ->]. by apply points_to_below with t.
    + exists e. split; [do 4 apply list_elem_of_further; apply list_elem_of_here|].
      apply ref_check_located in H as [v ->]. by apply points_to_below with t.
  - destruct H as (d & Hd & (e & [Htag He]%elem_of_findall & H)%elem_of_flat_map).
    exists d, e. split.
    + unfold intlink_documents in Hd. unfold link_documents.
      apply elem_of_app in Hd as [Hd|Hd]; apply elem_of_app; [left|by right].
      apply elem_of_cons in Hd as [->|Hd];
        [do 4 apply list_elem_of_further; apply list_elem_of_here|].
      apply list_elem_of_singleton in Hd as ->.
      do 5 apply list_elem_of_further. apply list_elem_of_here.
    + apply intlink_body_located in H as (Hfile & Hline & Hmsg).
      split; [done|]. by rewrite Htag, Hmsg.
  - destruct H as (e & [Htag He]%elem_of_findall & H).
    exists (marginalien_file inp, marginalien_xml inp), e.
    split; [do 5 apply list_elem_of_further; apply list_elem_of_here|].
    apply marginal_body_located in H as (Hfile & Hline & Hmsg).
    split; [done|]. by rewrite Htag, Hmsg.
  - destruct H as (d & Hd & (e & [Htag He]%elem_of_findall & H)%elem_of_flat_map).
    exists d, e. split; [done|].
    apply link_body_located in H as (Hfile & Hline & Hmsg).
    split; [done|]. by rewrite Htag, Hmsg.
Qed.

Lemma violation_points_to_element_witness :
  ∃ d e, d ∈ link_documents inputs_sender_P9
         ∧ points_to (Error "meta.xml" (Line 3) (InvalidSenderRef "P9" (Some "L1"))) d e.
Proof.
  apply (violation_points_to_element inputs_sender_P9). by_eval.
Defined.

(** ** The violations of a run and the defects of its corpus *)

(** *** One check *)

Lemma elem_of_ref_check (file_path : string) (refs : gset (option string)) (attr : string)
    (mk : string → message) (e : elem) (err : error) :
  err ∈ ref_check file_path refs attr mk e
  ↔ ∃ v, has_value e attr v ∧ (Some v ∉ refs)
         ∧ err = Error file_path (get_line_number e) (mk v).
Proof.
  destruct (value_cases e attr) as [Hno|[v Hv]].
  - rewrite ref_check_no_value by done. split; [by intros ?%elem_of_nil|].
    intros (v & Hv & _). destruct (has_no_value _ _ _ Hv Hno).
  - destruct (decide (Some v ∈ refs)) as [Hin|Hnot].
    + rewrite (ref_check_resolved _ _ _ _ _ _ Hv Hin). split; [by intros ?%elem_of_nil|].
      intros (v' & Hv' & Hnot & _). by rewrite (has_value_inj _ _ _ _ Hv' Hv) in Hnot.
    + rewrite (ref_check_unresolved _ _ _ _ _ _ Hv Hnot), list_elem_of_singleton. split.
      * intros ->. by exists v.
      * intros (v' & Hv' & _ & ->). by rewrite (has_value_inj _ _ _ _ Hv' Hv).
Qed.

Lemma elem_of_link_body (file_path : string) (kommentar_ids subsection_ids : gset string)
    (e : elem) (err : error) :
  err ∈ link_body file_path kommentar_ids subsection_ids e
  ↔ (∃ v, has_value e "ref" v ∧ (v ∉ kommentar_ids) ∧ (v ∉ subsection_ids)
          ∧ err = Error file_path (get_line_number e) (InvalidLinkRef v))
    ∨ (∃ v, has_value e "subref" v ∧ (v ∉ subsection_ids)
            ∧ err = Error file_path (get_line_number e) (InvalidLinkSubref v)).
Proof.
  unfold link_body. rewrite elem_of_app.
  destruct (link_ref_check_spec file_path kommentar_ids subsection_ids e) as [Hrno Hrv].
  destruct (link_subref_check_spec file_path subsection_ids e) as [Hsno Hsv].
  apply Morphisms_Prop.or_iff_morphism.
  - destruct (value_cases e "ref") as [Hno|[v Hv]].
    + rewrite (Hrno Hno). split; [by intros ?%elem_of_nil|].
      intros (v & Hv & _). destruct (has_no_value _ _ _ Hv Hno).
    + destruct (Hrv v Hv) as [Hok Hbad].
      destruct (decide (v ∈ kommentar_ids)) as [Hk|Hk];
        [|destruct (decide (v ∈ subsection_ids)) as [Hs|Hs]].
      * rewrite Hok by by left. split; [by intros ?%elem_of_nil|].
        intros (v' & Hv' & Hnk & _). by rewrite (has_value_inj _ _ _ _ Hv' Hv) in Hnk.
      * rewrite Hok by by right. split; [by intros ?%elem_of_nil|].
        intros (v' & Hv' & _ & Hns & _). by rewrite (has_value_inj _ _ _ _ Hv' Hv) in Hns.
      * rewrite (Hbad Hk Hs), list_elem_of_singleton. split.
        -- intros ->. by exists v.
        -- intros (v' & Hv' & _ & _ & ->). by rewrite (has_value_inj _ _ _ _ Hv' Hv).
  - destruct (value_cases e "subref") as [Hno|[v Hv]].
    + rewrite (Hsno Hno). split; [by intros ?%elem_of_nil|].
      intros (v & Hv & _). destruct (has_no_value _ _ _ Hv Hno).
    + destruct (Hsv v Hv) as [Hok Hbad].
      destruct (decide (v ∈ subsection_ids)) as [Hs|Hs].
      * rewrite (Hok Hs). split; [by intros ?%elem_of_nil|].
        intros (v' & Hv' & Hns & _). by rewrite (has_value_inj _ _ _ _ Hv' Hv) in Hns.
      * rewrite (Hbad Hs), list_elem_of_singleton. split.
        -- intros ->. by exists v.
        -- intros (v' & Hv' & _ & ->). by rewrite (has_value_inj _ _ _ _ Hv' Hv).
Qed.

(** In a map whose entries have lines, a letter or a page has an entry
    exactly when a line is recorded for it. *)
Lemma no_entry_no_line (lp : LocMap) (l : string) :
  entries_have_lines lp → lp !! l = None ↔ ∀ p x, x ∉ lines_of lp l p.
Proof.
  intros [Hl Hp]. split.
  - intros Hnone p x. by apply lines_of_no_letter.
  - intros Hno. destruct (lp !! l) as [pages|] eqn:Hpages; [|done].
    destruct (Hl l) as [p Hsome]; [by rewrite Hpages|].
    destruct (Hp l p Hsome) as [x Hx]. destruct (Hno p x Hx).
Qed.

Lemma no_page_no_line (lp : LocMap) (l p : string) :
  entries_have_lines lp → pages_of lp l !! p = None ↔ ∀ x, x ∉ lines_of lp l p.
Proof.
  intros [Hl Hp]. split.
  - intros Hnone x. by apply lines_of_no_page.
  - intros Hno. destruct (pages_of lp l !! p) as [lines|] eqn:Hlines; [|done].
    destruct (Hp l p) as [x Hx]; [by rewrite Hlines|]. destruct (Hno x Hx).
Qed.

Lemma entry_has_line (lp : LocMap) (l : string) :
  entries_have_lines lp → is_Some (lp !! l) ↔ ∃ p x, x ∈ lines_of lp l p.
Proof.
  intros Hlp. split.
  - intros Hsome. destruct Hlp as [Hl Hp]. destruct (Hl l Hsome) as [p Hpage].
    destruct (Hp l p Hpage) as [x Hx]. by exists p, x.
  - intros (p & x & Hx). by apply lines_of_lookup in Hx as [? _].
Qed.

Lemma page_has_line (lp : LocMap) (l p : string) :
  entries_have_lines lp → is_Some (pages_of lp l !! p) ↔ ∃ x, x ∈ lines_of lp l p.
Proof.
  intros Hlp. split.
  - intros Hsome. destruct Hlp as [_ Hp]. by apply Hp.
  - intros (x & Hx). by apply lines_of_lookup in Hx as [_ ?].
Qed.

Lemma elem_of_intlink_body (ix : indices) (file_path : string) (e : elem) (err : error) :
  entries_have_lines (ix_pages ix) →
  err ∈ intlink_body file_path (ix_pages ix) (ix_letters ix) e
  ↔ ∃ m, intlink_defect ix e m ∧ err = Error file_path (get_line_number e) m.
Proof.
  intros Hlp. split.
  - unfold intlink_body.
    destruct (value_cases e "letter") as [Hno|[l Hl]].
    { rewrite (no_value_truthy _ _ Hno). intros ->%list_elem_of_singleton.
      eexists. split; [by apply intlink_no_letter|done]. }
    rewrite (has_value_truthy _ _ _ Hl).
    destruct (bool_decide_reflect (get e "letter" ∉ ix_letters ix)) as [Hnot|Hin].
    { intros ->%list_elem_of_singleton.
      eexists. split; [by apply intlink_unknown_letter|done]. }
    apply dec_stable in Hin. pose proof Hl as [Hget _]. rewrite Hget in Hin.
    destruct (ix_pages ix !! l) as [pages|] eqn:Hpages.
    2: { intros ->%list_elem_of_singleton. eexists. split; [|done].
         apply (intlink_no_pages ix e l); [done..|]. by apply no_entry_no_line. }
    assert (Hrec : ∃ p x, x ∈ lines_of (ix_pages ix) l p).
    { apply entry_has_line; [done|]. by rewrite Hpages. }
    destruct (value_cases e "page") as [Hnop|[p Hp]].
    + rewrite (no_value_truthy _ _ Hnop).
      destruct (value_cases e "line") as [Hnox|[x Hx]].
      * rewrite (no_value_truthy _ _ Hnox). by intros ?%elem_of_nil.
      * rewrite (has_value_truthy _ _ _ Hx). intros ->%list_elem_of_singleton.
        eexists. split; [|done]. by apply (intlink_line_without_page ix e l x).
    + rewrite (has_value_truthy _ _ _ Hp).
      destruct (pages !! p) as [lines|] eqn:Hlines.
      2: { intros ->%list_elem_of_singleton. eexists. split; [|done].
           apply (intlink_unknown_page ix e l p); [done..|].
           apply no_page_no_line; [done|]. by rewrite (lookup_pages_of _ _ _ Hpages). }
      destruct (value_cases e "line") as [Hnox|[x Hx]].
      * rewrite (no_value_truthy _ _ Hnox). by intros ?%elem_of_nil.
      * rewrite (has_value_truthy _ _ _ Hx).
        destruct (bool_decide_reflect (x ∉ lines)) as [Hx'|Hx']; [|by intros ?%elem_of_nil].
        intros ->%list_elem_of_singleton. eexists. split; [|done].
        apply (intlink_unknown_line ix e l p x); [done..| |done|].
        -- apply page_has_line; [done|].
           by rewrite (lookup_pages_of _ _ _ Hpages), Hlines.
        -- by rewrite (lines_of_lookups _ _ _ _ _ Hpages Hlines).
  - intros (m & Hd & ->). unfold intlink_body.
    destruct Hd as [Hno|Hnot|l Hl Hin Hnone|l p Hl Hin Hrec Hp Hnone
                   |l p x Hl Hin Hp Hrec Hx Hnot|l x Hl Hin Hrec Hnop Hx].
    + rewrite (no_value_truthy _ _ Hno). apply list_elem_of_here.
    + destruct (truthy_val (get e "letter")); [rewrite bool_decide_true by done|];
        apply list_elem_of_here.
    + rewrite (has_value_truthy _ _ _ Hl). destruct Hl as [Hget _]. rewrite Hget.
      rewrite bool_decide_false by (by intros Hn).
      rewrite (proj2 (no_entry_no_line _ l Hlp) Hnone). apply list_elem_of_here.
    + rewrite (has_value_truthy _ _ _ Hl). destruct Hl as [Hget _]. rewrite Hget.
      rewrite bool_decide_false by (by intros Hn).
      apply (entry_has_line _ _ Hlp) in Hrec as [pages Hpages]. rewrite Hpages.
      rewrite (has_value_truthy _ _ _ Hp).
      apply (no_page_no_line _ _ _ Hlp) in Hnone.
      rewrite (lookup_pages_of _ _ _ Hpages) in Hnone. rewrite Hnone.
      apply list_elem_of_here.
    + rewrite (has_value_truthy _ _ _ Hl). destruct Hl as [Hget _]. rewrite Hget.
      rewrite bool_decide_false by (by intros Hn).
      destruct Hrec as [x' Hx'].
      destruct (lines_of_lookup _ _ _ _ Hx') as [[pages Hpages] [lines Hlines]].
      rewrite Hpages, (has_value_truthy _ _ _ Hp).
      rewrite (lookup_pages_of _ _ _ Hpages) in Hlines. rewrite Hlines.
      rewrite (has_value_truthy _ _ _ Hx).
      rewrite (lines_of_lookups _ _ _ _ _ Hpages Hlines) in Hnot.
      rewrite bool_decide_true by done. apply list_elem_of_here.
    + rewrite (has_value_truthy _ _ _ Hl). destruct Hl as [Hget _]. rewrite Hget.
      rewrite bool_decide_false by (by intros Hn).
      apply (entry_has_line _ _ Hlp) in Hrec as [pages Hpages]. rewrite Hpages.
      rewrite (no_value_truthy _ _ Hnop), (has_value_truthy _ _ _ Hx).
      apply list_elem_of_here.
Qed.

Lemma elem_of_marginal_body (ix : indices) (file_path : string) (e : elem) (err : error) :
  entries_have_lines (ix_pages ix) →
  err ∈ marginal_body file_path (ix_pages ix) (ix_letters ix) e
  ↔ ∃ m, marginal_defect ix e m ∧ err = Error file_path (get_line_number e) m.
Proof.
  intros Hlp. split.
  - unfold marginal_body.
    destruct (bool_decide_reflect (get e "letter" ∉ ix_letters ix)) as [Hnot|Hin].
    { intros ->%list_elem_of_singleton.
      eexists. split; [by apply marginal_unknown_letter|done]. }
    apply dec_stable in Hin.
    destruct (lookup_opt (get e "letter") (ix_pages ix)) as [pages|] eqn:Hpages.
    2: { intros ->%list_elem_of_singleton. eexists. split; [|done].
         apply marginal_no_pages; [done|].
         destruct (get e "letter") as [l|]; [right|by left].
         exists l. split; [done|]. by apply no_entry_no_line. }
    destruct (get e "letter") as [l|] eqn:Hl; [|done]. simpl in Hpages.
    assert (Hrec : ∃ p x, x ∈ lines_of (ix_pages ix) l p).
    { apply entry_has_line; [done|]. by rewrite Hpages. }
    destruct (lookup_opt (get e "page") pages) as [lines|] eqn:Hlines.
    2: { intros ->%list_elem_of_singleton. eexists. split; [|done].
         apply (marginal_unknown_page ix e l); [done..|].
         destruct (get e "page") as [p|]; [right|by left].
         exists p. split; [done|]. apply no_page_no_line; [done|].
         by rewrite (lookup_pages_of _ _ _ Hpages). }
    destruct (get e "page") as [p|] eqn:Hp; [|done]. simpl in Hlines.
    destruct (mem_opt (get e "line") lines) eqn:Hmem; [by intros ?%elem_of_nil|].
    intros ->%list_elem_of_singleton. eexists. split; [|done].
    apply (marginal_unknown_line ix e l p); [done..| |].
    + apply page_has_line; [done|].
      by rewrite (lookup_pages_of _ _ _ Hpages), Hlines.
    + destruct (get e "line") as [x|]; [right|by left].
      exists x. split; [done|]. rewrite (lines_of_lookups _ _ _ _ _ Hpages Hlines).
      by apply bool_decide_eq_false in Hmem.
  - intros (m & Hd & ->). unfold marginal_body.
    destruct Hd as [Hnot|Hin Hnone|l Hl Hin Hrec Hnone|l p Hl Hin Hp Hrec Hnone].
    + rewrite bool_decide_true by done. apply list_elem_of_here.
    + rewrite bool_decide_false by (by intros Hn).
      assert (Hlook : lookup_opt (get e "letter") (ix_pages ix) = None).
      { destruct Hnone as [->|(l & -> & Hno)]; [done|]. by apply no_entry_no_line. }
      rewrite Hlook. apply list_elem_of_here.
    + rewrite Hl. rewrite bool_decide_false by (by intros Hn). simpl.
      apply (entry_has_line _ _ Hlp) in Hrec as [pages Hpages]. rewrite Hpages.
      assert (Hlook : lookup_opt (get e "page") pages = None).
      { destruct Hnone as [->|(p & -> & Hno)]; [done|]. simpl.
        apply (no_page_no_line _ _ _ Hlp) in Hno.
        by rewrite (lookup_pages_of _ _ _ Hpages) in Hno. }
      rewrite Hlook. apply list_elem_of_here.
    + rewrite Hl, Hp. rewrite bool_decide_false by (by intros Hn). simpl.
      destruct Hrec as [x' Hx'].
      destruct (lines_of_lookup _ _ _ _ Hx') as [[pages Hpages] [lines Hlines]].
      rewrite Hpages. rewrite (lookup_pages_of _ _ _ Hpages) in Hlines. rewrite Hlines.
      assert (Hmem : mem_opt (get e "line") lines = false).
      { destruct Hnone as [->|(x & -> & Hno)]; [done|]. simpl.
        rewrite (lines_of_lookups _ _ _ _ _ Hpages Hlines) in Hno.
        by apply bool_decide_eq_false. }
      rewrite Hmem. apply list_elem_of_here.
Qed.

(** *** The registers *)

Lemma elem_of_entry_new kind (file_path : string) (local global : gset string)
    (e : elem) (err : error) :
  err ∈ entry_new kind file_path local global e
  ↔ ∃ m, entry_defect kind local global e m
         ∧ err = Error file_path (get_line_number e) m.
Proof.
  split; [|intros (m & Hm & ->); by apply entry_new_defect].
  unfold entry_new, entry_defect. destruct (entry_id e) as [id|].
  - intros [H|[H|H]%elem_of_app]%elem_of_app.
    + destruct (bool_decide_reflect (id ∈ local)); [|by apply elem_of_nil in H].
      apply list_elem_of_singleton in H as ->. eexists. split; [|done].
      right. exists id. split; [done|]. by left.
    + destruct (bool_decide_reflect (id ∈ global)); [|by apply elem_of_nil in H].
      apply list_elem_of_singleton in H as ->. eexists. split; [|done].
      right. exists id. split; [done|]. right. by left.
    + destruct (lemma_missing e) eqn:Hmiss; [|by apply elem_of_nil in H].
      apply list_elem_of_singleton in H as ->. eexists. split; [|done].
      right. exists id. split; [done|]. right. right. split; [|done].
      intros Hhas%lemma_missing_false. congruence.
  - intros ->%list_elem_of_singleton. eexists. split; [|done]. by left.
Qed.

Lemma with_entry_ids_of (ids : gset string) (e : elem) (l : list elem) :
  with_entry ids e ∪ ids_of l = ids ∪ ids_of (e :: l).
Proof. unfold ids_of, with_entry. simpl. destruct (entry_id e); simpl; set_solver. Qed.

Lemma ids_of_nil : ids_of [] = ∅.
Proof. done. Qed.

Lemma elem_of_entry_loop_new kind (file_path : string) (local global : gset string)
    (l : list elem) (err : error) :
  err ∈ entry_loop_new kind file_path local global l
  ↔ ∃ pre e post,
      l = pre ++ e :: post
      ∧ err ∈ entry_new kind file_path (local ∪ ids_of pre) (global ∪ ids_of pre) e.
Proof.
  split; [|intros (pre & e & post & -> & H); by apply entry_loop_new_at].
  revert local global. induction l as [|e l IH]; intros local global; simpl.
  - by intros ?%elem_of_nil.
  - intros [H|H]%elem_of_app.
    + exists [], e, l. split; [done|]. by rewrite ids_of_nil, !(right_id_L ∅ (∪)).
    + destruct (IH _ _ H) as (pre & e' & post & -> & H').
      exists (e :: pre), e', post. split; [done|]. by rewrite <- !with_entry_ids_of.
Qed.

Lemma all_ids_cons t (r : string * elem) (regs : list (string * elem)) :
  all_ids t (r :: regs) = ids_of (findall t r.2) ∪ all_ids t regs.
Proof. done. Qed.

Lemma all_ids_nil t : all_ids t [] = ∅.
Proof. done. Qed.

Lemma elem_of_registers_new (kommentar_ids subsection_ids : gset string)
    (regs : list (string * elem)) (err : error) :
  err ∈ registers_new kommentar_ids subsection_ids regs
  ↔ ∃ before r after,
      regs = before ++ r :: after
      ∧ (err ∈ entry_loop_new kommentar_kind r.1 ∅
                 (kommentar_ids ∪ all_ids "kommentar" before) (findall "kommentar" r.2)
         ∨ err ∈ entry_loop_new subsection_kind r.1 ∅
                   (subsection_ids ∪ all_ids "subsection" before)
                   (findall "subsection" r.2)).
Proof.
  split.
  - revert kommentar_ids subsection_ids. induction regs as [|r regs IH];
      intros kommentar_ids subsection_ids; cbn [registers_new].
    + by intros ?%elem_of_nil.
    + intros [H|[H|H]%elem_of_app]%elem_of_app.
      * exists [], r, regs. split; [done|]. left.
        by rewrite all_ids_nil, (right_id_L ∅ (∪)).
      * exists [], r, regs. split; [done|]. right.
        by rewrite all_ids_nil, (right_id_L ∅ (∪)).
      * destruct (IH _ _ H) as (before & r' & after & -> & H').
        exists (r :: before), r', after. split; [done|].
        by rewrite !all_ids_cons, !(assoc_L (∪)).
  - intros (before & r & after & -> & H). rewrite registers_new_app.
    apply elem_of_app. right. cbn [registers_new].
    destruct H as [H|H]; [in_segment 0|in_segment 1]; done.
Qed.

Lemma elem_of_registers (regs : list (string * elem)) (err : error) :
  err ∈ registers_new ∅ ∅ regs ↔ registry_defect regs err.
Proof.
  unfold registry_defect. rewrite elem_of_registers_new. split.
  - intros (before & r & after & -> & [H|H]);
      apply elem_of_entry_loop_new in H as (pre & e & post & Hfind & H);
      apply elem_of_entry_new in H as (m & Hm & ->);
      rewrite !(left_id_L ∅ (∪)) in Hm;
      exists before, r, after, pre, e, post, m; (split; [done|]); (split; [|done]);
      [left|right]; done.
  - intros (before & r & after & pre & e & post & m & -> & [[Hfind Hm]|[Hfind Hm]] & ->);
      exists before, r, after; (split; [done|]); [left|right];
      apply elem_of_entry_loop_new; exists pre, e, post; (split; [done|]);
      apply elem_of_entry_new; exists m; (split; [|done]);
      by rewrite !(left_id_L ∅ (∪)).
Qed.

(** *** The run *)

Lemma has_value_present e attr v : has_value e attr v → present e attr v.
Proof. by intros [? _]. Qed.

Lemma reference_defect_mono (value value' : elem → string → string → Prop) inp err :
  (∀ e attr v, value e attr v → value' e attr v) →
  reference_defect value inp err → reference_defect value' inp err.
Proof.
  intros Hsub [(e & attr & refs & f & mk & v & Hread & Hv & Hnot & ->)
              |[(d & e & v & Hd & He & Hv & Hk & Hs & ->)
               |(d & e & v & Hd & He & Hv & Hs & ->)]].
  - left. exists e, attr, refs, f, mk, v. eauto.
  - right. left. exists d, e, v. eauto 10.
  - right. right. exists d, e, v. eauto 10.
Qed.

Lemma reference_read_reported inp e attr refs file_path mk v :
  reference_read inp e attr refs file_path mk → has_value e attr v → Some v ∉ refs →
  Error file_path (get_line_number e) (mk v) ∈ collect_errors inp.
Proof.
  intros Hread Hv Hnot.
  destruct Hread as [d e Hd He|d e Hd He|d e Hd He|t Ht|t e Ht He|t e Ht He
                    |t Ht|t e Ht He|t e Ht He].
  - apply (in_run_letterDesc inp d _ Hd). unfold letterDesc_errors. in_segment 0.
    by apply (ref_checks_report _ _ _ (λ ref, InvalidSenderRef ref (get d "letter"))).
  - apply (in_run_letterDesc inp d _ Hd). unfold letterDesc_errors. in_segment 1.
    by apply (ref_checks_report _ _ _ (λ ref, InvalidReceiverRef ref (get d "letter"))).
  - apply (in_run_letterDesc inp d _ Hd). unfold letterDesc_errors.
    do 2 (apply elem_of_app; right). rewrite He.
    by apply (ref_check_reports _ _ _ (λ r, InvalidLocationRef r (get d "letter"))).
  - apply (in_run_letterText inp t _ Ht). unfold letterText_errors. in_segment 0.
    by apply (ref_check_reports _ _ _ InvalidLetterReference).
  - apply (in_run_letterText inp t _ Ht). unfold letterText_errors. in_segment 1.
    by apply (ref_checks_report _ _ _ (λ ref, InvalidHandRefBrief ref (get t "letter"))).
  - apply (in_run_letterText inp t _ Ht). unfold letterText_errors.
    do 2 (apply elem_of_app; right).
    by apply (ref_checks_report _ _ _ (λ ref, InvalidEditRef ref (get t "letter"))).
  - apply (in_run_letterTradition inp t _ Ht). unfold letterTradition_errors.
    in_segment 0. by apply (ref_check_reports _ _ _ InvalidLetterTradition).
  - apply (in_run_letterTradition inp t _ Ht). unfold letterTradition_errors.
    in_segment 1.
    by apply (ref_checks_report _ _ _ (λ ref, InvalidAppRef ref (get t "letter"))).
  - apply (in_run_letterTradition inp t _ Ht). unfold letterTradition_errors.
    do 2 (apply elem_of_app; right).
    by apply (ref_checks_report _ _ _ (λ ref, InvalidHandRefTrad ref (get t "letter"))).
Qed.

Lemma reference_defect_reported inp err :
  reference_defect has_value inp err → err ∈ collect_errors inp.
Proof.
  intros [(e & attr & refs & f & mk & v & Hread & Hv & Hnot & ->)
         |[(d & e & v & Hd & He & Hv & Hk & Hs & ->)
          |(d & e & v & Hd & He & Hv & Hs & ->)]].
  - by apply (reference_read_reported inp e attr refs).
  - apply (in_run_link inp d e _ Hd He). apply elem_of_link_body. left. by exists v.
  - apply (in_run_link inp d e _ Hd He). apply elem_of_link_body. right. by exists v.
Qed.

Lemma place_defect_reported inp err : place_defect inp err → err ∈ collect_errors inp.
Proof.
  intros [(d & e & m & Hd & He & Hm & ->)|(e & m & He & Hm & ->)].
  - apply (in_run_intlink inp d e _ Hd He).
    apply (elem_of_intlink_body (run_indices inp)); [apply entries_have_lines_run|].
    by exists m.
  - apply (in_run_marginal inp e _ He).
    apply (elem_of_marginal_body (run_indices inp)); [apply entries_have_lines_run|].
    by exists m.
Qed.

Lemma run_defect_reported inp err : run_defect inp err → err ∈ collect_errors inp.
Proof.
  intros [H|[H|H]].
  - by apply in_run_registers, elem_of_registers.
  - by apply reference_defect_reported.
  - by apply place_defect_reported.
Qed.

Lemma reported_reference_read inp e attr refs file_path mk err :
  reference_read inp e attr refs file_path mk →
  err ∈ ref_check file_path refs attr mk e → reference_defect has_value inp err.
Proof.
  intros Hread (v & Hv & Hnot & ->)%elem_of_ref_check.
  left. by exists e, attr, refs, file_path, mk, v.
Qed.

Lemma reported_run_defect inp err : err ∈ collect_errors inp → run_defect inp err.
Proof.
  rewrite collect_errors_traversal, traversal_errors_documents.
  rewrite !elem_of_app, !elem_of_flat_map.
  intros [H|[H|[H|[H|[H|[H|H]]]]]].
  - left. by apply elem_of_registers.
  - right. left. destruct H as (d & Hd & H). unfold letterDesc_errors in H.
    apply elem_of_app in H as [(e & He & H)%elem_of_flat_map|H];
      [|apply elem_of_app in H as [(e & He & H)%elem_of_flat_map|H]].
    + exact (reported_reference_read inp _ _ _ _ _ _ (read_sender inp d e Hd He) H).
    + exact (reported_reference_read inp _ _ _ _ _ _ (read_receiver inp d e Hd He) H).
    + destruct (find "location" d) as [e|] eqn:He; [|by apply elem_of_nil in H].
      exact (reported_reference_read inp _ _ _ _ _ _ (read_location inp d e Hd He) H).
  - right. left. destruct H as (t & Ht & H). unfold letterText_errors in H.
    apply elem_of_app in H as [H|H];
      [|apply elem_of_app in H
          as [(e & He & H)%elem_of_flat_map|(e & He & H)%elem_of_flat_map]].
    + exact (reported_reference_read inp _ _ _ _ _ _ (read_letterText inp t Ht) H).
    + exact (reported_reference_read inp _ _ _ _ _ _ (read_hand_brief inp t e Ht He) H).
    + exact (reported_reference_read inp _ _ _ _ _ _ (read_edit inp t e Ht He) H).
  - right. left. destruct H as (t & Ht & H). unfold letterTradition_errors in H.
    apply elem_of_app in H as [H|H];
      [|apply elem_of_app in H
          as [(e & He & H)%elem_of_flat_map|(e & He & H)%elem_of_flat_map]].
    + exact (reported_reference_read inp _ _ _ _ _ _ (read_letterTradition inp t Ht) H).
    + exact (reported_reference_read inp _ _ _ _ _ _ (read_app inp t e Ht He) H).
    + exact (reported_reference_read inp _ _ _ _ _ _ (read_hand_trad inp t e Ht He) H).
  - right. right. left.
    destruct H as (d & Hd & (e & He & H)%elem_of_flat_map).
    apply (elem_of_intlink_body (run_indices inp)) in H as (m & Hm & ->);
      [|apply entries_have_lines_run].
    by exists d, e, m.
  - right. right. right. destruct H as (e & He & H).
    apply (elem_of_marginal_body (run_indices inp)) in H as (m & Hm & ->);
      [|apply entries_have_lines_run].
    by exists e, m.
  - right. left. destruct H as (d & Hd & (e & He & H)%elem_of_flat_map).
    apply elem_of_link_body in H as [(v & Hv & Hk & Hs & ->)|(v & Hv & Hs & ->)].
    + right. left. by exists d, e, v.
    + right. right. by exists d, e, v.
Qed.

(** The messages of the three kinds of defect are told apart. *)
Lemma registry_defect_message regs err :
  registry_defect regs err → registry_message (msg err) = true.
Proof.
  intros (before & r & after & pre & e & post & m & _ & [[_ Hm]|[_ Hm]] & ->);
    destruct Hm as [[_ ->]|(id & _ & [[_ ->]|[[_ ->]|[_ ->]]])]; done.
Qed.

Lemma reference_defect_message value inp err :
  reference_defect value inp err →
  reference_message (msg err) = true ∧ registry_message (msg err) = false.
Proof.
  intros [(e & attr & refs & f & mk & v & Hread & _ & _ & ->)
         |[(d & e & v & _ & _ & _ & _ & _ & ->)|(d & e & v & _ & _ & _ & _ & ->)]];
    [destruct Hread|..]; done.
Qed.

Lemma place_defect_message inp err :
  place_defect inp err →
  reference_message (msg err) = false ∧ registry_message (msg err) = false.
Proof.
  intros [(d & e & m & _ & _ & Hm & ->)|(e & m & _ & Hm & ->)]; by destruct Hm.
Qed.

(** X10. The violations of a run are exactly the defects of its corpus:
    every violation is about an element that a check reads, under the file of
    its document and its line, and names what is wrong with that element; and
    every such defect is in the list. For an entry of a register the defect
    is an id that is absent or empty, an id carried by an entry before it in
    its register or before it in any register, or a missing lemma; for a
    reference a non-empty value outside the identifier set of its kind; for
    an internal link or a marginal note the first step of its cascade that
    fails: an attribute that is absent (or empty, for the link), a letter that
    the metadata does not know, or a letter, page or line for which neither
    scan recorded a line. *)
Theorem run_reports_justified (inp : inputs) (err : error) :
  err ∈ collect_errors inp ↔ run_defect inp err.
Proof. split; [apply reported_run_defect|apply run_defect_reported]. Qed.

(** ** Reference attributes in a run *)

(** C5, as the script has it. The reference attributes that a run reads are
    the ref of each sender and receiver below a letter descriptor and of the
    first location below it, looked up among the persons and the locations;
    the letter of each letter-text and letter-tradition block, among the
    letters of the metadata; the ref of each hand and edit below a
    letter-text block and of each app and hand below a letter-tradition
    block, among the hands, the edit reasons and the apparatus entries; and
    ref and subref of each link of the six documents and the registers, the
    ref among the ids of the entries and subsections that gathering the
    registers leaves in the pools, the subref among those of the
    subsections. The visit of an element without the attribute appends
    nothing; every violation about a reference comes from such an element
    whose attribute is present with a value outside its set; and every such
    element whose attribute has a non-empty value outside its set is
    reported, under its file and line. *)
Theorem optional_reference_checks (inp : inputs) :
  let regs := register_trees inp in
  let reg := gather_registers regs (Registry [] ∅ ∅) in
  (global_kommentar_ids reg = all_ids "kommentar" regs
   ∧ global_subsection_ids reg = all_ids "subsection" regs)
  ∧ (∀ e attr refs file_path mk,
       reference_read inp e attr refs file_path mk → get e attr = None →
       ref_check file_path refs attr mk e = [])
  ∧ (∀ d e,
       d ∈ link_documents inp → e ∈ findall "link" d.2 →
       (get e "ref" = None →
        link_ref_check d.1 (global_kommentar_ids reg) (global_subsection_ids reg) e = [])
       ∧ (get e "subref" = None →
          link_subref_check d.1 (global_subsection_ids reg) e = []))
  ∧ (∀ err,
       err ∈ collect_errors inp → reference_message (msg err) = true →
       reference_defect present inp err)
  ∧ (∀ err, reference_defect has_value inp err → err ∈ collect_errors inp).
Proof.
  intros regs reg. split; [apply run_pools|]. split; [|split; [|split]].
  - intros e attr refs file_path mk _ Hnone. apply ref_check_no_value. by left.
  - intros d e _ _. split; intros Hnone.
    + apply link_ref_check_spec. by left.
    + apply link_subref_check_spec. by left.
  - intros err [Hreg|[Href|Hplace]]%reported_run_defect Hmsg.
    + apply registry_defect_message in Hreg. by destruct (msg err).
    + apply (reference_defect_mono has_value); [apply has_value_present|done].
    + apply place_defect_message in Hplace as [Hno _]. congruence.
  - apply reference_defect_reported.
Qed.

(** The sender with the unknown ref P9 is reported. *)
Lemma optional_reference_checks_witness :
  Error "meta.xml" (Line 3) (InvalidSenderRef "P9" (Some "L1"))
    ∈ collect_errors inputs_sender_P9.
Proof.
  destruct (optional_reference_checks inputs_sender_P9) as (_ & _ & _ & _ & H).
  apply H. left.
  exists (leaf "sender" [("ref", "P9")] 3), "ref",
    (attr_set "personDef" "index" (references_xml inputs_sender_P9)),
    "meta.xml", (λ v, InvalidSenderRef v (Some "L1")), "P9".
  split; [|split; [|split]].
  - apply (read_sender inputs_sender_P9 letterDesc_sender_P9); by_eval.
  - split; [reflexivity|discriminate].
  - by_eval.
  - reflexivity.
Defined.

(** C5 as stated asks for a violation whenever a location, hand, edit or
    apparatus ref is present with a value outside its identifier set. Here
    the second location of the letter L1 has the ref BAD, which is no
    location, and a hand outside any letter-text block has the ref H9, which
    is no hand; and the run records nothing. *)
Lemma unchecked_refs_no_violation :
  location_second ∈ findall "location" (meta_xml inputs_unread_refs)
  ∧ get location_second "ref" = Some "BAD"
  ∧ (Some "BAD" ∉ attr_set "locationDef" "index" (references_xml inputs_unread_refs))
  ∧ hand_outside ∈ findall "hand" (briefe_xml inputs_unread_refs)
  ∧ get hand_outside "ref" = Some "H9"
  ∧ (Some "H9" ∉ attr_set "handDef" "index" (references_xml inputs_unread_refs))
  ∧ collect_errors inputs_unread_refs = [].
Proof.
  split; [by_eval|]. split; [reflexivity|]. split; [by_eval|].
  split; [by_eval|]. split; [reflexivity|]. split; [by_eval|].
  by vm_compute.
Qed.

(** ** Entries without a lemma, in a run *)

Lemma elem_of_all_ids t (regs : list (string * elem)) (id : string) :
  id ∈ all_ids t regs ↔ ∃ r e, r ∈ regs ∧ e ∈ findall t r.2 ∧ entry_id e = Some id.
Proof.
  unfold all_ids. rewrite elem_of_union_list. split.
  - intros (X & (r & -> & Hr)%list_elem_of_fmap & (e & He & Hid)%elem_of_ids_of).
    by exists r, e.
  - intros (r & e & Hr & He & Hid). exists (ids_of (findall t r.2)). split.
    + apply list_elem_of_fmap. by exists r.
    + apply elem_of_ids_of. by exists e.
Qed.

Lemma registry_reported_iff inp (file_path : string) (ln : line_no) (m : message) :
  registry_message m = true →
  Error file_path ln m ∈ collect_errors inp
  ↔ registry_defect (register_trees inp) (Error file_path ln m).
Proof.
  intros Hm. split.
  - intros [H|[H|H]]%reported_run_defect; [done|..].
    + apply reference_defect_message in H as [_ H]. simpl in H. congruence.
    + apply place_defect_message in H as [_ H]. simpl in H. congruence.
  - intros H. apply run_defect_reported. by left.
Qed.

(** The entries of a register of the run, with what is before them. *)
Lemma entry_of_split inp t (file_path : string) (ln : line_no) (e : elem) :
  entry_of inp t file_path ln e
  ↔ ∃ before r after pre post,
      register_trees inp = before ++ r :: after ∧ findall t r.2 = pre ++ e :: post
      ∧ file_path = r.1 ∧ ln = get_line_number e.
Proof.
  unfold entry_of. split.
  - intros (r & (before & after & Hregs)%list_elem_of_split
              & (pre & post & Hfind)%list_elem_of_split & -> & ->).
    by exists before, r, after, pre, post.
  - intros (before & r & after & pre & post & Hregs & Hfind & -> & ->).
    exists r. rewrite Hregs, Hfind. split; [|split; [|done]].
    + apply elem_of_app. right. apply list_elem_of_here.
    + apply elem_of_app. right. apply list_elem_of_here.
Qed.

Lemma no_lemma_below e : ¬ has_lemma e ↔ ∀ d, in_subtree d e → tag d ≠ "lemma".
Proof. unfold has_lemma. naive_solver. Qed.

Lemma entry_id_has_value e id : entry_id e = Some id ↔ has_value e "id" id.
Proof. apply truthy_val_Some. Qed.

Lemma entry_id_no_value e : entry_id e = None ↔ no_value e "id".
Proof. apply truthy_val_None. Qed.

Lemma kommentar_reported_iff inp (file_path : string) (ln : line_no) (m : message)
    (defect : elem → Prop) :
  registry_message m = true →
  (∀ local global e, entry_defect kommentar_kind local global e m ↔ defect e) →
  (∀ local global e, ¬ entry_defect subsection_kind local global e m) →
  Error file_path ln m ∈ collect_errors inp
  ↔ ∃ e, entry_of inp "kommentar" file_path ln e ∧ defect e.
Proof.
  intros Hm Hk Hs. rewrite (registry_reported_iff _ _ _ _ Hm). split.
  - intros (before & r & after & pre & e & post & m' & Hregs & [[Hfind Hd]|[Hfind Hd]]
            & [= -> -> <-]).
    + exists e. split; [|by apply Hk in Hd].
      apply entry_of_split. by exists before, r, after, pre, post.
    + destruct (Hs _ _ _ Hd).
  - intros (e & (before & r & after & pre & post & Hregs & Hfind & -> & ->)%entry_of_split
            & Hd).
    exists before, r, after, pre, e, post, m. split; [done|]. split; [|done].
    left. split; [done|]. by apply Hk.
Qed.

Lemma subsection_reported_iff inp (file_path : string) (ln : line_no) (m : message)
    (defect : elem → Prop) :
  registry_message m = true →
  (∀ local global e, entry_defect subsection_kind local global e m ↔ defect e) →
  (∀ local global e, ¬ entry_defect kommentar_kind local global e m) →
  Error file_path ln m ∈ collect_errors inp
  ↔ ∃ e, entry_of inp "subsection" file_path ln e ∧ defect e.
Proof.
  intros Hm Hs Hk. rewrite (registry_reported_iff _ _ _ _ Hm). split.
  - intros (before & r & after & pre & e & post & m' & Hregs & [[Hfind Hd]|[Hfind Hd]]
            & [= -> -> <-]).
    + destruct (Hk _ _ _ Hd).
    + exists e. split; [|by apply Hs in Hd].
      apply entry_of_split. by exists before, r, after, pre, post.
  - intros (e & (before & r & after & pre & post & Hregs & Hfind & -> & ->)%entry_of_split
            & Hd).
    exists before, r, after, pre, e, post, m. split; [done|]. split; [|done].
    right. split; [done|]. by apply Hs.
Qed.

Lemma no_link_ref_reported inp (id : string) (err : error) :
  id ∈ all_ids "kommentar" (register_trees inp)
  ∨ id ∈ all_ids "subsection" (register_trees inp) →
  err ∈ collect_errors inp → msg err ≠ InvalidLinkRef id.
Proof.
  intros Hin [H|[H|H]]%reported_run_defect Hmsg.
  - apply registry_defect_message in H. by rewrite Hmsg in H.
  - destruct H as [(e & attr & refs & f & mk & v & Hread & _ & _ & ->)
                  |[(d & e & v & _ & _ & _ & Hk & Hs & ->)
                   |(d & e & v & _ & _ & _ & _ & ->)]].
    + by destruct Hread.
    + simpl in Hmsg. injection Hmsg as ->. by destruct Hin.
    + done.
  - apply place_defect_message in H as [H _]. by rewrite Hmsg in H.
Qed.

Lemma no_link_subref_reported inp (id : string) (err : error) :
  id ∈ all_ids "subsection" (register_trees inp) →
  err ∈ collect_errors inp → msg err ≠ InvalidLinkSubref id.
Proof.
  intros Hin [H|[H|H]]%reported_run_defect Hmsg.
  - apply registry_defect_message in H. by rewrite Hmsg in H.
  - destruct H as [(e & attr & refs & f & mk & v & Hread & _ & _ & ->)
                  |[(d & e & v & _ & _ & _ & Hk & Hs & ->)
                   |(d & e & v & _ & _ & _ & Hs & ->)]].
    + by destruct Hread.
    + done.
    + simpl in Hmsg. by injection Hmsg as ->.
  - apply place_defect_message in H as [H _]. by rewrite Hmsg in H.
Qed.

Lemma count_entry_new_missing kind (file_path : string) (local global : gset string)
    (e : elem) :
  (∀ id, missing_id kind ≠ duplicate_local kind id
         ∧ missing_id kind ≠ duplicate_global kind id
         ∧ missing_id kind ≠ missing_lemma kind id) →
  count_msg (missing_id kind) (entry_new kind file_path local global e)
  = if decide (entry_id e = None) then 1 else 0.
Proof.
  intros Hkind. unfold entry_new. destruct (entry_id e) as [id|].
  - destruct (Hkind id) as (Hl & Hg & Hlem).
    destruct (bool_decide (id ∈ local)), (bool_decide (id ∈ global)), (lemma_missing e);
      simpl; rewrite ?count_msg_cons; simpl;
      rewrite ?decide_False by congruence; done.
  - rewrite count_msg_one. simpl. by rewrite decide_True.
Qed.

Lemma count_entry_loop_missing kind (file_path : string) (local global : gset string)
    (l : list elem) :
  (∀ id, missing_id kind ≠ duplicate_local kind id
         ∧ missing_id kind ≠ duplicate_global kind id
         ∧ missing_id kind ≠ missing_lemma kind id) →
  count_msg (missing_id kind) (entry_loop_new kind file_path local global l)
  = length (filter (λ e, entry_id e = None) l).
Proof.
  intros Hkind. revert local global.
  induction l as [|e l IH]; intros local global; simpl; [done|].
  rewrite count_msg_app, count_entry_new_missing, IH, filter_cons by done.
  by destruct (decide (entry_id e = None)).
Qed.

Lemma count_registers_missing_kommentar regs (kommentar_ids subsection_ids : gset string) :
  count_msg KommentarMissingId (registers_new kommentar_ids subsection_ids regs)
  = entries_without_id "kommentar" regs.
Proof.
  unfold entries_without_id, all_entries. revert kommentar_ids subsection_ids.
  induction regs as [|r regs IH]; intros kommentar_ids subsection_ids; simpl; [done|].
  rewrite !count_msg_app, IH, filter_app, length_app.
  rewrite (count_entry_loop_foreign subsection_kind) by (split; [done|by intros id]).
  by rewrite (count_entry_loop_missing kommentar_kind) by (by intros id).
Qed.

Lemma count_registers_missing_subsection regs (kommentar_ids subsection_ids : gset string) :
  count_msg SubsectionMissingId (registers_new kommentar_ids subsection_ids regs)
  = entries_without_id "subsection" regs.
Proof.
  unfold entries_without_id, all_entries. revert kommentar_ids subsection_ids.
  induction regs as [|r regs IH]; intros kommentar_ids subsection_ids; simpl; [done|].
  rewrite !count_msg_app, IH, filter_app, length_app.
  rewrite (count_entry_loop_foreign kommentar_kind) by (split; [done|by intros id]).
  by rewrite (count_entry_loop_missing subsection_kind) by (by intros id).
Qed.

(** C7, as the script has it. In a run, an entry (and likewise a subsection)
    of a register gets the violation for the missing lemma exactly when its
    id has a non-empty value and no element anywhere below it, at any depth,
    is a lemma - whatever the duplicate tests found for it. Such an entry is
    registered all the same: its id is in the pool that gathering the
    registers leaves, and no link of the run is reported for a ref (or, for
    a subsection, a subref) with that id. An entry whose id is absent or
    empty gets the violation for the missing id; no violation for a missing
    lemma is ever raised for it, and the empty string is in neither pool. Of
    the violations for a missing id there is one for each such entry. *)
Theorem entry_without_lemma (inp : inputs) :
  let reg := gather_registers (register_trees inp) (Registry [] ∅ ∅) in
  (∀ file_path ln id,
     (Error file_path ln (KommentarMissingLemma id) ∈ collect_errors inp
      ↔ ∃ e, entry_of inp "kommentar" file_path ln e
             ∧ has_value e "id" id ∧ ∀ d, in_subtree d e → tag d ≠ "lemma")
     ∧ (Error file_path ln (SubsectionMissingLemma id) ∈ collect_errors inp
        ↔ ∃ e, entry_of inp "subsection" file_path ln e
               ∧ has_value e "id" id ∧ ∀ d, in_subtree d e → tag d ≠ "lemma"))
  ∧ (∀ r e id,
       r ∈ register_trees inp → has_value e "id" id →
       (e ∈ findall "kommentar" r.2 →
          id ∈ global_kommentar_ids reg
          ∧ ∀ err, err ∈ collect_errors inp → msg err ≠ InvalidLinkRef id)
       ∧ (e ∈ findall "subsection" r.2 →
          id ∈ global_subsection_ids reg
          ∧ ∀ err, err ∈ collect_errors inp →
              msg err ≠ InvalidLinkRef id ∧ msg err ≠ InvalidLinkSubref id))
  ∧ (∀ file_path ln,
       (Error file_path ln KommentarMissingId ∈ collect_errors inp
        ↔ ∃ e, entry_of inp "kommentar" file_path ln e ∧ no_value e "id")
       ∧ (Error file_path ln SubsectionMissingId ∈ collect_errors inp
          ↔ ∃ e, entry_of inp "subsection" file_path ln e ∧ no_value e "id"))
  ∧ (count_msg KommentarMissingId (collect_errors inp)
     = entries_without_id "kommentar" (register_trees inp)
     ∧ count_msg SubsectionMissingId (collect_errors inp)
       = entries_without_id "subsection" (register_trees inp))
  ∧ (∀ err, err ∈ collect_errors inp →
       msg err ≠ KommentarMissingLemma "" ∧ msg err ≠ SubsectionMissingLemma "")
  ∧ ("" ∉ global_kommentar_ids reg) ∧ ("" ∉ global_subsection_ids reg).
Proof.
  intros reg. subst reg. destruct (run_pools inp) as [-> ->].
  split; [|split; [|split; [|split; [|split; [|split]]]]].
  - intros file_path ln id. split.
    + apply kommentar_reported_iff; [done| |].
      * intros local global e. rewrite <- entry_id_has_value, <- no_lemma_below.
        unfold entry_defect. simpl. split.
        -- intros [[_ [=]]|(id' & Hid & [[_ [=]]|[[_ [=]]|[Hlem [= ->]]]])]. done.
        -- intros [Hid Hlem]. right. exists id. split; [done|]. right. by right.
      * intros local global e [[_ [=]]|(id' & _ & [[_ [=]]|[[_ [=]]|[_ [=]]]])].
    + apply subsection_reported_iff; [done| |].
      * intros local global e. rewrite <- entry_id_has_value, <- no_lemma_below.
        unfold entry_defect. simpl. split.
        -- intros [[_ [=]]|(id' & Hid & [[_ [=]]|[[_ [=]]|[Hlem [= ->]]]])]. done.
        -- intros [Hid Hlem]. right. exists id. split; [done|]. right. by right.
      * intros local global e [[_ [=]]|(id' & _ & [[_ [=]]|[[_ [=]]|[_ [=]]]])].
  - intros r e id Hr Hid%entry_id_has_value. split; intros He.
    + assert (Hin : id ∈ all_ids "kommentar" (register_trees inp))
        by (apply elem_of_all_ids; by exists r, e).
      split; [done|]. intros err. apply no_link_ref_reported. by left.
    + assert (Hin : id ∈ all_ids "subsection" (register_trees inp))
        by (apply elem_of_all_ids; by exists r, e).
      split; [done|]. intros err Herr. split.
      * apply (no_link_ref_reported inp); [by right|done].
      * by apply (no_link_subref_reported inp).
  - intros file_path ln. split.
    + apply kommentar_reported_iff; [done| |].
      * intros local global e. rewrite <- entry_id_no_value.
        unfold entry_defect. simpl. split.
        -- intros [[Hid _]|(id' & _ & [[_ [=]]|[[_ [=]]|[_ [=]]]])]. done.
        -- intros Hid. by left.
      * intros local global e [[_ [=]]|(id' & _ & [[_ [=]]|[[_ [=]]|[_ [=]]]])].
    + apply subsection_reported_iff; [done| |].
      * intros local global e. rewrite <- entry_id_no_value.
        unfold entry_defect. simpl. split.
        -- intros [[Hid _]|(id' & _ & [[_ [=]]|[[_ [=]]|[_ [=]]]])]. done.
        -- intros Hid. by left.
      * intros local global e [[_ [=]]|(id' & _ & [[_ [=]]|[[_ [=]]|[_ [=]]]])].
  - rewrite !count_run_registry by done.
    by rewrite count_registers_missing_kommentar, count_registers_missing_subsection.
  - intros err [H|[H|H]]%reported_run_defect.
    + destruct H as (before & r & after & pre & e & post & m & _ & [[_ Hd]|[_ Hd]] & ->);
        destruct Hd as [[_ ->]|(id & Hid%truthy_val_nonempty & [[_ ->]|[[_ ->]|[_ ->]]])];
        simpl; split; congruence.
    + apply reference_defect_message in H as [_ H]. split; intros Hm; by rewrite Hm in H.
    + apply place_defect_message in H as [_ H]. split; intros Hm; by rewrite Hm in H.
  - intros (r & e & _ & _ & Hid%truthy_val_nonempty)%elem_of_all_ids. done.
  - intros (r & e & _ & _ & Hid%truthy_val_nonempty)%elem_of_all_ids. done.
Qed.

(** The entry K2, whose subtree holds a title and no lemma, is reported. *)
Lemma entry_without_lemma_witness :
  Error "r.xml" (Line 2) (KommentarMissingLemma "K2") ∈ collect_errors inputs_K2.
Proof.
  destruct (entry_without_lemma inputs_K2) as [H _].
  destruct (H "r.xml" (Line 2) "K2") as [[_ Hk] _]. apply Hk.
  exists kommentar_K2. split; [|split].
  - exists ("r.xml", register_K2).
    split; [apply list_elem_of_here|]. split; [by_eval|]. split; reflexivity.
  - split; [reflexivity|discriminate].
  - apply lemma_missing_subtree. reflexivity.
Defined.

(** ** The page across the blocks of the transcription *)










(** ** No order of iteration reaches the output *)

(** *** Sets *)

Lemma elem_of_set_of {A} `{Countable A} (s : Hashed.pyset A) (x : A) :
  x ∈ set_of s ↔ x ∈ s.
Proof. apply elem_of_list_to_set. Qed.

Lemma mem_set_of {A} `{Countable A} (s : Hashed.pyset A) (x : A) :
  bool_decide (x ∈ s) = bool_decide (x ∈ set_of s).
Proof. apply bool_decide_ext. symmetry. apply elem_of_set_of. Qed.

Lemma not_mem_set_of {A} `{Countable A} (s : Hashed.pyset A) (x : A) :
  bool_decide (x ∉ s) = bool_decide (x ∉ set_of s).
Proof. apply bool_decide_ext. by rewrite elem_of_set_of. Qed.

Lemma set_of_add {A} `{Countable A} (x : A) (s : Hashed.pyset A) :
  set_of (Hashed.add x s) = {[x]} ∪ set_of s.
Proof.
  unfold Hashed.add. apply set_eq. intros y. case_decide.
  - rewrite elem_of_union, elem_of_singleton, !elem_of_set_of. naive_solver.
  - rewrite elem_of_union, elem_of_singleton, !elem_of_set_of, elem_of_app,
      list_elem_of_singleton. naive_solver.
Qed.

Lemma set_of_foldl_add {A E} `{Countable A} (f : E → A) (s : Hashed.pyset A) (l : list E) :
  set_of (foldl (λ acc e, Hashed.add (f e) acc) s l) = set_of s ∪ list_to_set (f <$> l).
Proof.
  revert s. induction l as [|e l IH]; intros s; csimpl.
  - by rewrite (right_id_L ∅ (∪)).
  - rewrite IH, set_of_add. set_solver.
Qed.

Lemma set_of_update (h : hash_order) (s t : Hashed.pyset string) :
  set_of (Hashed.update h s t) = set_of s ∪ set_of t.
Proof.
  unfold Hashed.update. rewrite (set_of_foldl_add (λ x, x)), list_fmap_id. f_equal.
  apply set_eq. intros x. unfold set_of. rewrite !elem_of_list_to_set.
  by rewrite (iteration_perm h t).
Qed.

Lemma set_of_comprehension {A E} `{Countable A} (f : E → A) (l : list E) :
  set_of (Hashed.comprehension f l) = list_to_set (f <$> l).
Proof.
  unfold Hashed.comprehension. rewrite set_of_foldl_add.
  unfold set_of. simpl. by rewrite (left_id_L ∅ (∪)).
Qed.

(** *** The location map *)

Lemma lookup_map_of (m : Hashed.LocMap) (l : string) :
  map_of m !! l = (λ pd, set_of <$> pd) <$> (m !! l).
Proof. unfold map_of. by rewrite lookup_fmap. Qed.

Lemma pages_of_map_of (m : Hashed.LocMap) (l : string) :
  pages_of (map_of m) l = set_of <$> Hashed.pages_of m l.
Proof.
  unfold pages_of, Hashed.pages_of. rewrite lookup_map_of.
  destruct (m !! l); simpl; [done|]. by rewrite fmap_empty.
Qed.

Lemma lines_of_map_of (m : Hashed.LocMap) (l p : string) :
  lines_of (map_of m) l p = set_of (Hashed.lines_of m l p).
Proof.
  unfold lines_of, Hashed.lines_of. rewrite pages_of_map_of, lookup_fmap.
  by destruct (Hashed.pages_of m l !! p).
Qed.

Lemma map_of_add_line (l p x : string) (m : Hashed.LocMap) :
  map_of (Hashed.add_line l p x m) = add_line l p x (map_of m).
Proof.
  unfold Hashed.add_line, add_line. unfold map_of at 1. rewrite fmap_insert, fmap_insert.
  by rewrite set_of_add, lines_of_map_of, pages_of_map_of.
Qed.

Lemma map_of_update_lines (h : hash_order) (l p : string) (s : Hashed.pyset string)
    (m : Hashed.LocMap) :
  map_of (Hashed.update_lines h l p s m) = update_lines l p (set_of s) (map_of m).
Proof.
  unfold Hashed.update_lines, update_lines. unfold map_of at 1.
  rewrite fmap_insert, fmap_insert.
  by rewrite set_of_update, lines_of_map_of, pages_of_map_of.
Qed.

(** *** The loops *)

Lemma foldl_simulation {A A' B} (g : A' → A) (f' : A' → B → A') (f : A → B → A)
    (a : A') (l : list B) :
  (∀ a x, g (f' a x) = f (g a) x) → g (foldl f' a l) = foldl f (g a) l.
Proof.
  intros Hstep. revert a. induction l as [|x l IH]; intros a; simpl; [done|].
  by rewrite IH, Hstep.
Qed.

Lemma map_fold_simulation {V A A'} (g : A' → A) (f' : string → V → A' → A')
    (f : string → V → A → A) (a : A') (m : gmap string V) :
  (∀ i x acc, g (f' i x acc) = f i x (g acc)) →
  g (map_fold f' a m) = map_fold f (g a) m.
Proof.
  intros Hstep. rewrite !map_fold_foldr.
  induction (map_to_list m) as [|[i x] l IH]; simpl; [done|]. by rewrite Hstep, IH.
Qed.

Lemma for_each_ext {A} (l : list A) (body body' : A → list error) (errors : list error) :
  (∀ x, body x = body' x) → for_each l body errors = for_each l body' errors.
Proof.
  intros Hbody. unfold for_each. revert errors.
  induction l as [|x l IH]; intros errors; simpl; [done|]. by rewrite IH, Hbody.
Qed.

Lemma foldl_ext_list {A B} (f f' : A → B → A) (a : A) (l : list B) :
  (∀ a x, f a x = f' a x) → foldl f a l = foldl f' a l.
Proof. intros Hf. by apply (foldl_simulation (λ a, a)). Qed.

(** *** The scans and the merge *)

Lemma scan_of_brief_step (st : Hashed.scan_state) (e : elem) :
  scan_of (Hashed.brief_step st e) = brief_step (scan_of st) e.
Proof.
  unfold Hashed.brief_step, brief_step. destruct st as [cl cp lp]. simpl.
  repeat case_decide; try done.
  - by destruct (truthy (get e "index")).
  - destruct (truthy_val cl), (truthy_val cp), (truthy_val (get e "index")); try done.
    unfold scan_of. simpl. by rewrite map_of_add_line.
Qed.

Lemma map_of_brief (doc_root : elem) :
  map_of (Hashed.build_letter_page_line_map_brief doc_root)
  = build_letter_page_line_map_brief doc_root.
Proof.
  unfold Hashed.build_letter_page_line_map_brief, build_letter_page_line_map_brief,
    Hashed.brief_scan, brief_scan.
  change (map_of (Hashed.letter_pages ?st)) with (letter_pages (scan_of st)).
  by rewrite (foldl_simulation scan_of _ brief_step) by apply scan_of_brief_step.
Qed.

Lemma trad_of_trad_step (letter_id : string) (st : option string * Hashed.LocMap)
    (e : elem) :
  trad_of (Hashed.trad_step letter_id st e) = trad_step letter_id (trad_of st) e.
Proof.
  unfold Hashed.trad_step, trad_step. destruct st as [cp lp]. simpl.
  repeat case_decide; try done.
  - by destruct (truthy (get e "index")).
  - destruct (truthy_val cp), (truthy_val (get e "index")); try done.
    unfold trad_of. simpl. by rewrite map_of_add_line.
Qed.

Lemma map_of_trad_block (m : Hashed.LocMap) (letter_trad : elem) :
  map_of (Hashed.trad_block m letter_trad) = trad_block (map_of m) letter_trad.
Proof.
  unfold Hashed.trad_block, trad_block.
  destruct (truthy_val (get letter_trad "letter")) as [letter_id|]; [|done].
  change (map_of (?st).2) with (trad_of st).2.
  by rewrite (foldl_simulation trad_of _ (trad_step letter_id))
    by apply trad_of_trad_step.
Qed.

Lemma map_of_trad (trad_root : elem) :
  map_of (Hashed.build_letter_page_line_map_trad trad_root)
  = build_letter_page_line_map_trad trad_root.
Proof.
  unfold Hashed.build_letter_page_line_map_trad, build_letter_page_line_map_trad.
  by rewrite (foldl_simulation map_of _ trad_block) by apply map_of_trad_block.
Qed.

(** The merge iterates the line sets of the second map; whatever the order,
    the sets it leaves are the same. *)
Lemma map_of_merge (h : hash_order) (a b : Hashed.LocMap) :
  map_of (Hashed.merge_page_line_maps h a b)
  = merge_page_line_maps (map_of a) (map_of b).
Proof.
  unfold Hashed.merge_page_line_maps, merge_page_line_maps.
  unfold map_of at 3. rewrite map_fold_fmap.
  apply map_fold_simulation. intros l pd acc. simpl.
  rewrite map_fold_fmap. apply map_fold_simulation. intros p s acc'. simpl.
  apply map_of_update_lines.
Qed.

Lemma map_of_merged (h : hash_order) (inp : inputs) :
  map_of (Hashed.merged_letter_pages h inp) = merged_letter_pages inp.
Proof.
  unfold Hashed.merged_letter_pages, merged_letter_pages.
  by rewrite map_of_merge, map_of_brief, map_of_trad.
Qed.

(** *** The checks *)

Lemma ref_check_hashed (file_path : string) (refs : Hashed.pyset (option string))
    (attr : string) (mk : string → message) (e : elem) :
  Hashed.ref_check file_path refs attr mk e = ref_check file_path (set_of refs) attr mk e.
Proof.
  unfold Hashed.ref_check, ref_check. destruct (truthy_val (get e attr)); [|done].
  by rewrite not_mem_set_of.
Qed.

Lemma attr_set_hashed (t attr : string) (root : elem) :
  set_of (Hashed.attr_set t attr root) = attr_set t attr root.
Proof. apply set_of_comprehension. Qed.

Lemma intlink_body_hashed (file_path : string) (lp : Hashed.LocMap)
    (refs : Hashed.pyset (option string)) (e : elem) :
  Hashed.intlink_body file_path lp refs e
  = intlink_body file_path (map_of lp) (set_of refs) e.
Proof.
  unfold Hashed.intlink_body, intlink_body.
  destruct (truthy_val (get e "letter")) as [l|]; [|done].
  rewrite not_mem_set_of. destruct (bool_decide (get e "letter" ∉ set_of refs)); [done|].
  rewrite lookup_map_of. destruct (lp !! l) as [pages|]; simpl; [|done].
  destruct (truthy_val (get e "page")) as [p|]; [|done].
  rewrite lookup_fmap. destruct (pages !! p) as [lines|]; simpl; [|done].
  destruct (truthy_val (get e "line")) as [x|]; [|done].
  by rewrite not_mem_set_of.
Qed.

Lemma validate_intlinks_hashed (xml_root : elem) (file_path : string)
    (lp : Hashed.LocMap) (refs : Hashed.pyset (option string)) (errors : list error) :
  Hashed.validate_intlinks xml_root file_path lp refs errors
  = validate_intlinks xml_root file_path (map_of lp) (set_of refs) errors.
Proof. apply for_each_ext. intros e. apply intlink_body_hashed. Qed.

Lemma marginal_body_hashed (file_path : string) (lp : Hashed.LocMap)
    (refs : Hashed.pyset (option string)) (e : elem) :
  Hashed.marginal_body file_path lp refs e
  = marginal_body file_path (map_of lp) (set_of refs) e.
Proof.
  unfold Hashed.marginal_body, marginal_body. rewrite not_mem_set_of.
  destruct (bool_decide (get e "letter" ∉ set_of refs)); [done|].
  destruct (get e "letter") as [l|]; simpl; [|done].
  rewrite lookup_map_of. destruct (lp !! l) as [pages|]; simpl; [|done].
  destruct (get e "page") as [p|]; simpl; [|done].
  rewrite lookup_fmap. destruct (pages !! p) as [lines|]; simpl; [|done].
  destruct (get e "line") as [x|]; simpl; [|done].
  by rewrite mem_set_of.
Qed.

Lemma link_body_hashed (file_path : string) (kommentar_ids subsection_ids : Hashed.pyset string)
    (e : elem) :
  Hashed.link_body file_path kommentar_ids subsection_ids e
  = link_body file_path (set_of kommentar_ids) (set_of subsection_ids) e.
Proof.
  unfold Hashed.link_body, link_body, Hashed.link_ref_check, link_ref_check,
    Hashed.link_subref_check, link_subref_check.
  f_equal.
  - destruct (truthy_val (get e "ref")); [|done]. by rewrite !not_mem_set_of.
  - destruct (truthy_val (get e "subref")); [|done]. by rewrite not_mem_set_of.
Qed.

Lemma validate_links_hashed (xml_root : elem) (file_path : string)
    (kommentar_ids subsection_ids : Hashed.pyset string) (errors : list error) :
  Hashed.validate_links_for_commentary xml_root file_path kommentar_ids subsection_ids
                                       errors
  = validate_links_for_commentary xml_root file_path (set_of kommentar_ids)
                                  (set_of subsection_ids) errors.
Proof. apply for_each_ext. intros e. apply link_body_hashed. Qed.

Lemma letterDesc_body_hashed (file_path : string)
    (person_refs location_refs : Hashed.pyset (option string)) (letter : elem)
    (errors : list error) :
  Hashed.letterDesc_body file_path person_refs location_refs letter errors
  = letterDesc_body file_path (set_of person_refs) (set_of location_refs) letter errors.
Proof.
  unfold Hashed.letterDesc_body, letterDesc_body.
  rewrite (for_each_ext (findall "sender" letter) _ _ errors
             (λ e, ref_check_hashed _ _ _ _ e)).
  rewrite (for_each_ext (findall "receiver" letter) _ _ _
             (λ e, ref_check_hashed _ _ _ _ e)).
  destruct (find "location" letter); [|done]. by rewrite ref_check_hashed.
Qed.

Lemma letterText_body_hashed (file_path : string)
    (letter_refs hand_refs edit_refs : Hashed.pyset (option string)) (letter_text : elem)
    (errors : list error) :
  Hashed.letterText_body file_path letter_refs hand_refs edit_refs letter_text errors
  = letterText_body file_path (set_of letter_refs) (set_of hand_refs) (set_of edit_refs)
                    letter_text errors.
Proof.
  unfold Hashed.letterText_body, letterText_body. rewrite ref_check_hashed.
  rewrite (for_each_ext (findall "hand" letter_text) _ _ _
             (λ e, ref_check_hashed _ _ _ _ e)).
  by rewrite (for_each_ext (findall "edit" letter_text) _ _ _
                (λ e, ref_check_hashed _ _ _ _ e)).
Qed.

Lemma letterTradition_body_hashed (file_path : string)
    (letter_refs app_refs hand_refs : Hashed.pyset (option string)) (tradition : elem)
    (errors : list error) :
  Hashed.letterTradition_body file_path letter_refs app_refs hand_refs tradition errors
  = letterTradition_body file_path (set_of letter_refs) (set_of app_refs)
                         (set_of hand_refs) tradition errors.
Proof.
  unfold Hashed.letterTradition_body, letterTradition_body. rewrite ref_check_hashed.
  rewrite (for_each_ext (findall "app" tradition) _ _ _
             (λ e, ref_check_hashed _ _ _ _ e)).
  by rewrite (for_each_ext (findall "hand" tradition) _ _ _
                (λ e, ref_check_hashed _ _ _ _ e)).
Qed.

(** *** The registers *)

Lemma gather_of_entry_step kind (file_path : string) (st : Hashed.gather_state)
    (e : elem) :
  gather_of (Hashed.entry_step kind file_path st e)
  = entry_step kind file_path (gather_of st) e.
Proof.
  unfold Hashed.entry_step, entry_step. destruct st as [errors local global]. simpl.
  destruct (truthy_val (get e "id")) as [id|]; [|done].
  rewrite !mem_set_of.
  destruct (bool_decide (id ∈ set_of local)), (bool_decide (id ∈ set_of global)),
    (lemma_missing e); unfold gather_of; simpl; by rewrite ?set_of_add.
Qed.

Lemma registry_of_gather (xml_root : elem) (file_path : string) (reg : Hashed.registry) :
  registry_of (Hashed.gather_commentaries_and_subsections xml_root file_path reg)
  = gather_commentaries_and_subsections xml_root file_path (registry_of reg).
Proof.
  unfold Hashed.gather_commentaries_and_subsections, gather_commentaries_and_subsections.
  unfold kommentar_step, subsection_step.
  set (k' := foldl (Hashed.entry_step kommentar_kind file_path) _ _).
  set (k := foldl (entry_step kommentar_kind file_path) _ _).
  assert (Hk : gather_of k' = k).
  { subst k' k. by rewrite (foldl_simulation gather_of _ (entry_step kommentar_kind file_path))
      by apply gather_of_entry_step. }
  set (s' := foldl (Hashed.entry_step subsection_kind file_path) _ _).
  set (s0 := foldl (entry_step subsection_kind file_path) _ _).
  assert (Hs : gather_of s' = s0).
  { subst s' s0. rewrite (foldl_simulation gather_of _ (entry_step subsection_kind file_path))
      by apply gather_of_entry_step.
    unfold gather_of at 1. simpl. by rewrite <- Hk. }
  unfold registry_of. simpl. by rewrite <- Hk, <- Hs.
Qed.

Lemma registry_of_gather_registers (regs : list (string * elem)) (reg : Hashed.registry) :
  registry_of (Hashed.gather_registers regs reg) = gather_registers regs (registry_of reg).
Proof.
  unfold Hashed.gather_registers, gather_registers.
  apply (foldl_simulation registry_of). intros reg' r. apply registry_of_gather.
Qed.

(** *** The run *)

Lemma collect_errors_hashed (h : hash_order) (inp : inputs) :
  Hashed.collect_errors h inp = collect_errors inp.
Proof.
  unfold Hashed.collect_errors, collect_errors. cbv zeta.
  pose proof (registry_of_gather_registers (register_trees inp)
                (Hashed.Registry [] [] [])) as Hreg.
  change (registry_of (Hashed.Registry [] [] [])) with (Registry [] ∅ ∅) in Hreg.
  rewrite <- Hreg. unfold registry_of. simpl.
  rewrite <- !attr_set_hashed, <- map_of_merged with (h := h).
  rewrite (foldl_ext_list _ _ _ (findall "letterDesc" (meta_xml inp))
             (λ errors letter, letterDesc_body_hashed _ _ _ letter errors)).
  rewrite (foldl_ext_list _ _ _ (findall "letterText" (briefe_xml inp))
             (λ errors t, letterText_body_hashed _ _ _ _ t errors)).
  rewrite (foldl_ext_list _ _ _ (findall "letterTradition" (traditions_xml inp))
             (λ errors t, letterTradition_body_hashed _ _ _ _ t errors)).
  rewrite !validate_intlinks_hashed.
  rewrite (foldl_ext_list _ _ _ (register_trees inp)
             (λ errors r, validate_intlinks_hashed r.2 r.1 _ _ errors)).
  rewrite (for_each_ext (findall "marginal" (marginalien_xml inp)) _ _ _
             (λ e, marginal_body_hashed _ _ _ e)).
  rewrite !validate_links_hashed.
  by rewrite (foldl_ext_list _ _ _ (register_trees inp)
                (λ errors r, validate_links_hashed r.2 r.1 _ _ errors)).
Qed.

Lemma validate_references_hashed (h : hash_order) (inp : inputs) :
  Hashed.validate_references h inp = validate_references inp.
Proof.
  unfold Hashed.validate_references, validate_references.
  by rewrite collect_errors_hashed.
Qed.

(** The parameter is felt inside the run: on the sample tradition the merge
    leaves the lines of page 3 as 7, 8 under one order and as 8, 7 under the
    other, and the run prints the same violation under both. *)
Example merge_order_visible :
  Hashed.lines_of (Hashed.merged_letter_pages insertion_order inputs_two_tradition_lines)
                  "L1" "3" = ["7"; "8"]
  ∧ Hashed.lines_of (Hashed.merged_letter_pages reversed_order inputs_two_tradition_lines)
                    "L1" "3" = ["8"; "7"]
  ∧ Hashed.validate_references insertion_order inputs_two_tradition_lines
    = (["::error file=traditions.xml,line=6::Invalid line=9 for letter=L1, page=3 in intlink"],
       1)
  ∧ Hashed.validate_references reversed_order inputs_two_tradition_lines
    = Hashed.validate_references insertion_order inputs_two_tradition_lines.
Proof. repeat split; by vm_compute. Qed.

(** C8. With every set held as the interpreter holds it, the run gives the
    same output whatever the order in which sets are iterated: the strings
    printed, the bytes they make on the standard output and the exit status
    are the same for any two orders, so two runs on the same documents print
    the same. The violations are those that the checks append element by
    element, each walking its document in document order, in the order of the
    steps; no set is iterated to produce them. *)
Theorem validate_references_hash_order (inp : inputs) (h1 h2 : hash_order) :
  Hashed.validate_references h1 inp = Hashed.validate_references h2 inp
  ∧ stdout (Hashed.validate_references h1 inp).1
    = stdout (Hashed.validate_references h2 inp).1
  ∧ Hashed.collect_errors h1 inp = traversal_errors inp
  ∧ Hashed.validate_references h1 inp = report (traversal_errors inp).
Proof.
  rewrite !validate_references_hashed, collect_errors_hashed.
  split; [done|]. split; [done|]. split; [apply collect_errors_traversal|].
  by rewrite validate_references_report, collect_errors_traversal.
Qed.
